(** * Shallow-water models on the Arakawa-C grid: a shallow embedding

    The development follows [beta_plane/linear.py] and
    [beta_plane/nonlinear.py].  Fields are numpy arrays, here lists of
    lists whose outer index is the first (x) axis and whose inner index is
    the second (y) axis.  Floating-point values are kept abstract: a type
    [R] with the operations the sources use.  Python exceptions are the
    [Raise] branch of [Result]; methods that mutate the model return the
    model they leave behind together with their outcome. *)

From Stdlib Require Import ZArith Lia.
From stdpp Require Import base list strings.

Open Scope Z_scope.

(** ** Scalars *)

(** The arithmetic of array elements. [fhalf] is the literal [0.5] and
    [ftruthy] is Python truthiness of a number ([if kappa:]). *)
Class Scalar (R : Type) := {
  fzero : R;
  fadd : R -> R -> R;
  fsub : R -> R -> R;
  fmul : R -> R -> R;
  fneg : R -> R;
  fhalf : R;
  ftruthy : R -> bool
}.

(** What exact arithmetic says about the value zero. *)
Class ZeroLaws (R : Type) {SR : Scalar R} : Prop := {
  fadd_zero : fadd fzero fzero = fzero;
  fsub_zero : fsub fzero fzero = fzero;
  fneg_zero : fneg fzero = fzero;
  fmul_zero_r : forall x : R, fmul x fzero = fzero;
  fmul_zero_l : forall x : R, fmul fzero x = fzero
}.

(** ** Exceptions *)

Inductive Exn : Type :=
  | IndexError
  | ValueError
  | KeyError
  | StopIteration
  | UserError (code : nat).

Inductive Result (A : Type) : Type :=
  | Ok (a : A)
  | Raise (e : Exn).
Arguments Ok {A} a.
Arguments Raise {A} e.

Definition bind {A B : Type} (m : Result A) (k : A -> Result B) : Result B :=
  match m with
  | Ok a => k a
  | Raise e => Raise e
  end.

Notation "'do' x <- m ; k" := (bind m (fun x => k))
  (at level 10, x name, m at level 100, k at level 200).
Notation "'do' ' p <- m ; k" := (bind m (fun x => let 'p := x in k))
  (at level 10, p pattern, m at level 100, k at level 200).

Fixpoint mapM {A B : Type} (f : A -> Result B) (l : list A) : Result (list B) :=
  match l with
  | [] => Ok []
  | a :: l' => do b <- f a; do bs <- mapM f l'; Ok (b :: bs)
  end.

(** ** numpy arrays *)

Module Np.

(** A two-dimensional array: [a !! i] is [a[i, :]].  An array whose first
    axis is empty is [[]] whatever the length of its second axis: what
    numpy checks on the second axis of an array without rows is not
    modelled. *)
Abbreviation Arr R := (list (list R)) (only parsing).

Section Arrays.
Context {R : Type} {SR : Scalar R}.

Definition zeros (n m : nat) : Arr R := replicate n (replicate m fzero).

Definition has_shape (n m : nat) (a : Arr R) : Prop :=
  length a = n /\ Forall (fun r => length r = m) a.

Definition shape_is (n m : nat) (a : Arr R) : bool :=
  (length a =? n)%nat && forallb (fun r => (length r =? m)%nat) a.

(** Python's index normalisation for a sequence of length [len]. *)
Definition py_index (len : nat) (i : Z) : Result nat :=
  if 0 <=? i
  then if i <? Z.of_nat len then Ok (Z.to_nat i) else Raise IndexError
  else if 0 <=? Z.of_nat len + i then Ok (Z.to_nat (Z.of_nat len + i))
       else Raise IndexError.

Definition item {A : Type} (l : list A) (i : Z) : Result A :=
  do k <- py_index (length l) i;
  match l !! k with
  | Some x => Ok x
  | None => Raise IndexError
  end.

Definition setitem {A : Type} (l : list A) (i : Z) (x : A) : Result (list A) :=
  do k <- py_index (length l) i; Ok (<[k := x]> l).

(** [a[i, j]] *)
Definition at_ (a : Arr R) (i j : Z) : Result R :=
  do r <- item a i; item r j.

(** The cell at the natural-number position [(i, j)], and its update. *)
Definition cell (a : Arr R) (i j : nat) : option R :=
  match a !! i with
  | Some r => r !! j
  | None => None
  end.

Definition set_cell (a : Arr R) (i j : nat) (x : R) : Arr R :=
  match a !! i with
  | Some r => <[i := <[j := x]> r]> a
  | None => a
  end.

(** The four corners of an array of shape [(n, m)]. *)
Definition is_corner (n m i j : nat) : Prop :=
  (i = O \/ i = (n - 1)%nat) /\ (j = O \/ j = (m - 1)%nat).

(** The index next to the boundary index [i] of an axis of length [n]. *)
Definition beside (n i : nat) : nat :=
  if decide (i = O) then 1%nat else (n - 2)%nat.

(** [a[i, :]] *)
Definition get_x (a : Arr R) (i : Z) : Result (list R) := item a i.

(** [a[i, :] = row]; a row of length one is broadcast. *)
Definition set_x (a : Arr R) (i : Z) (row : list R) : Result (Arr R) :=
  do old <- item a i;
  if (length row =? length old)%nat then setitem a i row
  else match row with
       | [c] => setitem a i (replicate (length old) c)
       | _ => Raise ValueError
       end.

(** [a[i, :] = c] for a number [c] *)
Definition fill_x (a : Arr R) (i : Z) (c : R) : Result (Arr R) :=
  do old <- item a i; setitem a i (replicate (length old) c).

(** [a[:, j]] *)
Definition get_y (a : Arr R) (j : Z) : Result (list R) :=
  mapM (fun r => item r j) a.

Fixpoint set_y_rows (a : Arr R) (j : Z) (col : list R) : Result (Arr R) :=
  match a, col with
  | [], _ => Ok []
  | r :: a', c :: col' =>
      do r' <- setitem r j c; do rest <- set_y_rows a' j col'; Ok (r' :: rest)
  | _ :: _, [] => Raise ValueError
  end.

(** [a[:, j] = col]; a column of length one is broadcast. *)
Definition set_y (a : Arr R) (j : Z) (col : list R) : Result (Arr R) :=
  if (length col =? length a)%nat then set_y_rows a j col
  else match col with
       | [c] => set_y_rows a j (replicate (length a) c)
       | _ => Raise ValueError
       end.

(** [a[i, :] = a[j, :]] and [a[:, i] = a[:, j]] *)
Definition copy_x (a : Arr R) (i j : Z) : Result (Arr R) :=
  do c <- get_x a j; set_x a i c.

Definition copy_y (a : Arr R) (i j : Z) : Result (Arr R) :=
  do c <- get_y a j; set_y a i c.

(** [a[i, j]] and [b[i', j']] exist and hold the same value; two cells of
    one array that hold the same value; a cell that holds [c]. *)
Definition cells_agree (a : Arr R) (i j : Z) (b : Arr R) (i' j' : Z) : Prop :=
  exists c, at_ a i j = Ok c /\ at_ b i' j' = Ok c.

Definition same_cell (a : Arr R) (i j i' j' : Z) : Prop :=
  cells_agree a i j a i' j'.

Definition cell_is (a : Arr R) (i j : Z) (c : R) : Prop := at_ a i j = Ok c.

(** Where the value of the cell in row [y] comes from once
    [field[:, 0] = field[:, 1]] and [field[:, -1] = field[:, -2]] are
    done, in a field whose second axis has length [m]. *)
Definition tb_src (m y : nat) : nat :=
  if decide (y = m - 1)%nat
  then (if decide (m - 2 = 0)%nat then 1%nat else (m - 2)%nat)
  else if decide (y = 0)%nat then 1%nat else y.

(** [l[1:-1]] *)
Definition inner {A : Type} (l : list A) : list A := removelast (tail l).

(** [a[1:-1, :]], [a[:, 1:-1]] and [a[1:-1, 1:-1]] *)
Definition inner_x (a : Arr R) : Arr R := inner a.
Definition inner_y (a : Arr R) : Arr R := map inner a.
Definition interior (a : Arr R) : Arr R := inner_y (inner_x a).

(** *** Elementwise arithmetic with broadcasting *)

Definition bc_row (f : R -> R -> R) (r1 r2 : list R) : Result (list R) :=
  if (length r1 =? length r2)%nat then Ok (zip_with f r1 r2)
  else match r1, r2 with
       | [c], _ => Ok (map (f c) r2)
       | _, [c] => Ok (map (fun x => f x c) r1)
       | _, _ => Raise ValueError
       end.

Fixpoint zipM (f : list R -> list R -> Result (list R)) (a b : Arr R) : Result (Arr R) :=
  match a, b with
  | r1 :: a', r2 :: b' => do r <- f r1 r2; do rest <- zipM f a' b'; Ok (r :: rest)
  | _, _ => Ok []
  end.

(** [a (op) b] for arrays [a] and [b] *)
Definition binop (f : R -> R -> R) (a b : Arr R) : Result (Arr R) :=
  if (length a =? length b)%nat then zipM (bc_row f) a b
  else match a, b with
       | [r], _ => mapM (fun r2 => bc_row f r r2) b
       | _, [r] => mapM (fun r1 => bc_row f r1 r) a
       | _, _ => Raise ValueError
       end.

Definition same_shape (a b : Arr R) : bool :=
  (length a =? length b)%nat &&
  forallb (fun p => (length (fst p) =? length (snd p))%nat) (zip a b).

(** [a (op)= b]: the result must fit the array that is updated. *)
Definition iop (f : R -> R -> R) (a b : Arr R) : Result (Arr R) :=
  do c <- binop f a b;
  if same_shape c a then Ok c else Raise ValueError.

Definition add := binop fadd.
Definition sub := binop fsub.
Definition mul := binop fmul.
Definition iadd := iop fadd.
Definition isub := iop fsub.

(** [-a], [c*a], [c + a], [a**2] and [np.zeros_like(a)] *)
Definition neg (a : Arr R) : Arr R := map (map fneg) a.
Definition smul (c : R) (a : Arr R) : Arr R := map (map (fmul c)) a.
Definition sadd (c : R) (a : Arr R) : Arr R := map (map (fadd c)) a.
Definition square (a : Arr R) : Arr R := map (map (fun x => fmul x x)) a.
Definition zeros_like (a : Arr R) : Arr R := map (map (fun _ => fzero)) a.

(** *** Slice assignment *)

(** [row[lo:hi] = vals] on one row, [lo] and [hi] already normalised;
    a single value is broadcast over the slice. *)
Definition assign_slice (row : list R) (lo hi : nat) (vals : list R)
  : Result (list R) :=
  let len := (hi - lo)%nat in
  if (length vals =? len)%nat
  then Ok (take lo row ++ vals ++ drop hi row)
  else match vals with
       | [c] => Ok (take lo row ++ replicate len c ++ drop hi row)
       | _ => Raise ValueError
       end.

(** [a[:, :k] = vals[np.newaxis, :]] for [k >= 0] *)
Definition assign_first_cols (a : Arr R) (k : nat) (vals : list R) : Result (Arr R) :=
  mapM (fun row => assign_slice row 0 (k `min` length row) vals) a.

(** [a[:, -k:] = vals[np.newaxis, :]] for [k >= 0]; [-0] is [0], so for
    [k = 0] the slice is the whole row. *)
Definition assign_last_cols (a : Arr R) (k : nat) (vals : list R) : Result (Arr R) :=
  mapM (fun row =>
          let lo := match k with O => O | _ => (length row - k)%nat end in
          assign_slice row lo (length row) vals) a.

(** Broadcasting [v] to the shape [(n, m)] *)
Definition bc_len (m : nat) (r : list R) : Result (list R) :=
  if (length r =? m)%nat then Ok r
  else match r with
       | [c] => Ok (replicate m c)
       | _ => Raise ValueError
       end.

Definition broadcast_to (n m : nat) (v : Arr R) : Result (Arr R) :=
  do rows <- mapM (bc_len m) v;
  if (length rows =? n)%nat then Ok rows
  else match rows with
       | [r] => Ok (replicate n r)
       | _ => Raise ValueError
       end.

(** The list [l] with everything between its first and last element
    replaced by [mid]. *)
Definition put_inner {A : Type} (l : list A) (mid : list A) : list A :=
  match l with
  | [] => []
  | x :: t => x :: mid ++ drop (length t - 1) t
  end.

Definition ncols (a : Arr R) : nat :=
  match a with
  | r :: _ => length r
  | [] => O
  end.

(** [a[1:-1, 1:-1] = v] *)
Definition set_interior (a : Arr R) (v : Arr R) : Result (Arr R) :=
  do vb <- broadcast_to (length a - 2) (ncols a - 2) v;
  Ok (put_inner a (zip_with put_inner (inner a) vb)).

End Arrays.
End Np.

Import Np.

(** ** The collaborators *)

(** The grid's geometry, as passed to [ArakawaCGrid.__init__]. *)
Record Geom (R : Type) : Type := {
  g_nx : nat;
  g_ny : nat;
  g_Lx : R;
  g_Ly : R
}.
Arguments g_nx {R} _.
Arguments g_ny {R} _.
Arguments g_Lx {R} _.
Arguments g_Ly {R} _.

(** The grid collaborator ([arakawac.ArakawaCGrid]) is not part of the
    sources that are modelled here; its operators are the methods of this
    interface.  [uvatuv] and [divergence] read the padded velocities,
    [coord_uy] and [coord_vy] are the attributes [uy] and [vy] with the
    leading axis of length one dropped, and [exp_neg_linspace n] stands for
    [np.exp(-np.linspace(0, 5, n))]. *)
Class Grid (R : Type) {SR : Scalar R} := {
  diffx : Geom R -> Arr R -> Arr R;
  diffy : Geom R -> Arr R -> Arr R;
  x_average : Geom R -> Arr R -> Arr R;
  y_average : Geom R -> Arr R -> Arr R;
  del2 : Geom R -> Arr R -> Arr R;
  uvatuv : Geom R -> Arr R -> Arr R -> Arr R * Arr R;
  divergence : Geom R -> Arr R -> Arr R -> Arr R;
  coord_uy : Geom R -> list R;
  coord_vy : Geom R -> list R;
  _fix_boundary_corners : Arr R -> Arr R;
  exp_neg_linspace : nat -> list R
}.

(** The multistep integrator ([timesteppers.adamsbashforthgen]) is not part
    of the sources either.  [ab_increment dt hs] is the increment computed
    from the tendencies [hs], the newest first, and [ab_keep] bounds the
    history that is retained. *)
Class Integrator (R : Type) {SR : Scalar R} := {
  ab_increment : R -> list (Arr R) -> Result (Arr R);
  ab_keep : nat
}.

Module SW.
Section Model.
Context {R : Type} {SR : Scalar R} {GR : Grid R} {IR : Integrator R}.

Definition Triple : Type := (Arr R * Arr R * Arr R)%type.

(** A generator made by [adamsbashforthgen]: running with its history, or
    finished because its body raised. *)
Inductive Stepper (T : Type) : Type :=
  | Running (hist : list T)
  | Finished.
Arguments Running {T} hist.
Arguments Finished {T}.

(** What a forcing or a tracer's [rhs] can read from the model: the padded
    fields, every tracer's padded field, the clock and the step count. *)
Record View : Type := {
  vw_u : Arr R;
  vw_v : Arr R;
  vw_phi : Arr R;
  vw_tracers : list (string * Arr R);
  vw_t : R;
  vw_tc : nat
}.

(** The [rhs] argument of [add_tracer]: a constant (a number is the array
    [[c]]) or a callable. *)
Inductive RhsSpec : Type :=
  | RhsConst (c : Arr R)
  | RhsFun (f : View -> Result (Arr R)).

(** An entry of [_tracers]: the pair (state, stepper) and what the
    stepper's closure [_rhs] captured. *)
Record Tracer : Type := {
  tr_state : Arr R;
  tr_stepper : Stepper (Arr R);
  tr_rhs : RhsSpec;
  tr_kappa : R;
  tr_apply_damping : bool
}.

Record Model : Type := {
  geom : Geom R;
  f0 : R;
  beta : R;
  nu : R;
  nu_phi : R;
  r : R;
  sponge_ny : nat;
  sponge : list R;
  dt : R;
  tc : nat;
  t : R;
  g : R;
  H : R;
  _u : Arr R;
  _v : Arr R;
  _phi : Arr R;
  _stepper : Stepper Triple;
  _forcings : list (View -> Result Triple);
  _tracers : list (string * Tracer)
}.

Definition nx (m : Model) : nat := g_nx (geom m).
Definition ny (m : Model) : nat := g_ny (geom m).
Definition uy (m : Model) : Arr R := [coord_uy (geom m)].
Definition vy (m : Model) : Arr R := [coord_vy (geom m)].

(** The properties [u], [v], [phi] and [state] of the grid. *)
Definition u (m : Model) : Arr R := interior (_u m).
Definition v (m : Model) : Arr R := interior (_v m).
Definition phi (m : Model) : Arr R := interior (_phi m).
Definition state (m : Model) : Triple := (u m, v m, phi m).

Definition view (m : Model) : View :=
  {| vw_u := _u m; vw_v := _v m; vw_phi := _phi m;
     vw_tracers := map (fun p => (fst p, tr_state (snd p))) (_tracers m);
     vw_t := t m; vw_tc := tc m |}.

(** *** Dictionaries that keep insertion order *)

Fixpoint dict_get {V : Type} (d : list (string * V)) (k : string) : Result V :=
  match d with
  | [] => Raise KeyError
  | (k', x) :: d' => if String.eqb k k' then Ok x else dict_get d' k
  end.

(** [d[k] = x]: an existing key keeps its place. *)
Fixpoint dict_set {V : Type} (d : list (string * V)) (k : string) (x : V)
  : list (string * V) :=
  match d with
  | [] => [(k, x)]
  | (k', y) :: d' =>
      if String.eqb k k' then (k, x) :: d' else (k', y) :: dict_set d' k x
  end.

(** *** Arithmetic on a state-shaped triple *)

Definition triple_op (op : Arr R -> Arr R -> Result (Arr R)) (a b : Triple)
  : Result Triple :=
  let '(a1, a2, a3) := a in
  let '(b1, b2, b3) := b in
  do c1 <- op a1 b1; do c2 <- op a2 b2; do c3 <- op a3 b3; Ok (c1, c2, c3).

Definition triple_zeros_like (a : Triple) : Triple :=
  let '(a1, a2, a3) := a in (zeros_like a1, zeros_like a2, zeros_like a3).

(** *** The integrator *)

(** Modelled from the spec: the Integrator Collaborator, "a stateful,
    restartable sequence; each successive request yields one increment
    array shaped like the tendency's output, computed from an internally
    retained history of past tendency evaluations".  [adamsbashforthgen]
    itself is missing from the sources.  A request evaluates the tendency
    once; an exception leaves the generator finished, and a finished
    generator raises [StopIteration]. *)
Definition next_with {T : Type} (incr : list T -> Result T)
    (tendency : Result T) (s : Stepper T) : Result T * Stepper T :=
  match s with
  | Finished => (Raise StopIteration, Finished)
  | Running hist =>
      match tendency with
      | Raise e => (Raise e, Finished)
      | Ok dx =>
          match incr (dx :: hist) with
          | Ok val => (Ok val, Running (take ab_keep (dx :: hist)))
          | Raise e => (Raise e, Finished)
          end
      end
  end.

Definition fst3 (x : Triple) : Arr R := fst (fst x).
Definition snd3 (x : Triple) : Arr R := snd (fst x).
Definition thd3 (x : Triple) : Arr R := snd x.

(** The integrator's arithmetic acts on each field of a state-shaped
    tendency. *)
Definition ab_increment3 (h : R) (hs : list Triple) : Result Triple :=
  do a <- ab_increment h (map fst3 hs);
  do b <- ab_increment h (map snd3 hs);
  do c <- ab_increment h (map thd3 hs);
  Ok (a, b, c).

(** *** Sponge damping ([damping] is the same in both files) *)

Definition damping (m : Model) (var : Arr R) : Result (Arr R) :=
  let var_sponge := zeros_like var in
  do var_sponge <- assign_first_cols var_sponge (sponge_ny m) (sponge m);
  do var_sponge <- assign_last_cols var_sponge (sponge_ny m) (reverse (sponge m));
  mul (smul (r m) var_sponge) var.


(** *** Updating the model's attributes *)

Definition with_fields (m : Model) (a b c : Arr R) : Model :=
  {| geom := geom m; f0 := f0 m; beta := beta m; nu := nu m;
     nu_phi := nu_phi m; r := r m; sponge_ny := sponge_ny m;
     sponge := sponge m; dt := dt m; tc := tc m; t := t m; g := g m;
     H := H m; _u := a; _v := b; _phi := c; _stepper := _stepper m;
     _forcings := _forcings m; _tracers := _tracers m |}.

Definition with_stepper (m : Model) (s : Stepper Triple) : Model :=
  {| geom := geom m; f0 := f0 m; beta := beta m; nu := nu m;
     nu_phi := nu_phi m; r := r m; sponge_ny := sponge_ny m;
     sponge := sponge m; dt := dt m; tc := tc m; t := t m; g := g m;
     H := H m; _u := _u m; _v := _v m; _phi := _phi m; _stepper := s;
     _forcings := _forcings m; _tracers := _tracers m |}.

Definition with_forcings (m : Model) (fs : list (View -> Result Triple))
  : Model :=
  {| geom := geom m; f0 := f0 m; beta := beta m; nu := nu m;
     nu_phi := nu_phi m; r := r m; sponge_ny := sponge_ny m;
     sponge := sponge m; dt := dt m; tc := tc m; t := t m; g := g m;
     H := H m; _u := _u m; _v := _v m; _phi := _phi m;
     _stepper := _stepper m; _forcings := fs; _tracers := _tracers m |}.

Definition with_tracers (m : Model) (ts : list (string * Tracer)) : Model :=
  {| geom := geom m; f0 := f0 m; beta := beta m; nu := nu m;
     nu_phi := nu_phi m; r := r m; sponge_ny := sponge_ny m;
     sponge := sponge m; dt := dt m; tc := tc m; t := t m; g := g m;
     H := H m; _u := _u m; _v := _v m; _phi := _phi m;
     _stepper := _stepper m; _forcings := _forcings m; _tracers := ts |}.

Definition with_clock (m : Model) (t' : R) (tc' : nat) : Model :=
  {| geom := geom m; f0 := f0 m; beta := beta m; nu := nu m;
     nu_phi := nu_phi m; r := r m; sponge_ny := sponge_ny m;
     sponge := sponge m; dt := dt m; tc := tc'; t := t'; g := g m;
     H := H m; _u := _u m; _v := _v m; _phi := _phi m;
     _stepper := _stepper m; _forcings := _forcings m;
     _tracers := _tracers m |}.

Definition with_state (tr : Tracer) (a : Arr R) : Tracer :=
  {| tr_state := a; tr_stepper := tr_stepper tr; tr_rhs := tr_rhs tr;
     tr_kappa := tr_kappa tr; tr_apply_damping := tr_apply_damping tr |}.

Definition with_tr_stepper (tr : Tracer) (s : Stepper (Arr R)) : Tracer :=
  {| tr_state := tr_state tr; tr_stepper := s; tr_rhs := tr_rhs tr;
     tr_kappa := tr_kappa tr; tr_apply_damping := tr_apply_damping tr |}.

(** *** Methods that mutate the model *)

(** A method returns its outcome and the model as it leaves it: what was
    written before an exception stays written. *)
Definition M (A : Type) : Type := Model -> Result A * Model.

Definition ret {A : Type} (a : A) : M A := fun m => (Ok a, m).

Definition bindM {A B : Type} (c : M A) (k : A -> M B) : M B :=
  fun m =>
    match c m with
    | (Ok a, m') => k a m'
    | (Raise e, m') => (Raise e, m')
    end.

(** An expression evaluated against the live model. *)
Definition eval {A : Type} (f : Model -> Result A) : M A :=
  fun m => (f m, m).

Definition modify (f : Model -> Model) : M unit := fun m => (Ok tt, f m).

End Model.
Arguments Triple R : clear implicits.
Arguments View R : clear implicits.
Arguments RhsSpec R : clear implicits.
Arguments Tracer R : clear implicits.
Arguments Model R : clear implicits.
Arguments M R : clear implicits.
Arguments Running {T} hist.
Arguments Finished {T}.

Notation "'run' x <- c ; k" := (bindM c (fun x => k))
  (at level 10, x name, c at level 100, k at level 200).

Section Methods.
Context {R : Type} {SR : Scalar R} {GR : Grid R} {IR : Integrator R}.

Fixpoint forM {A B : Type} (l : list A) (f : A -> M R B) : M R (list B) :=
  match l with
  | [] => ret []
  | a :: l' => run b <- f a; run bs <- forM l' f; ret (b :: bs)
  end.

Fixpoint forM_ {A : Type} (l : list A) (f : A -> M R unit) : M R unit :=
  match l with
  | [] => ret tt
  | a :: l' => run _ <- f a; forM_ l' f
  end.

(** Modelled from the spec: the Grid Collaborator "owns field storage with
    boundary padding": the along-x velocity has one more column than the
    height and the transverse velocity one more row, and each field is
    padded by one cell on every side.  [ArakawaCGrid.__init__] is missing
    from the sources. *)
Definition grid_u (ge : Geom R) : Arr R := zeros (g_nx ge + 3) (g_ny ge + 2).
Definition grid_v (ge : Geom R) : Arr R := zeros (g_nx ge + 2) (g_ny ge + 3).
Definition grid_phi (ge : Geom R) : Arr R := zeros (g_nx ge + 2) (g_ny ge + 2).

(** Modelled from the spec: the grid's [state] setter writes the three
    unpadded views, [self.u[:] = u] and so on. *)
Definition set_state (value : Triple R) : M R unit :=
  fun m =>
    let '(a, b, c) := value in
    match set_interior (_u m) a with
    | Raise e => (Raise e, m)
    | Ok u' =>
        match set_interior (_v m) b with
        | Raise e => (Raise e, with_fields m u' (_v m) (_phi m))
        | Ok v' =>
            match set_interior (_phi m) c with
            | Raise e => (Raise e, with_fields m u' v' (_phi m))
            | Ok phi' => (Ok tt, with_fields m u' v' phi')
            end
        end
    end.

(** [add_forcing] *)
Definition add_forcing (fn : View R -> Result (Triple R)) : M R unit :=
  modify (fun m => with_forcings m (_forcings m ++ [fn])).

(** [add_tracer], the same text in both files.  The closure [_rhs] is kept
    as the data it captures; [tracer_rhs] below is its body. *)
Definition add_tracer (name : string) (initial_state : Arr R)
    (rhs : RhsSpec R) (kappa : R) (apply_damping : bool) : M R unit :=
  fun m =>
    let state0 := zeros_like (_phi m) in
    match set_interior state0 initial_state with
    | Raise e => (Raise e, m)
    | Ok state1 =>
        let stepper := Running [] in
        let tr := {| tr_state := state1; tr_stepper := stepper;
                     tr_rhs := rhs; tr_kappa := kappa;
                     tr_apply_damping := apply_damping |} in
        (Ok tt, with_tracers m (dict_set (_tracers m) name tr))
    end.

(** [tracer] and [_tracer] *)
Definition tracer (m : Model R) (name : string) : Result (Arr R) :=
  do tr <- dict_get (_tracers m) name; Ok (interior (tr_state tr)).

Definition _tracer (m : Model R) (name : string) : Result (Arr R) :=
  do tr <- dict_get (_tracers m) name; Ok (tr_state tr).

(** The body of the closure [_rhs] made by [add_tracer] for the entry [tr]
    registered as [name]; [conservation] is [_tracer_dynamics_terms] in
    linear.py and [tracer_conservation] in nonlinear.py. *)
Definition tracer_rhs (conservation : Model R -> string -> Result (Arr R))
    (name : string) (tr : Tracer R) (m : Model R) : Result (Arr R) :=
  do d <- conservation m name;
  let orhs := neg d in
  do orhs <- (if ftruthy (tr_kappa tr)
              then iadd orhs (smul (tr_kappa tr) (del2 (geom m) (tr_state tr)))
              else Ok orhs);
  do orhs <- (if tr_apply_damping tr
              then do dmp <- damping m (interior (tr_state tr));
                   iadd orhs (neg dmp)
              else Ok orhs);
  match tr_rhs tr with
  | RhsFun f => do x <- f (view m); iadd orhs x
  | RhsConst c => iadd orhs c
  end.

(** [next(self._stepper)] *)
Definition next_state (rhs : Model R -> Result (Triple R)) : M R (Triple R) :=
  fun m =>
    let '(res, s') :=
      next_with (ab_increment3 (dt m)) (rhs m) (_stepper m) in
    (res, with_stepper m s').

(** [next(stepper)] for the stepper of the entry [name] *)
Definition next_tracer (conservation : Model R -> string -> Result (Arr R))
    (name : string) : M R (Arr R) :=
  fun m =>
    match dict_get (_tracers m) name with
    | Raise e => (Raise e, m)
    | Ok tr =>
        let '(res, s') :=
          next_with (ab_increment (dt m)) (tracer_rhs conservation name tr m)
            (tr_stepper tr) in
        (res, with_tracers m (dict_set (_tracers m) name (with_tr_stepper tr s')))
    end.

(** [field[1:-1, 1:-1] = nfield] for the field of the entry [name] *)
Definition set_tracer_interior (name : string) (nfield : Arr R) : M R unit :=
  fun m =>
    match dict_get (_tracers m) name with
    | Raise e => (Raise e, m)
    | Ok tr =>
        match set_interior (tr_state tr) nfield with
        | Raise e => (Raise e, m)
        | Ok a =>
            (Ok tt, with_tracers m (dict_set (_tracers m) name (with_state tr a)))
        end
    end.

(** The boundary mixin of a class: the two operations on padded fields. *)
Record Boundaries : Type := {
  bc_state : Arr R * Arr R * Arr R -> Result (Arr R * Arr R * Arr R);
  bc_field : Arr R -> Result (Arr R)
}.

(** [self._apply_boundary_conditions()] *)
Definition _apply_boundary_conditions (B : Boundaries) : M R unit :=
  fun m =>
    match bc_state B (_u m, _v m, _phi m) with
    | Raise e => (Raise e, m)
    | Ok (a, b, c) => (Ok tt, with_fields m a b c)
    end.

(** [self._apply_boundary_conditions_to(field)] for the entry [name] *)
Definition _apply_boundary_conditions_to (B : Boundaries) (name : string)
  : M R unit :=
  fun m =>
    match dict_get (_tracers m) name with
    | Raise e => (Raise e, m)
    | Ok tr =>
        match bc_field B (tr_state tr) with
        | Raise e => (Raise e, m)
        | Ok a =>
            (Ok tt, with_tracers m (dict_set (_tracers m) name (with_state tr a)))
        end
    end.

Definition keys (m : Model R) : list string := map fst (_tracers m).

End Methods.
Arguments Boundaries R : clear implicits.
End SW.

Import SW.

(** ** Dynamics shared by the two files *)

Section Dynamics.
Context {R : Type} {SR : Scalar R} {GR : Grid R} {IR : Integrator R}.

(** The tendencies of the u, v and phi equations as
    [NonLinShallowWater.rhs] (lines 133-171) and
    [ShallowWater._dynamics_terms] compute them; the two texts differ in
    the coefficient of the phi diffusion only ([nu] and [nu_phi]). *)
Definition nonlinear_terms (kphi : R) (m : Model R) : Result (Triple R) :=
  let ge := geom m in
  let '(u_at_v, v_at_u) := uvatuv ge (_u m) (_v m) in
  let ubarx := inner_y (x_average ge (_u m)) in
  let ubary := inner_x (y_average ge (_u m)) in
  let vbary := inner_x (y_average ge (_v m)) in
  let vbarx := inner_y (x_average ge (_v m)) in
  (* the height equation *)
  let phi_at_u := inner_y (x_average ge (_phi m)) in
  let phi_at_v := inner_x (y_average ge (_phi m)) in
  do fx <- mul phi_at_u (u m);
  do fy <- mul phi_at_v (v m);
  do phi_rhs <- sub (neg (diffx ge fx)) (diffy ge fy);
  do phi_rhs <- iadd phi_rhs (smul kphi (del2 ge (_phi m)));
  (* the u equation *)
  let dhdx := inner_y (diffx ge (_phi m)) in
  let ududx := smul fhalf (diffx ge (square ubarx)) in
  do vdudy <- mul v_at_u (diffy ge ubary);
  do cor <- mul (sadd (f0 m) (smul (beta m) (uy m))) v_at_u;
  do u_rhs <- add (neg dhdx) cor;
  do u_rhs <- iadd u_rhs (smul (nu m) (del2 ge (_u m)));
  do adv <- sub (neg ududx) vdudy;
  do u_rhs <- iadd u_rhs adv;
  do dmp <- damping m (u m);
  do u_rhs <- isub u_rhs dmp;
  (* the v equation *)
  let dhdy := inner_x (diffy ge (_phi m)) in
  do udvdx <- mul u_at_v (diffx ge vbarx);
  let vdvdy := smul fhalf (diffy ge (square vbary)) in
  do cor <- mul (sadd (f0 m) (smul (beta m) (vy m))) u_at_v;
  do v_rhs <- sub (neg dhdy) cor;
  do v_rhs <- iadd v_rhs (smul (nu m) (del2 ge (_v m)));
  do adv <- sub (neg udvdx) vdvdy;
  do v_rhs <- iadd v_rhs adv;
  do dmp <- damping m (v m);
  do v_rhs <- isub v_rhs dmp;
  Ok (u_rhs, v_rhs, phi_rhs).

(** [for fn in self._forcings: dstate += fn(self)].  The three tendencies
    have three shapes, so that [dstate] is an array of three arrays: [+=]
    on it adds field by field, each sum by numpy's broadcasting, and stores
    the sum without comparing its shape with the field it replaces. *)
Fixpoint add_forcings (fs : list (View R -> Result (Triple R)))
    (m : Model R) (dstate : Triple R) : Result (Triple R) :=
  match fs with
  | [] => Ok dstate
  | fn :: fs' =>
      do d <- fn (view m);
      do dstate <- triple_op add dstate d;
      add_forcings fs' m dstate
  end.

(** The x- and y-flux of a cell-centred quantity [q]:
    [diffx(q_at_u * self.u)] and [diffy(q_at_v * self.v)]. *)
Definition flux_x (m : Model R) (q : Arr R) : Result (Arr R) :=
  let q_at_u := inner_y (x_average (geom m) q) in
  do f <- mul q_at_u (u m); Ok (diffx (geom m) f).

Definition flux_y (m : Model R) (q : Arr R) : Result (Arr R) :=
  let q_at_v := inner_x (y_average (geom m) q) in
  do f <- mul q_at_v (v m); Ok (diffy (geom m) f).

End Dynamics.

(** ** linear.py *)

Module Linear.
Section Linear.
Context {R : Type} {SR : Scalar R} {GR : Grid R} {IR : Integrator R}.

(** [ShallowWater.__init__]; [g] and [H] are attributes of
    [LinearShallowWater] only and are left at zero here. *)
Definition init (nx ny : nat) (Lx Ly f0 beta nu : R) (nu_phi : option R)
    (r dt : R) : Model R :=
  let ge := {| g_nx := nx; g_ny := ny; g_Lx := Lx; g_Ly := Ly |} in
  {| geom := ge; SW.f0 := f0; SW.beta := beta; SW.nu := nu;
     SW.nu_phi := match nu_phi with None => nu | Some x => x end;
     SW.r := r; sponge_ny := (ny / 7)%nat;
     sponge := exp_neg_linspace (ny / 7)%nat;
     SW.dt := dt; tc := O; t := fzero; g := fzero; H := fzero;
     _u := grid_u ge; _v := grid_v ge; _phi := grid_phi ge;
     _stepper := Running []; _forcings := []; _tracers := [] |}.

(** [LinearShallowWater.__init__] *)
Definition init_linear (nx ny : nat) (Lx Ly f0 beta g H nu : R)
    (nu_phi : option R) (r dt : R) : Model R :=
  let m := init nx ny Lx Ly f0 beta nu nu_phi r dt in
  {| geom := geom m; SW.f0 := SW.f0 m; SW.beta := SW.beta m;
     SW.nu := SW.nu m; SW.nu_phi := SW.nu_phi m; SW.r := SW.r m;
     sponge_ny := sponge_ny m; sponge := sponge m; SW.dt := SW.dt m;
     tc := tc m; t := t m; SW.g := g; SW.H := H;
     _u := _u m; _v := _v m; _phi := _phi m; _stepper := _stepper m;
     _forcings := _forcings m; _tracers := _tracers m |}.

(** [ShallowWater.rhs]: the hook, zero unless a subclass overrides it. *)
Definition rhs (m : Model R) : Result (Triple R) :=
  Ok (triple_zeros_like (state m)).

(** [ShallowWater._dynamics_terms] *)
Definition _dynamics_terms (m : Model R) : Result (Triple R) :=
  nonlinear_terms (nu_phi m) m.

(** [LinearShallowWater._dynamics_terms]; [h] is [phi]. *)
Definition _dynamics_terms_linear (m : Model R) : Result (Triple R) :=
  let ge := geom m in
  let '(uu, vv) := uvatuv ge (_u m) (_v m) in
  (* the height equation *)
  do h_rhs <- add (smul (fneg (H m)) (divergence ge (_u m) (_v m)))
                  (smul (nu_phi m) (del2 ge (_phi m)));
  do dmp <- damping m (phi m);
  do h_rhs <- sub h_rhs dmp;
  (* the u equation *)
  let dhdx := inner_y (diffx ge (_phi m)) in
  do cor <- mul (sadd (f0 m) (smul (beta m) (uy m))) vv;
  do u_rhs <- sub cor (smul (g m) dhdx);
  do u_rhs <- add u_rhs (smul (nu m) (del2 ge (_u m)));
  do dmp <- damping m (u m);
  do u_rhs <- sub u_rhs dmp;
  (* the v equation *)
  let dhdy := inner_x (diffy ge (_phi m)) in
  do cor <- mul (neg (sadd (f0 m) (smul (beta m) (vy m)))) uu;
  do v_rhs <- sub cor (smul (g m) dhdy);
  do v_rhs <- add v_rhs (smul (nu m) (del2 ge (_v m)));
  do dmp <- damping m (v m);
  do v_rhs <- sub v_rhs dmp;
  Ok (u_rhs, v_rhs, h_rhs).

(** [ShallowWater._rhs]; [dyn] is the class's [_dynamics_terms]. *)
Definition _rhs (dyn : Model R -> Result (Triple R)) (m : Model R)
  : Result (Triple R) :=
  let dstate := triple_zeros_like (state m) in
  do dstate <- add_forcings (_forcings m) m dstate;
  do d <- dyn m;
  do h <- rhs m;
  do s <- triple_op add d h;
  triple_op add s dstate.

(** [ShallowWater._tracer_dynamics_terms] *)
Definition _tracer_dynamics_terms (m : Model R) (name : string)
  : Result (Arr R) :=
  do q <- _tracer m name;
  do fx <- flux_x m q;
  do fy <- flux_y m q;
  add fx fy.

(** [ShallowWater.step]; the boundary operations [B] come from the mixin
    of the class ([PeriodicBoundaries] or [WallBoundaries]). *)
Definition step (dyn : Model R -> Result (Triple R)) (B : Boundaries R)
  : M R unit :=
  run _ <- _apply_boundary_conditions B;
  run names <- eval (fun m => Ok (keys m));
  run _ <- forM_ names (_apply_boundary_conditions_to B);
  run inc <- next_state (_rhs dyn);
  run newstate <- eval (fun m => triple_op add (state m) inc);
  run newfields <-
    forM names (fun name =>
      run inc <- next_tracer _tracer_dynamics_terms name;
      eval (fun m => do q <- tracer m name; add q inc));
  run _ <- forM_ (zip names newfields)
             (fun p => set_tracer_interior (fst p) (snd p));
  run _ <- set_state newstate;
  modify (fun m => with_clock m (fadd (t m) (dt m)) (S (tc m))).

End Linear.
End Linear.

(** ** nonlinear.py *)

Module NonLinear.
Section NonLinear.
Context {R : Type} {SR : Scalar R} {GR : Grid R} {IR : Integrator R}.

(** [NonLinShallowWater.__init__]; the class has no [nu_phi], [g] or [H]. *)
Definition init (nx ny : nat) (Lx Ly f0 beta nu r dt : R) : Model R :=
  let ge := {| g_nx := nx; g_ny := ny; g_Lx := Lx; g_Ly := Ly |} in
  {| geom := ge; SW.f0 := f0; SW.beta := beta; SW.nu := nu; nu_phi := nu;
     SW.r := r; sponge_ny := (ny / 7)%nat;
     sponge := exp_neg_linspace (ny / 7)%nat;
     SW.dt := dt; tc := O; t := fzero; g := fzero; H := fzero;
     _u := grid_u ge; _v := grid_v ge; _phi := grid_phi ge;
     _stepper := Running []; _forcings := []; _tracers := [] |}.

(** [NonLinShallowWater.tracer_conservation] *)
Definition tracer_conservation (m : Model R) (name : string)
  : Result (Arr R) :=
  do q <- _tracer m name;
  do fx <- flux_x m q;
  do fy <- flux_y m q;
  sub fx fy.

(** [NonLinShallowWater.rhs] *)
Definition rhs (m : Model R) : Result (Triple R) :=
  do dstate <- nonlinear_terms (nu m) m;
  add_forcings (_forcings m) m dstate.

(** [NonLinShallowWater.step] *)
Definition step (B : Boundaries R) : M R unit :=
  run _ <- _apply_boundary_conditions B;
  run names <- eval (fun m => Ok (keys m));
  run _ <- forM_ names (_apply_boundary_conditions_to B);
  run inc <- next_state rhs;
  run newstate <- eval (fun m => triple_op add (state m) inc);
  run _ <- forM_ names (fun name =>
             run inc <- next_tracer tracer_conservation name;
             run nfield <- eval (fun m => do q <- tracer m name; add q inc);
             set_tracer_interior name nfield);
  run _ <- set_state newstate;
  modify (fun m => with_clock m (fadd (t m) (dt m)) (S (tc m))).

(** The loop that ends both [_apply_boundary_conditions]:
    [field[:, 0] = field[:, 1]], [field[:, -1] = field[:, -2]] and the
    corners. *)
Definition top_and_bottom (field : Arr R) : Result (Arr R) :=
  do field <- copy_y field 0 1;
  do field <- copy_y field (-1) (-2);
  Ok (_fix_boundary_corners field).

(** [PeriodicShallowWater._apply_boundary_conditions] *)
Definition periodic_state (s : Arr R * Arr R * Arr R)
  : Result (Arr R * Arr R * Arr R) :=
  let '(_u, _v, _phi) := s in
  do _u <- copy_x _u 0 (-3);
  do _u <- copy_x _u 1 (-2);
  do _u <- copy_x _u (-1) 2;
  do _v <- copy_x _v 0 (-2);
  do _v <- copy_x _v (-1) 1;
  do _phi <- copy_x _phi 0 (-2);
  do _phi <- copy_x _phi (-1) 1;
  do _u <- top_and_bottom _u;
  do _v <- top_and_bottom _v;
  do _phi <- top_and_bottom _phi;
  Ok (_u, _v, _phi).

(** [PeriodicShallowWater._apply_boundary_conditions_to] *)
Definition periodic_field (field : Arr R) : Result (Arr R) :=
  do field <- copy_x field 0 (-2);
  do field <- copy_x field (-1) 1;
  top_and_bottom field.

(** [WalledShallowWater._apply_boundary_conditions] *)
Definition walled_state (s : Arr R * Arr R * Arr R)
  : Result (Arr R * Arr R * Arr R) :=
  let '(_u, _v, _phi) := s in
  do _u <- fill_x _u 0 fzero;
  do _u <- fill_x _u 1 fzero;
  do _u <- fill_x _u (-1) fzero;
  do _u <- fill_x _u (-2) fzero;
  do _v <- copy_x _v 0 1;
  do _v <- copy_x _v (-1) (-2);
  do _phi <- copy_x _phi 0 1;
  do _phi <- copy_x _phi (-1) (-2);
  do _u <- top_and_bottom _u;
  do _v <- top_and_bottom _v;
  do _phi <- top_and_bottom _phi;
  Ok (_u, _v, _phi).

(** [WalledShallowWater._apply_boundary_conditions_to] *)
Definition walled_field (field : Arr R) : Result (Arr R) :=
  do field <- copy_x field 0 1;
  do field <- copy_x field (-1) (-2);
  top_and_bottom field.

Definition Periodic : Boundaries R :=
  {| bc_state := periodic_state; bc_field := periodic_field |}.

Definition Walled : Boundaries R :=
  {| bc_state := walled_state; bc_field := walled_field |}.

End NonLinear.
End NonLinear.

(** ** An instance for evaluation: integers, unit grid spacing *)

Module ZInst.

#[export] Instance scalar_Z : Scalar Z := {|
  fzero := 0; fadd := Z.add; fsub := Z.sub; fmul := Z.mul; fneg := Z.opp;
  fhalf := 1; ftruthy := fun x => negb (x =? 0)
|}.

(** Differences and sums of neighbours along one axis. *)
Definition pairs_with (f : Z -> Z -> Z) (l : list Z) : list Z :=
  zip_with f (tail l) l.

Definition along_x (f : Z -> Z -> Z) (a : Arr Z) : Arr Z :=
  zip_with (zip_with f) (tail a) a.

Definition along_y (f : Z -> Z -> Z) (a : Arr Z) : Arr Z :=
  map (pairs_with f) a.

Definition plus_arr (a b : Arr Z) : Arr Z := zip_with (zip_with Z.add) a b.

(** Each corner becomes the mean of its two neighbours on the edges. *)
Definition corner_fix (a : Arr Z) : Arr Z :=
  let n := length a in
  let m := ncols a in
  let val (i j : nat) : Z := default 0 (cell a i j) in
  let n1 := (n - 1)%nat in
  let n2 := (n - 2)%nat in
  let m1 := (m - 1)%nat in
  let m2 := (m - 2)%nat in
  let a := set_cell a O O ((val 1%nat O + val O 1%nat) / 2) in
  let a := set_cell a n1 O ((val n2 O + val n1 1%nat) / 2) in
  let a := set_cell a O m1 ((val 1%nat m1 + val O m2) / 2) in
  set_cell a n1 m1 ((val n1 m2 + val n2 m1) / 2).

#[export] Instance grid_Z : Grid Z := {|
  diffx := fun _ a => along_x Z.sub a;
  diffy := fun _ a => along_y Z.sub a;
  x_average := fun _ a => along_x Z.add a;
  y_average := fun _ a => along_y Z.add a;
  del2 := fun _ a =>
    plus_arr (inner_y (along_x Z.sub (along_x Z.sub a)))
             (inner_x (along_y Z.sub (along_y Z.sub a)));
  uvatuv := fun _ a b =>
    (along_y Z.add (inner_x (along_x Z.add a)),
     along_x Z.add (inner_y (along_y Z.add b)));
  divergence := fun _ a b =>
    plus_arr (along_x Z.sub (interior a)) (along_y Z.sub (interior b));
  coord_uy := fun ge => map Z.of_nat (seq 0 (g_ny ge));
  coord_vy := fun ge => map Z.of_nat (seq 0 (g_ny ge + 1));
  _fix_boundary_corners := corner_fix;
  exp_neg_linspace := fun n => map (fun k => Z.of_nat (n - k)) (seq 0 n)
|}.

(** Forward Euler: the increment is [dt] times the newest tendency. *)
#[export] Instance integrator_Z : Integrator Z := {|
  ab_increment := fun h hs =>
    match hs with
    | dx :: _ => Ok (smul h dx)
    | [] => Raise StopIteration
    end;
  ab_keep := 2
|}.

(** Padded fields of a grid with [nx = 2] and [ny = 1], and the along-x
    velocity of a grid with [nx = 1] and [ny = 1]. *)
Definition ex_u : Arr Z :=
  [[1; 2; 3]; [4; 5; 6]; [7; 8; 9]; [10; 11; 12]; [13; 14; 15]].
Definition ex_v : Arr Z :=
  [[1; 2; 3; 4]; [5; 6; 7; 8]; [9; 10; 11; 12]; [13; 14; 15; 16]].
Definition ex_phi : Arr Z :=
  [[1; 2; 3]; [4; 5; 6]; [7; 8; 9]; [10; 11; 12]].
Definition ex1_u : Arr Z :=
  [[1; 2; 3]; [4; 5; 6]; [7; 8; 9]; [10; 11; 12]].
Definition ex1_v : Arr Z :=
  [[1; 2; 3; 4]; [5; 6; 7; 8]; [9; 10; 11; 12]].
Definition ex1_phi : Arr Z :=
  [[1; 2; 3]; [4; 5; 6]; [7; 8; 9]].

(** A fresh nonlinear model on a grid with [nx = 2] and [ny = 1], and the
    same model with a tracer registered as q. *)
Definition ex_model : Model Z := NonLinear.init 2 1 10 10 0 0 1 1 1.
Definition ex_model_q : Model Z :=
  snd (add_tracer "q" [[1]; [2]] (RhsConst [[0]]) 0 true ex_model).

(** Fresh nonlinear models: one with [ny = 3] and a negative time step,
    and two with [ny = 7], the smallest grid whose sponge is not empty. *)
(** A model with a flow and a tracer q that has no diffusion, no damping
    and no source: its tendency is the advective part alone. *)
Definition ex_flow : Model Z :=
  with_fields
    (snd (add_tracer "q" [[1]; [2]] (RhsConst [[0]]) 0 false ex_model))
    ex_u ex_v ex_phi.

(** The tendency that the integrator of the tracer [name] is given, for
    the [conservation] method of either file. *)
Definition tracer_tendency
    (conservation : Model Z -> string -> Result (Arr Z)) (m : Model Z)
    (name : string) : Result (Arr Z) :=
  do tr <- dict_get (_tracers m) name; tracer_rhs conservation name tr m.

Definition ex_small : Model Z := NonLinear.init 2 3 10 10 0 0 1 1 (-1).
Definition ex_rest : Model Z := NonLinear.init 1 7 10 10 0 0 1 1 1.
Definition ex_neg_dt : Model Z := NonLinear.init 1 7 10 10 0 0 1 1 (-1).

(** A model with a uniform along-x velocity and a forcing that raises. *)
Definition ex_fault : Model Z :=
  with_forcings
    (with_fields ex_rest (replicate 4 (replicate 9 1)) (_v ex_rest)
       (_phi ex_rest))
    [fun _ => Raise (UserError 1)].

(** A model at rest with two tracers: a grows by one per unit of time, and
    the [rhs] of b reads the current value of a, as [model.tracer('a')]. *)
Definition read_a (vw : View Z) : Result (Arr Z) :=
  do a <- dict_get (vw_tracers vw) "a"; Ok (interior a).

Definition ex_two : Model Z :=
  snd (add_tracer "b" [[0; 0; 0; 0; 0; 0; 0]] (RhsFun read_a) 0 false
         (snd (add_tracer "a" [[1; 1; 1; 1; 1; 1; 1]] (RhsConst [[1]]) 0
                 false ex_rest))).

(** A two-step integrator: Euler for the first request, then the
    second-order Adams-Bashforth increment [dt * (3 f(n) - f(n-1)) / 2]. *)
Definition integrator_AB2 : Integrator Z := {|
  ab_increment := fun h hs =>
    match hs with
    | [] => Raise StopIteration
    | [dx] => Ok (smul h dx)
    | dx :: dx1 :: _ =>
        Ok (map (map (fun x => x / 2))
              (smul h (plus_arr (smul 3 dx) (neg dx1))))
    end;
  ab_keep := 2
|}.

(** A model that has moved and is brought back to zero: the height starts
    with one cell at 1, a step is taken, the state is assigned zeros and the
    boundary operation is applied. *)
Definition ex_bump : Triple Z :=
  (zeros 2 7, zeros 1 8, [[0; 0; 0; 1; 0; 0; 0]]).

Definition ex_moved : Model Z :=
  snd (NonLinear.step (IR:=integrator_AB2) NonLinear.Periodic
         (snd (set_state ex_bump (NonLinear.init 1 7 10 10 0 0 1 1 2)))).

Definition ex_stilled : Model Z :=
  snd (_apply_boundary_conditions NonLinear.Periodic
         (snd (set_state (zeros 2 7, zeros 1 8, zeros 1 7) ex_moved))).

End ZInst.

(** ** An instance with infinities and NaN *)

Module FInst.

(** Doubles as far as an infinite parameter needs them: the integers (on
    which the arithmetic of doubles is exact while they are small), the
    two infinities and NaN.  Rounding, overflow and the sign of zero are
    left out. *)
Inductive F : Type :=
  | Num (z : Z)
  | PInf
  | NInf
  | NaN.

Definition f_neg (a : F) : F :=
  match a with
  | Num x => Num (- x)
  | PInf => NInf
  | NInf => PInf
  | NaN => NaN
  end.

Definition f_add (a b : F) : F :=
  match a, b with
  | NaN, _ | _, NaN => NaN
  | PInf, NInf | NInf, PInf => NaN
  | PInf, _ | _, PInf => PInf
  | NInf, _ | _, NInf => NInf
  | Num x, Num y => Num (x + y)
  end.

(** An infinity times a number that is not zero, by the sign of the
    number; an infinity times zero is NaN. *)
Definition f_scale (inf : F) (x : Z) : F :=
  if x =? 0 then NaN else if 0 <? x then inf else f_neg inf.

Definition f_mul (a b : F) : F :=
  match a, b with
  | NaN, _ | _, NaN => NaN
  | Num x, Num y => Num (x * y)
  | Num x, PInf | PInf, Num x => f_scale PInf x
  | Num x, NInf | NInf, Num x => f_scale NInf x
  | PInf, PInf | NInf, NInf => PInf
  | PInf, NInf | NInf, PInf => NInf
  end.

Definition f_halve (a : F) : F :=
  match a with
  | Num x => Num (x / 2)
  | _ => a
  end.

(** As in the integer instance, [fhalf] is 1: it multiplies zeros and NaN
    only where it is used below. *)
#[export] Instance scalar_F : Scalar F := {|
  fzero := Num 0; fadd := f_add; fsub := fun a b => f_add a (f_neg b);
  fmul := f_mul; fneg := f_neg; fhalf := Num 1;
  ftruthy := fun a => match a with Num x => negb (x =? 0) | _ => true end
|}.

(** The operators of the integer instance, on these numbers. *)
Definition pairs_with_f (f : F -> F -> F) (l : list F) : list F :=
  zip_with f (tail l) l.

Definition along_x_f (f : F -> F -> F) (a : Arr F) : Arr F :=
  zip_with (zip_with f) (tail a) a.

Definition along_y_f (f : F -> F -> F) (a : Arr F) : Arr F :=
  map (pairs_with_f f) a.

Definition plus_arr_f (a b : Arr F) : Arr F := zip_with (zip_with f_add) a b.

Definition corner_fix_f (a : Arr F) : Arr F :=
  let n := length a in
  let m := ncols a in
  let val (i j : nat) : F := default (Num 0) (cell a i j) in
  let n1 := (n - 1)%nat in
  let n2 := (n - 2)%nat in
  let m1 := (m - 1)%nat in
  let m2 := (m - 2)%nat in
  let a := set_cell a O O (f_halve (f_add (val 1%nat O) (val O 1%nat))) in
  let a := set_cell a n1 O (f_halve (f_add (val n2 O) (val n1 1%nat))) in
  let a := set_cell a O m1 (f_halve (f_add (val 1%nat m1) (val O m2))) in
  set_cell a n1 m1 (f_halve (f_add (val n1 m2) (val n2 m1))).

#[export] Instance grid_F : Grid F := {|
  diffx := fun _ a => along_x_f fsub a;
  diffy := fun _ a => along_y_f fsub a;
  x_average := fun _ a => along_x_f f_add a;
  y_average := fun _ a => along_y_f f_add a;
  del2 := fun _ a =>
    plus_arr_f (inner_y (along_x_f fsub (along_x_f fsub a)))
             (inner_x (along_y_f fsub (along_y_f fsub a)));
  uvatuv := fun _ a b =>
    (along_y_f f_add (inner_x (along_x_f f_add a)),
     along_x_f f_add (inner_y (along_y_f f_add b)));
  divergence := fun _ a b =>
    plus_arr_f (along_x_f fsub (interior a)) (along_y_f fsub (interior b));
  coord_uy := fun ge => map (fun k => Num (Z.of_nat k)) (seq 0 (g_ny ge));
  coord_vy := fun ge => map (fun k => Num (Z.of_nat k)) (seq 0 (g_ny ge + 1));
  _fix_boundary_corners := corner_fix_f;
  exp_neg_linspace := fun n => map (fun k => Num (Z.of_nat (n - k))) (seq 0 n)
|}.

(** Forward Euler. *)
#[export] Instance integrator_F : Integrator F := {|
  ab_increment := fun h hs =>
    match hs with
    | dx :: _ => Ok (smul h dx)
    | [] => Raise StopIteration
    end;
  ab_keep := 2
|}.

(** A fresh nonlinear model with [nx = 1] and [ny = 7] whose viscosity
    [nu] is infinite. *)
Definition ex_inf : Model F :=
  NonLinear.init 1 7 (Num 10) (Num 10) (Num 0) (Num 0) PInf (Num 1) (Num 1).

End FInst.

(** ** What is assumed of the collaborators *)

(** [_fix_boundary_corners] keeps the shape of a field and writes its
    four corner cells only. *)
Class CornerLaws (R : Type) {SR : Scalar R} {GR : Grid R} : Prop := {
  corners_shape : forall (n m : nat) (a : Arr R),
    has_shape n m a -> has_shape n m (_fix_boundary_corners a);
  corners_frame : forall (n m : nat) (a : Arr R) (i j : nat),
    has_shape n m a -> ~ is_corner n m i j ->
    cell (_fix_boundary_corners a) i j = cell a i j
}.

(** Modelled from the spec: the boundary strategy "enforces edge/corner
    consistency on the state", with the "corners fixed after edges".  What
    [_fix_boundary_corners] computes is missing from the sources; all that
    is taken of it here is that a corner whose two-by-two block of cells
    holds one value holds that value afterwards. *)
Class CornerUniform (R : Type) {SR : Scalar R} {GR : Grid R} : Prop := {
  corners_uniform : forall (n m : nat) (a : Arr R) (i j : nat) (c : R),
    has_shape n m a -> (2 <= n)%nat -> (2 <= m)%nat -> is_corner n m i j ->
    (forall x y : nat, x = i \/ x = beside n i -> y = j \/ y = beside m j ->
       cell a x y = Some c) ->
    cell (_fix_boundary_corners a) i j = Some c
}.

(** Every grid operator maps a field of zeros to zeros, of the shape its
    staggering gives. *)
Class GridZeroLaws (R : Type) {SR : Scalar R} {GR : Grid R} : Prop := {
  diffx_zeros : forall ge (n m : nat), diffx ge (zeros (S n) m) = zeros n m;
  diffy_zeros : forall ge (n m : nat), diffy ge (zeros n (S m)) = zeros n m;
  x_average_zeros : forall ge (n m : nat),
    x_average ge (zeros (S n) m) = zeros n m;
  y_average_zeros : forall ge (n m : nat),
    y_average ge (zeros n (S m)) = zeros n m;
  del2_zeros : forall ge (n m : nat),
    del2 ge (zeros (S (S n)) (S (S m))) = zeros n m;
  uvatuv_zeros : forall ge,
    uvatuv ge (grid_u ge) (grid_v ge)
    = (zeros (g_nx ge) (g_ny ge + 1), zeros (g_nx ge + 1) (g_ny ge));
  divergence_zeros : forall ge,
    divergence ge (grid_u ge) (grid_v ge) = zeros (g_nx ge) (g_ny ge);
  corners_zeros : forall n m : nat,
    _fix_boundary_corners (zeros n m) = zeros n m;
  coord_uy_length : forall ge, length (coord_uy ge) = g_ny ge;
  coord_vy_length : forall ge, length (coord_vy ge) = (g_ny ge + 1)%nat;
  linspace_length : forall n : nat, length (exp_neg_linspace n) = n
}.

(** The increment computed from tendencies that are all zero is zero. *)
Class IntegratorZeroLaws (R : Type) {SR : Scalar R} {IR : Integrator R}
  : Prop := {
  ab_increment_zeros : forall (h : R) (hs : list (Arr R)) (n m : nat),
    hs <> [] -> Forall (fun x => x = zeros n m) hs ->
    ab_increment h hs = Ok (zeros n m)
}.

(** ** The specification's side *)

Section SpecSide.
Context {R : Type} {SR : Scalar R} {GR : Grid R} {IR : Integrator R}.

(** A field of interior values [v] inside a border of zeros; [m] is the
    length of the second axis of [v]. *)
Definition pad_zero (m : nat) (v : Arr R) : Arr R :=
  replicate (m + 2) fzero
  :: map (fun row => fzero :: row ++ [fzero]) v
  ++ [replicate (m + 2) fzero].

(** The model's padded fields have the shapes the grid allocates. *)
Definition well_shaped (m : Model R) : Prop :=
  has_shape (nx m + 3) (ny m + 2) (_u m) /\
  has_shape (nx m + 2) (ny m + 3) (_v m) /\
  has_shape (nx m + 2) (ny m + 2) (_phi m).

(** The flux divergence of the conservation law
    d q / d t + div (u q) = 0: the x-difference of (q averaged to u-points
    times u) plus the y-difference of (q averaged to v-points times v). *)
Definition flux_divergence (m : Model R) (q : Arr R) : Result (Arr R) :=
  do fx <- flux_x m q;
  do fy <- flux_y m q;
  add fx fy.

(** What [PeriodicShallowWater._apply_boundary_conditions] and
    [WalledShallowWater._apply_boundary_conditions] do to the along-x
    velocity alone. *)
Definition periodic_u (_u : Arr R) : Result (Arr R) :=
  do _u <- copy_x _u 0 (-3);
  do _u <- copy_x _u 1 (-2);
  do _u <- copy_x _u (-1) 2;
  NonLinear.top_and_bottom _u.

Definition walled_u (_u : Arr R) : Result (Arr R) :=
  do _u <- fill_x _u 0 fzero;
  do _u <- fill_x _u 1 fzero;
  do _u <- fill_x _u (-1) fzero;
  do _u <- fill_x _u (-2) fzero;
  NonLinear.top_and_bottom _u.

(** Columns [i] and [i'] of a field agree in every cell that is not a
    corner; [m] is the length of the second axis. *)
Definition columns_agree (m : nat) (a : Arr R) (i i' : Z) : Prop :=
  forall j : nat, (1 <= j <= m - 2)%nat ->
    same_cell a i (Z.of_nat j) i' (Z.of_nat j).

(** The rows at the two y-boundaries equal the rows next to them, in
    every cell that is not a corner; [n] is the length of the first axis. *)
Definition zero_gradient_y (n : nat) (a : Arr R) : Prop :=
  forall i : nat, (1 <= i <= n - 2)%nat ->
    same_cell a (Z.of_nat i) 0 (Z.of_nat i) 1 /\
    same_cell a (Z.of_nat i) (-1) (Z.of_nat i) (-2).

(** The zero tendency of a grid. *)
Definition zero3 (ge : Geom R) : Triple R :=
  (zeros (S (g_nx ge)) (g_ny ge), zeros (g_nx ge) (S (g_ny ge)),
   zeros (g_nx ge) (g_ny ge)).

(** A model that holds still: no forcings, no tracers, and three fields
    of zeros. *)
Definition still (m : Model R) : Prop :=
  _forcings m = [] /\ _tracers m = [] /\
  _u m = grid_u (geom m) /\ _v m = grid_v (geom m) /\
  _phi m = grid_phi (geom m).

(** A model at rest: zero Coriolis parameters, no forcings, no tracers,
    and three fields of zeros. *)
Definition at_rest (m : Model R) : Prop :=
  f0 m = fzero /\ beta m = fzero /\ still m.

(** The sponge as [__init__] sets it. *)
Definition sponge_ok (m : Model R) : Prop :=
  sponge_ny m = (ny m / 7)%nat /\ length (sponge m) = sponge_ny m.

(** The state's integrator has seen zero tendencies only. *)
Definition history_zero (m : Model R) : Prop :=
  match _stepper m with
  | Finished => True
  | Running hs => Forall (fun x => x = zero3 (geom m)) hs
  end.

(** A model that has been at rest since it was made. *)
Definition quiet (m : Model R) : Prop :=
  at_rest m /\ sponge_ok m /\ history_zero m.

(** A boundary mixin that leaves fields of zeros as they are. *)
Definition keeps_zeros (B : Boundaries R) : Prop :=
  forall ge, bc_state B (grid_u ge, grid_v ge, grid_phi ge)
             = Ok (grid_u ge, grid_v ge, grid_phi ge).

(** The model [m'] holds a zero state, and so does the snapshot that the
    boundary operation of the next step makes of it; the tendency [rhsf]
    of that snapshot is zero when it is computed, and it is computed when
    the sponge is not empty. *)
Definition rests (B : Boundaries R) (rhsf : Model R -> Result (Triple R))
    (ge : Geom R) (m' : Model R) : Prop :=
  state m' = zero3 ge /\
  exists m1,
    _apply_boundary_conditions B m' = (Ok tt, m1) /\
    state m1 = zero3 ge /\
    (rhsf m1 = Ok (zero3 ge) \/ rhsf m1 = Raise ValueError) /\
    ((7 <= g_ny ge)%nat -> rhsf m1 = Ok (zero3 ge)).

(** [n] calls of a step method, whatever each call returns. *)
Fixpoint steps (stepf : M R unit) (n : nat) (m : Model R) : Model R :=
  match n with
  | O => m
  | S n' => steps stepf n' (snd (stepf m))
  end.

(** A method that leaves the clock, the step count and the time step as
    they are, whatever it returns. *)
Definition keeps_clock {A : Type} (c : M R A) : Prop :=
  forall m res m', c m = (res, m') ->
    tc m' = tc m /\ t m' = t m /\ dt m' = dt m.

(** A method that leaves everything that a forcing or a tracer's [rhs]
    can read as it is. *)
Definition keeps_view {A : Type} (c : M R A) : Prop :=
  forall m res m', c m = (res, m') -> view m' = view m.

(** A method that advances the clock by one step when it returns and
    leaves it alone when it raises. *)
Definition clock_step (c : M R unit) : Prop :=
  forall m res m', c m = (res, m') ->
    match res with
    | Ok _ => tc m' = S (tc m) /\ t m' = fadd (t m) (dt m)
    | Raise _ => tc m' = tc m /\ t m' = t m
    end.

(** The boundary-corrected snapshot with which both [step] methods begin:
    the state operation, then the operation on every tracer field. *)
Definition snapshot (B : Boundaries R) : M R unit :=
  run _ <- _apply_boundary_conditions B;
  run names <- eval (fun m => Ok (keys m));
  forM_ names (_apply_boundary_conditions_to B).

(** The column of the along-x velocity (of [n] columns) that column [x]
    holds after the three periodic copies. *)
Definition pu_src (n x : nat) : nat :=
  let s3 := if decide (x = n - 1)%nat then 2%nat else x in
  let s2 := if decide (s3 = 1)%nat then (n - 2)%nat else s3 in
  if decide (s2 = 0)%nat then (n - 3)%nat else s2.

(** A method that keeps the property [P] of the model, whatever it
    returns. *)
Definition preserves {A : Type} (P : Model R -> Prop) (c : M R A) : Prop :=
  forall m res m', P m -> c m = (res, m') -> P m'.

(** What [__init__] fixes: the grid, the physical parameters, the sponge
    and the time step. *)
Definition config (m : Model R) :=
  (geom m, f0 m, beta m, nu m, nu_phi m, r m, sponge_ny m, sponge m, dt m,
   g m, H m).

(** What the registrations fix: the forcings in their order, and the name,
    the [rhs], the [kappa] and the [apply_damping] of every tracer in the
    order of the registry. *)
Definition registry (m : Model R) :=
  map (fun p => (fst p, tr_rhs (snd p), tr_kappa (snd p),
                 tr_apply_damping (snd p))) (_tracers m).

Definition settings (m : Model R) := (config m, _forcings m, registry m).

Definition has_settings
    (x : _ * list (View R -> Result (Triple R)) * _) (m : Model R) : Prop :=
  settings m = x.

(** The state's integrator is finished. *)
Definition stopped (m : Model R) : Prop := _stepper m = Finished.

(** How many of [n] calls of a step method returned. *)
Fixpoint returned (stepf : M R unit) (n : nat) (m : Model R) : nat :=
  match n with
  | O => O
  | S n' =>
      ((match fst (stepf m) with Ok _ => 1 | Raise _ => 0 end)
       + returned stepf n' (snd (stepf m)))%nat
  end.

(** Every tracer's padded field has the shape of the padded height. *)
Definition field_shaped (ge : Geom R) (tr : Tracer R) : Prop :=
  has_shape (g_nx ge + 2) (g_ny ge + 2) (tr_state tr).

Definition tracers_shaped (m : Model R) : Prop :=
  Forall (fun p => field_shaped (geom m) (snd p)) (_tracers m).

(** The storage invariant: the padded fields of the state and of every
    tracer have the shapes the grid allocates. *)
Definition shaped (m : Model R) : Prop := well_shaped m /\ tracers_shaped m.

(** A boundary mixin whose operations go through on fields of the grid's
    shapes and return fields of the same shapes. *)
Definition keeps_shapes (B : Boundaries R) : Prop :=
  (forall (nx ny : nat) (a b c : Arr R),
     has_shape (nx + 3) (ny + 2) a -> has_shape (nx + 2) (ny + 3) b ->
     has_shape (nx + 2) (ny + 2) c ->
     exists a' b' c',
       bc_state B (a, b, c) = Ok (a', b', c') /\
       has_shape (nx + 3) (ny + 2) a' /\ has_shape (nx + 2) (ny + 3) b' /\
       has_shape (nx + 2) (ny + 2) c') /\
  (forall (nx ny : nat) (field : Arr R),
     has_shape (nx + 2) (ny + 2) field ->
     exists field',
       bc_field B field = Ok field' /\ has_shape (nx + 2) (ny + 2) field').

(** The models that a program can build with the step method [stepf]: a
    constructor of either file, then registrations of forcings and tracers,
    assignments to the state and steps, in any order and whatever each call
    returns. *)
Inductive built (stepf : M R unit) : Model R -> Prop :=
  | built_nonlinear (nx ny : nat) (Lx Ly f0 beta nu r dt : R) :
      built stepf (NonLinear.init nx ny Lx Ly f0 beta nu r dt)
  | built_shallow (nx ny : nat) (Lx Ly f0 beta nu : R) (nu_phi : option R)
      (r dt : R) :
      built stepf (Linear.init nx ny Lx Ly f0 beta nu nu_phi r dt)
  | built_linear (nx ny : nat) (Lx Ly f0 beta g H nu : R)
      (nu_phi : option R) (r dt : R) :
      built stepf (Linear.init_linear nx ny Lx Ly f0 beta g H nu nu_phi r dt)
  | built_forcing (m : Model R) (fn : View R -> Result (Triple R)) :
      built stepf m -> built stepf (snd (add_forcing fn m))
  | built_tracer (m : Model R) (name : string) (v : Arr R) (rhs : RhsSpec R)
      (kappa : R) (apply_damping : bool) :
      built stepf m ->
      built stepf (snd (add_tracer name v rhs kappa apply_damping m))
  | built_state (m : Model R) (value : Triple R) :
      built stepf m -> built stepf (snd (set_state value m))
  | built_step (m : Model R) :
      built stepf m -> built stepf (snd (stepf m)).

(** Two fields of shape [(n, m)] that hold the same values in every cell
    that is not a corner. *)
Definition agree_off_corners (n m : nat) (a b : Arr R) : Prop :=
  forall x y : nat, ~ is_corner n m x y -> cell a x y = cell b x y.

(** The damping coefficients across a row of [k] cells: the sponge at the
    low-y end, its mirror image at the high-y end, zero in between. *)
Definition sponge_profile (m : Model R) (k : nat) : list R :=
  sponge m ++ replicate (k - 2 * sponge_ny m) fzero ++ reverse (sponge m).

(** What the loops over the tracers leave alone: the three fields of the
    state, the state's integrator and the grid. *)
Definition state_kept
    (x : Arr R * Arr R * Arr R * Stepper (Triple R) * Geom R) (m : Model R)
  : Prop :=
  (_u m, _v m, _phi m, _stepper m, geom m) = x.

(** Column [i] of a field is zero in every cell, columns [i] and [i'] agree
    in every cell, and rows [j] and [j'] agree in every cell; [m] and [n]
    are the lengths of the second and of the first axis. *)
Definition whole_column_is_zero (m : nat) (a : Arr R) (i : Z) : Prop :=
  forall j : nat, (j < m)%nat -> cell_is a i (Z.of_nat j) fzero.

Definition whole_columns_agree (m : nat) (a : Arr R) (i i' : Z) : Prop :=
  forall j : nat, (j < m)%nat -> same_cell a i (Z.of_nat j) i' (Z.of_nat j).

Definition whole_rows_agree (n : nat) (a : Arr R) (j j' : Z) : Prop :=
  forall i : nat, (i < n)%nat -> same_cell a (Z.of_nat i) j (Z.of_nat i) j'.

(** The column that column [x] of a field of [n] columns holds after
    [field[0, :] = field[1, :]] and [field[-1, :] = field[-2, :]]. *)
Definition wall_src (n x : nat) : nat :=
  if decide (x = n - 1)%nat
  then (if decide (n - 2 = 0)%nat then 1%nat else (n - 2)%nat)
  else if decide (x = 0)%nat then 1%nat else x.

End SpecSide.

(** ** Facts about arrays *)

Section ArrayFacts.
Context {R : Type} {SR : Scalar R}.
Local Open Scope nat_scope.

Lemma has_shape_zeros (n m : nat) : has_shape n m (zeros (R:=R) n m).
Proof.
  split; [apply length_replicate|].
  apply Forall_replicate, length_replicate.
Qed.

Lemma shape_is_has_shape (n m : nat) (a : Arr R) :
  shape_is n m a = true -> has_shape n m a.
Proof.
  unfold shape_is, has_shape. rewrite andb_true_iff, Nat.eqb_eq.
  intros [Hn Hm]. split; [done|].
  apply Forall_forall. intros row Hrow.
  rewrite forallb_forall in Hm. apply Nat.eqb_eq, Hm.
  by apply list_elem_of_In.
Qed.

Lemma zeros_like_shape (n m : nat) (a : Arr R) :
  has_shape n m a -> zeros_like a = zeros n m.
Proof.
  intros [Hn Hm]. subst n. unfold zeros_like, zeros.
  induction Hm as [|row a Hrow _ IH]; simpl; [done|].
  f_equal; [|exact IH].
  subst m. clear. induction row; simpl; [done|]. by f_equal.
Qed.

Lemma mapM_bc_len_id (m : nat) (v : Arr R) :
  Forall (fun row => length row = m) v -> mapM (bc_len m) v = Ok v.
Proof.
  induction 1 as [|row v Hrow _ IH]; simpl; [done|].
  unfold bc_len at 1. rewrite (proj2 (Nat.eqb_eq _ _) Hrow). simpl.
  by rewrite IH.
Qed.

Lemma broadcast_to_id (n m : nat) (v : Arr R) :
  has_shape n m v -> broadcast_to n m v = Ok v.
Proof.
  intros [Hn Hm]. unfold broadcast_to. rewrite (mapM_bc_len_id _ _ Hm). simpl.
  by rewrite (proj2 (Nat.eqb_eq _ _) Hn).
Qed.

Lemma drop_last_one {A : Type} (l : list A) :
  l <> [] -> exists y, drop (length l - 1) l = [y] /\ In y l.
Proof.
  induction l as [|x l IH]; [done|]. intros _.
  destruct l as [|x' l]; [exists x; split; [done|by left]|].
  destruct IH as [y [Hy Hin]]; [done|]. exists y.
  simpl in *. rewrite Nat.sub_0_r in Hy. split; [done|by right].
Qed.

Lemma inner_put_inner {A : Type} (l mid : list A) :
  2 <= length l -> inner (put_inner l mid) = mid.
Proof.
  destruct l as [|x l]; simpl; [lia|]. intros Hl.
  destruct (drop_last_one l) as [y [Hy _]]; [by destruct l; simpl in *; [lia|]|].
  rewrite Hy. unfold inner. simpl. apply removelast_last.
Qed.

Lemma map_inner_zip_put_inner (rows v : Arr R) :
  length rows = length v -> Forall (fun row => 2 <= length row) rows ->
  map inner (zip_with put_inner rows v) = v.
Proof.
  revert v. induction rows as [|row rows IH]; intros [|x v]; simpl; try done.
  intros Hlen Hrows. inversion Hrows; subst.
  rewrite inner_put_inner by done. f_equal. apply IH; [lia|done].
Qed.

Lemma length_inner {A : Type} (l : list A) : length (inner l) = length l - 2.
Proof.
  unfold inner. destruct l as [|x l]; simpl; [done|].
  induction l as [|y l _] using rev_ind; simpl; [done|].
  rewrite removelast_last, length_app. simpl. lia.
Qed.

Lemma Forall_inner {A : Type} (P : A -> Prop) (l : list A) :
  Forall P l -> Forall P (inner l).
Proof.
  intros Hl. unfold inner. destruct l as [|x l]; simpl; [done|].
  apply Forall_cons in Hl as [_ Hl].
  induction l as [|y l _] using rev_ind; simpl; [done|].
  rewrite removelast_last. apply Forall_app in Hl. tauto.
Qed.

Lemma interior_set_interior (n m : nat) (a v : Arr R) :
  has_shape (n + 2) (m + 2) a -> has_shape n m v ->
  exists a', set_interior a v = Ok a' /\ interior a' = v
             /\ has_shape (n + 2) (m + 2) a'.
Proof.
  intros [Han Ham] Hv. unfold set_interior.
  assert (Hnc : ncols a = m + 2).
  { destruct a as [|row a]; simpl in *; [lia|]. by inversion Ham. }
  rewrite Han, Hnc.
  replace (n + 2 - 2) with n by lia. replace (m + 2 - 2) with m by lia.
  rewrite (broadcast_to_id _ _ _ Hv). simpl. eexists. split; [done|].
  destruct Hv as [Hvn Hvm]. split.
  - unfold interior, inner_x, inner_y. rewrite inner_put_inner by lia.
    apply map_inner_zip_put_inner.
    + rewrite length_inner. lia.
    + apply Forall_inner. eapply Forall_impl; [exact Ham|].
      simpl. intros; lia.
  - destruct a as [|x a]; simpl in *; [lia|].
    inversion Ham as [|? ? Hx Ha]; subst.
    destruct (drop_last_one a) as [y [Hy Hin]];
      [by destruct a; simpl in *; [lia|]|].
    rewrite Hy.
    assert (Hya : length y = m + 2).
    { apply list_elem_of_In in Hin.
      by eapply Forall_forall in Ha; [|exact Hin]. }
    split.
    + simpl. rewrite length_app, length_zip_with, length_inner. simpl. lia.
    + constructor; [done|]. apply Forall_app. split; [|by constructor].
      apply Forall_forall. intros row Hrow.
      apply elem_of_lookup_zip_with in Hrow
        as (k & r1 & r2 & -> & Hr1 & Hr2).
      assert (Hl1 : length r1 = m + 2).
      { apply list_elem_of_lookup_2 in Hr1.
        pose proof (Forall_inner (fun r => length r = m + 2) (x :: a) Ham)
          as HF.
        rewrite Forall_forall in HF. by apply HF. }
      assert (Hl2 : length r2 = m).
      { apply list_elem_of_lookup_2 in Hr2.
        rewrite Forall_forall in Hvm. by apply Hvm. }
      destruct r1 as [|c r1]; simpl in *; [lia|].
      destruct (drop_last_one r1) as [z [Hz _]];
        [by destruct r1; simpl in *; [lia|]|].
      rewrite Hz, length_app. simpl. lia.
Qed.

Lemma dict_get_set_eq {V : Type} (d : list (string * V)) (k : string) (x : V) :
  dict_get (dict_set d k x) k = Ok x.
Proof.
  induction d as [|[k' y] d IH]; simpl.
  - by rewrite String.eqb_refl.
  - destruct (String.eqb k k') eqn:E; simpl; rewrite ?String.eqb_refl, ?E; done.
Qed.

Lemma dict_get_set_ne {V : Type} (d : list (string * V)) (k k' : string) (x : V) :
  k <> k' -> dict_get (dict_set d k x) k' = dict_get d k'.
Proof.
  intros Hne. induction d as [|[k0 y] d IH]; simpl.
  - by rewrite (proj2 (String.eqb_neq _ _)) by congruence.
  - destruct (String.eqb k k0) eqn:E; simpl.
    + apply String.eqb_eq in E. subst k0.
      by rewrite !(proj2 (String.eqb_neq k' k)) by congruence.
    + destruct (String.eqb k' k0); [done|exact IH].
Qed.

End ArrayFacts.

Section PadFacts.
Context {R : Type} {SR : Scalar R}.
Local Open Scope nat_scope.

Lemma inner_replicate {A : Type} (n : nat) (x : A) :
  inner (replicate (S (S n)) x) = replicate n x.
Proof.
  unfold inner. change (tail (replicate (S (S n)) x)) with (replicate (S n) x).
  rewrite replicate_S_end. apply removelast_last.
Qed.

Lemma put_inner_replicate {A : Type} (n : nat) (x : A) (mid : list A) :
  put_inner (replicate (S (S n)) x) mid = x :: mid ++ [x].
Proof.
  change (replicate (S (S n)) x) with (x :: replicate (S n) x).
  unfold put_inner. rewrite length_replicate, drop_replicate.
  by replace (S n - (S n - 1)) with 1 by lia.
Qed.

Lemma zip_with_replicate_l_same {A B C : Type} (f : A -> B -> C) (x : A)
    (l : list B) :
  zip_with f (replicate (length l) x) l = map (f x) l.
Proof. induction l; simpl; [done|]. by f_equal. Qed.

Lemma set_interior_zeros (n m : nat) (v : Arr R) :
  has_shape n m v -> set_interior (zeros (n + 2) (m + 2)) v = Ok (pad_zero m v).
Proof.
  intros Hv. unfold set_interior, zeros.
  replace (n + 2) with (S (S n)) by lia.
  replace (m + 2) with (S (S m)) by lia.
  rewrite length_replicate.
  replace (ncols (replicate (S (S n)) (replicate (S (S m)) fzero)))
    with (S (S m)) by (simpl; by rewrite length_replicate).
  replace (S (S n) - 2) with n by lia. replace (S (S m) - 2) with m by lia.
  rewrite (broadcast_to_id _ _ _ Hv). unfold bind.
  rewrite inner_replicate, put_inner_replicate.
  destruct Hv as [Hn Hm]. subst n. rewrite zip_with_replicate_l_same.
  unfold pad_zero. replace (m + 2) with (S (S m)) by lia.
  do 3 f_equal. apply map_ext. intros row. apply put_inner_replicate.
Qed.

Lemma keys_dict_set_present {V : Type} (d : list (string * V)) (k : string)
    (x y : V) :
  dict_get d k = Ok y -> map fst (dict_set d k x) = map fst d.
Proof.
  induction d as [|[k0 z] d IH]; simpl; [done|].
  destruct (String.eqb k k0) eqn:E; simpl.
  - apply String.eqb_eq in E. by subst.
  - intros Hd. f_equal. by apply IH.
Qed.

End PadFacts.

(** ** Registering and reading tracers *)

Section Tracers.
Context {R : Type} {SR : Scalar R} {GR : Grid R} {IR : Integrator R}.

(** C10. Registering a tracer with interior-shaped initial values [v] and
    reading it back returns [v]: [add_tracer] stores [v] inside a border of
    zeros and [tracer] returns the interior of what is stored. *)
Theorem C10_register_then_read (m : Model R) (name : string) (v : Arr R)
    (rhs : RhsSpec R) (kappa : R) (apply_damping : bool) :
  has_shape (nx m + 2) (ny m + 2) (_phi m) ->
  has_shape (nx m) (ny m) v ->
  exists m',
    add_tracer name v rhs kappa apply_damping m = (Ok tt, m') /\
    tracer m' name = Ok v /\
    _tracer m' name = Ok (pad_zero (ny m) v) /\
    interior (pad_zero (ny m) v) = v.
Proof.
  intros Hphi Hv. unfold add_tracer.
  rewrite (zeros_like_shape _ _ _ Hphi).
  rewrite (set_interior_zeros _ _ _ Hv).
  destruct (interior_set_interior (nx m) (ny m) (zeros (nx m + 2) (ny m + 2)) v)
    as (a' & Ha' & Hint & _); [apply has_shape_zeros|done|].
  rewrite (set_interior_zeros _ _ _ Hv) in Ha'. injection Ha' as <-.
  eexists. split; [reflexivity|].
  unfold tracer, _tracer. simpl. rewrite dict_get_set_eq. simpl.
  by rewrite Hint.
Qed.

(** C7 (as the code has it). Registering under a name that is already in
    the registry is not rejected: the entry of that name is replaced by a
    fresh field and a fresh integrator built from the new arguments, and the
    other entries and the order of the registry stay as they were. *)
Theorem C7_reregistration_replaces (m : Model R) (name : string)
    (v : Arr R) (rhs : RhsSpec R) (kappa : R) (apply_damping : bool)
    (old : Tracer R) :
  has_shape (nx m + 2) (ny m + 2) (_phi m) ->
  has_shape (nx m) (ny m) v ->
  dict_get (_tracers m) name = Ok old ->
  exists m',
    add_tracer name v rhs kappa apply_damping m = (Ok tt, m') /\
    dict_get (_tracers m') name
    = Ok {| tr_state := pad_zero (ny m) v; tr_stepper := Running [];
            tr_rhs := rhs; tr_kappa := kappa;
            tr_apply_damping := apply_damping |} /\
    keys m' = keys m /\
    forall k, k <> name -> dict_get (_tracers m') k = dict_get (_tracers m) k.
Proof.
  intros Hphi Hv Hold. unfold add_tracer.
  rewrite (zeros_like_shape _ _ _ Hphi).
  rewrite (set_interior_zeros _ _ _ Hv).
  eexists. split; [reflexivity|]. unfold keys. simpl.
  split; [apply dict_get_set_eq|].
  split; [by eapply keys_dict_set_present|].
  intros k Hk. apply dict_get_set_ne. congruence.
Qed.

End Tracers.

(** ** Facts about indexing and the boundary copies *)

Section IndexFacts.
Context {R : Type} {SR : Scalar R}.
Local Open Scope nat_scope.

Lemma py_index_spec (len : nat) (i : Z) (k : nat) :
  ((0 <= i)%Z /\ i = Z.of_nat k /\ k < len) \/
  ((i < 0)%Z /\ (Z.of_nat len + i)%Z = Z.of_nat k) ->
  py_index len i = Ok k.
Proof.
  unfold py_index. intros [(Hi & -> & Hk)|(Hi & Hk)].
  - rewrite (proj2 (Z.leb_le _ _)) by lia.
    rewrite (proj2 (Z.ltb_lt _ _)) by lia. by rewrite Nat2Z.id.
  - rewrite (proj2 (Z.leb_gt _ _)) by lia.
    rewrite (proj2 (Z.leb_le _ _)) by lia. by rewrite Hk, Nat2Z.id.
Qed.

Lemma py_index_lt (len : nat) (i : Z) (k : nat) :
  py_index len i = Ok k -> k < len.
Proof.
  unfold py_index. repeat case_match; intros [= <-];
    rewrite ?Z.leb_le, ?Z.ltb_lt, ?Z.leb_gt in *; lia.
Qed.

Lemma cell_shape_Some (n m : nat) (a : Arr R) (x y : nat) :
  has_shape n m a -> x < n -> y < m -> is_Some (cell a x y).
Proof.
  intros [Hn Hm] Hx Hy. unfold cell.
  destruct (lookup_lt_is_Some_2 a x) as [row Hrow]; [lia|].
  rewrite Hrow. apply lookup_lt_is_Some_2.
  rewrite Forall_forall in Hm.
  rewrite (Hm row); [done|]. by eapply list_elem_of_lookup_2.
Qed.

Lemma at_cell (n m : nat) (a : Arr R) (i j : Z) (x y : nat) (c : R) :
  has_shape n m a -> py_index n i = Ok x -> py_index m j = Ok y ->
  cell a x y = Some c -> at_ a i j = Ok c.
Proof.
  intros [Hn Hm] Hi Hj. unfold cell, at_, item. rewrite Hn, Hi. simpl.
  destruct (a !! x) as [row|] eqn:Hrow; [|done]. simpl.
  rewrite Forall_forall in Hm.
  rewrite (Hm row) by (by eapply list_elem_of_lookup_2).
  rewrite Hj. simpl. by intros ->.
Qed.

Lemma cells_agree_intro (n m : nat) (a b : Arr R) (i j i' j' : Z)
    (x y x' y' : nat) :
  has_shape n m a -> has_shape n m b ->
  py_index n i = Ok x -> py_index m j = Ok y ->
  py_index n i' = Ok x' -> py_index m j' = Ok y' ->
  cell a x y = cell b x' y' -> cells_agree a i j b i' j'.
Proof.
  intros Ha Hb Hi Hj Hi' Hj' Heq.
  destruct (cell_shape_Some n m a x y Ha) as [c Hc];
    [by eapply py_index_lt|by eapply py_index_lt|].
  exists c. split; [by eapply at_cell|].
  eapply at_cell; try done. by rewrite <- Heq.
Qed.

Lemma same_cell_intro (n m : nat) (a : Arr R) (i j i' j' : Z)
    (x y x' y' : nat) :
  has_shape n m a ->
  py_index n i = Ok x -> py_index m j = Ok y ->
  py_index n i' = Ok x' -> py_index m j' = Ok y' ->
  cell a x y = cell a x' y' -> same_cell a i j i' j'.
Proof. intros Ha. by apply cells_agree_intro. Qed.

Lemma copy_x_spec (n m : nat) (a : Arr R) (i j : Z) (ki kj : nat) :
  has_shape n m a -> py_index n i = Ok ki -> py_index n j = Ok kj ->
  exists a', copy_x a i j = Ok a' /\ has_shape n m a' /\
    forall x y, cell a' x y
                = if decide (x = ki) then cell a kj y else cell a x y.
Proof.
  intros [Hn Hm] Hi Hj.
  pose proof (py_index_lt _ _ _ Hi) as Hki.
  pose proof (py_index_lt _ _ _ Hj) as Hkj.
  destruct (lookup_lt_is_Some_2 a ki) as [ri Hri]; [lia|].
  destruct (lookup_lt_is_Some_2 a kj) as [rj Hrj]; [lia|].
  assert (Hli : length ri = m).
  { rewrite Forall_forall in Hm. apply Hm. by eapply list_elem_of_lookup_2. }
  assert (Hlj : length rj = m).
  { rewrite Forall_forall in Hm. apply Hm. by eapply list_elem_of_lookup_2. }
  unfold copy_x, get_x, set_x, item, setitem.
  rewrite Hn, Hj, Hi. simpl. rewrite Hrj, Hri. simpl.
  rewrite Hlj, Hli, Nat.eqb_refl. simpl.
  eexists. split; [done|]. split.
  - split; [by rewrite length_insert|].
    apply Forall_insert; [done|]. exact Hlj.
  - intros x y. unfold cell. case_decide as Hx.
    + subst x. rewrite list_lookup_insert_eq by lia. by rewrite Hrj.
    + by rewrite list_lookup_insert_ne by done.
Qed.

Lemma fill_x_spec (n m : nat) (a : Arr R) (i : Z) (ki : nat) (c : R) :
  has_shape n m a -> py_index n i = Ok ki ->
  exists a', fill_x a i c = Ok a' /\ has_shape n m a' /\
    forall x y, cell a' x y
                = if decide (x = ki)
                  then (if decide (y < m) then Some c else None)
                  else cell a x y.
Proof.
  intros [Hn Hm] Hi.
  pose proof (py_index_lt _ _ _ Hi) as Hki.
  destruct (lookup_lt_is_Some_2 a ki) as [ri Hri]; [lia|].
  assert (Hli : length ri = m).
  { rewrite Forall_forall in Hm. apply Hm. by eapply list_elem_of_lookup_2. }
  unfold fill_x, item, setitem. rewrite Hn, Hi. simpl. rewrite Hri. simpl.
  rewrite Hli. eexists. split; [done|]. split.
  - split; [by rewrite length_insert|].
    apply Forall_insert; [done|]. apply length_replicate.
  - intros x y. unfold cell. case_decide as Hx.
    + subst x. rewrite list_lookup_insert_eq by lia.
      case_decide; [by apply lookup_replicate_2|].
      apply lookup_replicate_None. lia.
    + by rewrite list_lookup_insert_ne by done.
Qed.

Lemma get_y_spec (m : nat) (a : Arr R) (j : Z) (kj : nat) :
  Forall (fun row => length row = m) a -> py_index m j = Ok kj ->
  exists col, get_y a j = Ok col /\ length col = length a /\
    forall x, col !! x = cell a x kj.
Proof.
  intros Hm Hj. unfold get_y.
  induction Hm as [|row a Hrow _ (col & Hcol & Hlen & Hc)]; simpl.
  - exists []. split; [done|]. split; [done|]. by intros [|x].
  - pose proof (py_index_lt _ _ _ Hj) as Hkj.
    destruct (lookup_lt_is_Some_2 row kj) as [c Hcv]; [lia|].
    unfold item at 1. rewrite Hrow, Hj. simpl. rewrite Hcv, Hcol. simpl.
    exists (c :: col). split; [done|]. split; [simpl; lia|].
    intros [|x]; [by unfold cell; simpl|]. exact (Hc x).
Qed.

Lemma set_y_rows_spec (m : nat) (a : Arr R) (i : Z) (ki : nat)
    (col : list R) :
  Forall (fun row => length row = m) a -> length col = length a ->
  py_index m i = Ok ki ->
  exists a', set_y_rows a i col = Ok a' /\ length a' = length a /\
    Forall (fun row => length row = m) a' /\
    forall x y, cell a' x y
                = if decide (y = ki) then col !! x else cell a x y.
Proof.
  intros Hm. revert col.
  induction Hm as [|row a Hrow _ IH]; intros col Hlen Hi.
  - destruct col; [|done]. exists []. repeat split; try done.
    intros x y. unfold cell. by case_decide.
  - destruct col as [|c col]; [done|]. simpl in Hlen.
    destruct (IH col) as (a' & Ha' & Hl' & Hm' & Hc'); [lia|done|].
    pose proof (py_index_lt _ _ _ Hi) as Hki.
    simpl. unfold setitem at 1. rewrite Hrow, Hi. simpl. rewrite Ha'. simpl.
    eexists. split; [done|]. split; [simpl; lia|]. split.
    + constructor; [by rewrite length_insert|done].
    + intros [|x] y.
      * unfold cell. simpl. case_decide as Hy.
        -- subst y. by rewrite list_lookup_insert_eq by lia.
        -- by rewrite list_lookup_insert_ne by done.
      * exact (Hc' x y).
Qed.

Lemma copy_y_spec (n m : nat) (a : Arr R) (i j : Z) (ki kj : nat) :
  has_shape n m a -> py_index m i = Ok ki -> py_index m j = Ok kj ->
  exists a', copy_y a i j = Ok a' /\ has_shape n m a' /\
    forall x y, cell a' x y
                = if decide (y = ki) then cell a x kj else cell a x y.
Proof.
  intros [Hn Hm] Hi Hj. unfold copy_y.
  destruct (get_y_spec m a j kj Hm Hj) as (col & Hcol & Hlen & Hc).
  rewrite Hcol. simpl. unfold set_y. rewrite Hlen, Nat.eqb_refl.
  destruct (set_y_rows_spec m a i ki col Hm Hlen Hi)
    as (a' & Ha' & Hl' & Hm' & Hc').
  exists a'. split; [done|]. split; [split; [lia|done]|].
  intros x y. rewrite Hc'. case_decide; [apply Hc|done].
Qed.

End IndexFacts.

(** ** The boundary conditions of nonlinear.py *)

Ltac idx := apply py_index_spec; lia.

Ltac cells :=
  unfold tb_src, pu_src; repeat case_decide; try lia; try done; f_equal; lia.

Section BoundaryFacts.
Context {R : Type} {SR : Scalar R} {GR : Grid R} {CL : CornerLaws R}.
Local Open Scope nat_scope.

Lemma top_and_bottom_spec (n m : nat) (a : Arr R) :
  has_shape n m a -> 2 <= m ->
  exists a', NonLinear.top_and_bottom a = Ok a' /\ has_shape n m a' /\
    forall x y, ~ is_corner n m x y -> cell a' x y = cell a x (tb_src m y).
Proof.
  intros Ha Hm. unfold NonLinear.top_and_bottom.
  destruct (copy_y_spec n m a 0%Z 1%Z 0 1 Ha) as (b & Hb & Hbs & Hbc);
    [apply py_index_spec; lia|apply py_index_spec; lia|].
  rewrite Hb. simpl.
  destruct (copy_y_spec n m b (-1)%Z (-2)%Z (m - 1) (m - 2) Hbs)
    as (c & Hc & Hcs & Hcc);
    [apply py_index_spec; lia|apply py_index_spec; lia|].
  rewrite Hc. simpl. eexists. split; [done|].
  split; [by apply corners_shape|].
  intros x y Hxy. rewrite (corners_frame n m c x y Hcs Hxy).
  rewrite Hcc, !Hbc. unfold tb_src.
  repeat case_decide; try lia; try done; f_equal; lia.
Qed.

Lemma periodic_field_spec (n m : nat) (a : Arr R) :
  has_shape n m a -> 2 <= n -> 2 <= m ->
  exists a', NonLinear.periodic_field a = Ok a' /\ has_shape n m a' /\
    forall x y, ~ is_corner n m x y ->
      cell a' x y
      = cell a (if decide (x = n - 1) then 1
                else if decide (x = 0) then n - 2 else x) (tb_src m y).
Proof.
  intros Ha Hn Hm. unfold NonLinear.periodic_field.
  destruct (copy_x_spec n m a 0%Z (-2)%Z 0 (n - 2) Ha)
    as (b & Hb & Hbs & Hbc); [idx|idx|].
  rewrite Hb. simpl.
  destruct (copy_x_spec n m b (-1)%Z 1%Z (n - 1) 1 Hbs)
    as (c & Hc & Hcs & Hcc); [idx|idx|].
  rewrite Hc. simpl.
  destruct (top_and_bottom_spec n m c Hcs Hm) as (d & Hd & Hds & Hdc).
  exists d. split; [done|]. split; [done|].
  intros x y Hxy. rewrite (Hdc x y Hxy), Hcc, !Hbc. cells.
Qed.

Lemma walled_field_spec (n m : nat) (a : Arr R) :
  has_shape n m a -> 2 <= n -> 2 <= m ->
  exists a', NonLinear.walled_field a = Ok a' /\ has_shape n m a' /\
    forall x y, ~ is_corner n m x y ->
      cell a' x y
      = cell a (if decide (x = n - 1)
                then (if decide (n - 2 = 0) then 1 else n - 2)
                else if decide (x = 0) then 1 else x) (tb_src m y).
Proof.
  intros Ha Hn Hm. unfold NonLinear.walled_field.
  destruct (copy_x_spec n m a 0%Z 1%Z 0 1 Ha)
    as (b & Hb & Hbs & Hbc); [idx|idx|].
  rewrite Hb. simpl.
  destruct (copy_x_spec n m b (-1)%Z (-2)%Z (n - 1) (n - 2) Hbs)
    as (c & Hc & Hcs & Hcc); [idx|idx|].
  rewrite Hc. simpl.
  destruct (top_and_bottom_spec n m c Hcs Hm) as (d & Hd & Hds & Hdc).
  exists d. split; [done|]. split; [done|].
  intros x y Hxy. rewrite (Hdc x y Hxy), Hcc, !Hbc. cells.
Qed.

Lemma periodic_u_spec (n m : nat) (a : Arr R) :
  has_shape n m a -> 3 <= n -> 2 <= m ->
  exists a', periodic_u a = Ok a' /\ has_shape n m a' /\
    forall x y, ~ is_corner n m x y ->
      cell a' x y = cell a (pu_src n x) (tb_src m y).
Proof.
  intros Ha Hn Hm. unfold periodic_u.
  destruct (copy_x_spec n m a 0%Z (-3)%Z 0 (n - 3) Ha)
    as (b & Hb & Hbs & Hbc); [idx|idx|].
  rewrite Hb. simpl.
  destruct (copy_x_spec n m b 1%Z (-2)%Z 1 (n - 2) Hbs)
    as (c & Hc & Hcs & Hcc); [idx|idx|].
  rewrite Hc. simpl.
  destruct (copy_x_spec n m c (-1)%Z 2%Z (n - 1) 2 Hcs)
    as (d & Hd & Hds & Hdc); [idx|idx|].
  rewrite Hd. simpl.
  destruct (top_and_bottom_spec n m d Hds Hm) as (e & He & Hes & Hec).
  exists e. split; [done|]. split; [done|].
  intros x y Hxy. rewrite (Hec x y Hxy), Hdc, !Hcc, !Hbc. cells.
Qed.

Lemma walled_u_spec (n m : nat) (a : Arr R) :
  has_shape n m a -> 3 <= n -> 2 <= m ->
  exists a', walled_u a = Ok a' /\ has_shape n m a' /\
    forall x y, ~ is_corner n m x y ->
      cell a' x y
      = if decide (x = 0 \/ x = 1 \/ x = n - 1 \/ x = n - 2)
        then (if decide (x < n /\ y < m) then Some fzero else None)
        else cell a x (tb_src m y).
Proof.
  intros Ha Hn Hm. unfold walled_u.
  destruct (fill_x_spec n m a 0%Z 0 fzero Ha)
    as (b & Hb & Hbs & Hbc); [idx|].
  rewrite Hb. simpl.
  destruct (fill_x_spec n m b 1%Z 1 fzero Hbs)
    as (c & Hc & Hcs & Hcc); [idx|].
  rewrite Hc. simpl.
  destruct (fill_x_spec n m c (-1)%Z (n - 1) fzero Hcs)
    as (d & Hd & Hds & Hdc); [idx|].
  rewrite Hd. simpl.
  destruct (fill_x_spec n m d (-2)%Z (n - 2) fzero Hds)
    as (e & He & Hes & Hec); [idx|].
  rewrite He. simpl.
  destruct (top_and_bottom_spec n m e Hes Hm) as (f & Hf & Hfs & Hfc).
  exists f. split; [done|]. split; [done|].
  intros x y Hxy. rewrite (Hfc x y Hxy), Hec, Hdc, Hcc, Hbc.
  unfold tb_src. repeat case_decide; try lia; done.
Qed.

Lemma periodic_state_ok (a b c a' b' c' : Arr R) :
  periodic_u a = Ok a' -> NonLinear.periodic_field b = Ok b' ->
  NonLinear.periodic_field c = Ok c' ->
  NonLinear.periodic_state (a, b, c) = Ok (a', b', c').
Proof.
  unfold periodic_u, NonLinear.periodic_field, NonLinear.periodic_state.
  intros Ha Hb Hc.
  destruct (copy_x a 0 (-3)) as [a1|]; simpl in *; [|done].
  destruct (copy_x a1 1 (-2)) as [a2|]; simpl in *; [|done].
  destruct (copy_x a2 (-1) 2) as [a3|]; simpl in *; [|done].
  destruct (copy_x b 0 (-2)) as [b1|]; simpl in *; [|done].
  destruct (copy_x b1 (-1) 1) as [b2|]; simpl in *; [|done].
  destruct (copy_x c 0 (-2)) as [c1|]; simpl in *; [|done].
  destruct (copy_x c1 (-1) 1) as [c2|]; simpl in *; [|done].
  by rewrite Ha, Hb, Hc.
Qed.

Lemma walled_state_ok (a b c a' b' c' : Arr R) :
  walled_u a = Ok a' -> NonLinear.walled_field b = Ok b' ->
  NonLinear.walled_field c = Ok c' ->
  NonLinear.walled_state (a, b, c) = Ok (a', b', c').
Proof.
  unfold walled_u, NonLinear.walled_field, NonLinear.walled_state.
  intros Ha Hb Hc.
  destruct (fill_x a 0 fzero) as [a1|]; simpl in *; [|done].
  destruct (fill_x a1 1 fzero) as [a2|]; simpl in *; [|done].
  destruct (fill_x a2 (-1) fzero) as [a3|]; simpl in *; [|done].
  destruct (fill_x a3 (-2) fzero) as [a4|]; simpl in *; [|done].
  destruct (copy_x b 0 1) as [b1|]; simpl in *; [|done].
  destruct (copy_x b1 (-1) (-2)) as [b2|]; simpl in *; [|done].
  destruct (copy_x c 0 1) as [c1|]; simpl in *; [|done].
  destruct (copy_x c1 (-1) (-2)) as [c2|]; simpl in *; [|done].
  by rewrite Ha, Hb, Hc.
Qed.

End BoundaryFacts.

Section BoundaryClaims.
Context {R : Type} {SR : Scalar R} {GR : Grid R} {CL : CornerLaws R}.
Local Open Scope nat_scope.

Lemma zero_gradient_of_src (n m : nat) (a a' : Arr R) (src : nat -> nat) :
  has_shape n m a' -> 2 <= m ->
  (forall x y, ~ is_corner n m x y ->
     cell a' x y = cell a (src x) (tb_src m y)) ->
  zero_gradient_y n a'.
Proof.
  intros Ha' Hm Hc i Hi. split.
  - apply (same_cell_intro n m a' _ _ _ _ i 0 i 1 Ha'); [idx|idx|idx|idx|].
    rewrite !Hc by (unfold is_corner; lia). cells.
  - apply (same_cell_intro n m a' _ _ _ _ i (m - 1) i (m - 2) Ha');
      [idx|idx|idx|idx|].
    rewrite !Hc by (unfold is_corner; lia). cells.
Qed.

Lemma columns_agree_of_src (n m : nat) (a a' : Arr R) (src : nat -> nat)
    (i i' : Z) (x x' : nat) :
  has_shape n m a' -> py_index n i = Ok x -> py_index n i' = Ok x' ->
  (forall x y, ~ is_corner n m x y ->
     cell a' x y = cell a (src x) (tb_src m y)) ->
  src x = src x' -> columns_agree m a' i i'.
Proof.
  intros Ha' Hi Hi' Hc Hsrc j Hj.
  apply (same_cell_intro n m a' _ _ _ _ x j x' j Ha'); [done|idx|done|idx|].
  rewrite !Hc by (unfold is_corner; lia). by rewrite Hsrc.
Qed.

(** Where the periodic wrap works: on a grid with [nx <> 1] the periodic
    state operation returns fields whose wrapped columns equal their source
    columns (0, 1 and -1 against -3, -2 and 2 for the along-x velocity;
    0 and -1 against -2 and 1 for the transverse velocity and the height)
    and whose y-boundary rows equal the rows next to them, in every cell
    that is not one of the four corners. *)
Lemma periodic_state_wraps (nx ny : nat) (u v phi : Arr R) :
  nx <> 1 ->
  has_shape (nx + 3) (ny + 2) u ->
  has_shape (nx + 2) (ny + 3) v ->
  has_shape (nx + 2) (ny + 2) phi ->
  exists u' v' phi',
    NonLinear.periodic_state (u, v, phi) = Ok (u', v', phi') /\
    (columns_agree (ny + 2) u' 0 (-3) /\
     columns_agree (ny + 2) u' 1 (-2) /\
     columns_agree (ny + 2) u' (-1) 2) /\
    (columns_agree (ny + 3) v' 0 (-2) /\
     columns_agree (ny + 3) v' (-1) 1) /\
    (columns_agree (ny + 2) phi' 0 (-2) /\
     columns_agree (ny + 2) phi' (-1) 1) /\
    zero_gradient_y (nx + 3) u' /\
    zero_gradient_y (nx + 2) v' /\
    zero_gradient_y (nx + 2) phi'.
Proof.
  intros Hnx Hu Hv Hphi.
  destruct (periodic_u_spec _ _ u Hu) as (u' & Hu' & Hus & Huc); [lia|lia|].
  destruct (periodic_field_spec _ _ v Hv) as (v' & Hv' & Hvs & Hvc);
    [lia|lia|].
  destruct (periodic_field_spec _ _ phi Hphi) as (p' & Hp' & Hps & Hpc);
    [lia|lia|].
  exists u', v', p'. split; [by apply periodic_state_ok|].
  split; [|split; [|split; [|split; [|split]]]].
  - split; [|split].
    + apply (columns_agree_of_src _ _ u u' (pu_src (nx + 3)) _ _ 0 nx Hus);
        [idx|idx|done|cells].
    + apply (columns_agree_of_src _ _ u u' (pu_src (nx + 3)) _ _ 1 (nx + 1) Hus);
        [idx|idx|done|cells].
    + apply (columns_agree_of_src _ _ u u' (pu_src (nx + 3)) _ _ (nx + 2) 2 Hus);
        [idx|idx|done|cells].
  - split.
    + eapply (columns_agree_of_src _ _ v v' _ _ _ 0 nx Hvs);
        [idx|idx|exact Hvc|cells].
    + eapply (columns_agree_of_src _ _ v v' _ _ _ (nx + 1) 1 Hvs);
        [idx|idx|exact Hvc|cells].
  - split.
    + eapply (columns_agree_of_src _ _ phi p' _ _ _ 0 nx Hps);
        [idx|idx|exact Hpc|cells].
    + eapply (columns_agree_of_src _ _ phi p' _ _ _ (nx + 1) 1 Hps);
        [idx|idx|exact Hpc|cells].
  - eapply zero_gradient_of_src; [exact Hus|lia|exact Huc].
  - eapply zero_gradient_of_src; [exact Hvs|lia|exact Hvc].
  - eapply zero_gradient_of_src; [exact Hps|lia|exact Hpc].
Qed.

(** C5 (as the code has it). The operation on a tracer field wraps the
    x-direction in the periodic class (column 0 is column -2 and column -1
    is column 1) and mirrors it in the walled class (column 0 is column 1
    and column -1 is column -2); in both classes the y-boundary rows equal
    the rows next to them and every interior cell keeps its value, so no
    column is set to zero.  The four corner cells are left out. *)
Theorem C5_tracer_boundaries (nx ny : nat) (field : Arr R) :
  has_shape (nx + 2) (ny + 2) field ->
  exists p w,
    NonLinear.periodic_field field = Ok p /\
    NonLinear.walled_field field = Ok w /\
    (columns_agree (ny + 2) p 0 (-2) /\ columns_agree (ny + 2) p (-1) 1) /\
    (columns_agree (ny + 2) w 0 1 /\ columns_agree (ny + 2) w (-1) (-2)) /\
    zero_gradient_y (nx + 2) p /\
    zero_gradient_y (nx + 2) w /\
    (forall i j : nat, 1 <= i <= nx -> 1 <= j <= ny ->
       cells_agree p (Z.of_nat i) (Z.of_nat j) field (Z.of_nat i) (Z.of_nat j) /\
       cells_agree w (Z.of_nat i) (Z.of_nat j) field (Z.of_nat i) (Z.of_nat j)).
Proof.
  intros Hf.
  destruct (periodic_field_spec _ _ field Hf) as (p & Hp & Hps & Hpc);
    [lia|lia|].
  destruct (walled_field_spec _ _ field Hf) as (w & Hw & Hws & Hwc);
    [lia|lia|].
  exists p, w. split; [done|]. split; [done|].
  split; [|split; [|split; [|split]]].
  - split.
    + eapply (columns_agree_of_src _ _ field p _ _ _ 0 nx Hps);
        [idx|idx|exact Hpc|cells].
    + eapply (columns_agree_of_src _ _ field p _ _ _ (nx + 1) 1 Hps);
        [idx|idx|exact Hpc|cells].
  - split.
    + eapply (columns_agree_of_src _ _ field w _ _ _ 0 1 Hws);
        [idx|idx|exact Hwc|cells].
    + eapply (columns_agree_of_src _ _ field w _ _ _ (nx + 1) nx Hws);
        [idx|idx|exact Hwc|cells].
  - eapply zero_gradient_of_src; [exact Hps|lia|exact Hpc].
  - eapply zero_gradient_of_src; [exact Hws|lia|exact Hwc].
  - intros i j Hi Hj. split.
    + apply (cells_agree_intro _ _ p field _ _ _ _ i j i j Hps Hf);
        [idx|idx|idx|idx|].
      rewrite Hpc by (unfold is_corner; lia). cells.
    + apply (cells_agree_intro _ _ w field _ _ _ _ i j i j Hws Hf);
        [idx|idx|idx|idx|].
      rewrite Hwc by (unfold is_corner; lia). cells.
Qed.

End BoundaryClaims.

(** ** The walled state operation, corners included *)

Section WalledCorners.
Context {R : Type} {SR : Scalar R} {GR : Grid R}.
Context {CL : CornerLaws R} {CU : CornerUniform R}.
Local Open Scope nat_scope.

(** The two copies along y, before the corners are fixed. *)
Lemma edges_y_spec (n m : nat) (a : Arr R) :
  has_shape n m a -> 2 <= m ->
  exists e, (do f <- copy_y a 0 1; copy_y f (-1) (-2)) = Ok e /\
    has_shape n m e /\ forall x y, cell e x y = cell a x (tb_src m y).
Proof.
  intros Ha Hm.
  destruct (copy_y_spec n m a 0%Z 1%Z 0 1 Ha) as (b & Hb & Hbs & Hbc);
    [idx|idx|].
  rewrite Hb. simpl.
  destruct (copy_y_spec n m b (-1)%Z (-2)%Z (m - 1) (m - 2) Hbs)
    as (c & Hc & Hcs & Hcc); [idx|idx|].
  exists c. split; [done|]. split; [done|].
  intros x y. rewrite Hcc, !Hbc. cells.
Qed.

(** When every corner of [e] lies in a two-by-two block that holds one
    value, fixing the corners changes no cell. *)
Lemma fix_uniform (n m : nat) (e : Arr R) :
  has_shape n m e -> 2 <= n -> 2 <= m ->
  (forall i j x y, is_corner n m i j ->
     x = i \/ x = beside n i -> y = j \/ y = beside m j ->
     cell e x y = cell e i j) ->
  forall x y, cell (_fix_boundary_corners e) x y = cell e x y.
Proof.
  intros He Hn Hm Hblock x y.
  destruct (decide ((x = 0 \/ x = n - 1) /\ (y = 0 \/ y = m - 1)))
    as [Hcor|Hcor]; [|by apply (corners_frame n m)].
  destruct (cell_shape_Some n m e x y He) as [c Hc]; [lia|lia|].
  rewrite Hc. apply (corners_uniform n m); try done.
  intros x' y' Hx' Hy'. rewrite <- Hc. by apply Hblock.
Qed.

Lemma top_and_bottom_all (n m : nat) (a : Arr R) :
  has_shape n m a -> 2 <= n -> 2 <= m ->
  (forall y, cell a 0 y = cell a 1 y /\ cell a (n - 1) y = cell a (n - 2) y) ->
  exists a', NonLinear.top_and_bottom a = Ok a' /\ has_shape n m a' /\
    forall x y, cell a' x y = cell a x (tb_src m y).
Proof.
  intros Ha Hn Hm Hx.
  destruct (edges_y_spec n m a Ha Hm) as (e & He & Hes & Hec).
  exists (_fix_boundary_corners e). split.
  { unfold NonLinear.top_and_bottom.
    destruct (copy_y a 0 1) as [f|err]; simpl in *; [|done].
    by destruct (copy_y f (-1) (-2)) as [g|err]; simpl in *;
      [injection He as ->|]. }
  split; [by apply corners_shape|].
  intros x y. rewrite (fix_uniform n m e Hes Hn Hm); [apply Hec|].
  intros i j x' y' [Hi Hj] Hx' Hy'. rewrite !Hec.
  assert (Hty : tb_src m y' = tb_src m j).
  { unfold beside in Hy'. cells. }
  rewrite Hty. destruct Hx' as [-> | ->]; [done|].
  unfold beside. destruct Hi as [-> | ->].
  - rewrite decide_True by done. symmetry. apply Hx.
  - rewrite decide_False by lia. symmetry. apply Hx.
Qed.

Lemma walled_field_all (n m : nat) (a : Arr R) :
  has_shape n m a -> 2 <= n -> 2 <= m ->
  exists a', NonLinear.walled_field a = Ok a' /\ has_shape n m a' /\
    forall x y, cell a' x y = cell a (wall_src n x) (tb_src m y).
Proof.
  intros Ha Hn Hm. unfold NonLinear.walled_field.
  destruct (copy_x_spec n m a 0%Z 1%Z 0 1 Ha)
    as (b & Hb & Hbs & Hbc); [idx|idx|].
  rewrite Hb. simpl.
  destruct (copy_x_spec n m b (-1)%Z (-2)%Z (n - 1) (n - 2) Hbs)
    as (c & Hc & Hcs & Hcc); [idx|idx|].
  rewrite Hc. simpl.
  assert (Hsrc : forall x y, cell c x y = cell a (wall_src n x) y).
  { intros x y. rewrite Hcc, !Hbc. unfold wall_src. cells. }
  destruct (top_and_bottom_all n m c Hcs Hn Hm) as (d & Hd & Hds & Hdc).
  { intros y. rewrite !Hsrc. unfold wall_src. split; cells. }
  exists d. split; [done|]. split; [done|].
  intros x y. by rewrite Hdc, Hsrc.
Qed.

Lemma walled_u_all (n m : nat) (a : Arr R) :
  has_shape n m a -> 3 <= n -> 2 <= m ->
  exists a', walled_u a = Ok a' /\ has_shape n m a' /\
    forall x y,
      cell a' x y
      = if decide (x = 0 \/ x = 1 \/ x = n - 1 \/ x = n - 2)
        then (if decide (x < n /\ y < m) then Some fzero else None)
        else cell a x (tb_src m y).
Proof.
  intros Ha Hn Hm. unfold walled_u.
  destruct (fill_x_spec n m a 0%Z 0 fzero Ha)
    as (b & Hb & Hbs & Hbc); [idx|].
  rewrite Hb. simpl.
  destruct (fill_x_spec n m b 1%Z 1 fzero Hbs)
    as (c & Hc & Hcs & Hcc); [idx|].
  rewrite Hc. simpl.
  destruct (fill_x_spec n m c (-1)%Z (n - 1) fzero Hcs)
    as (d & Hd & Hds & Hdc); [idx|].
  rewrite Hd. simpl.
  destruct (fill_x_spec n m d (-2)%Z (n - 2) fzero Hds)
    as (e & He & Hes & Hec); [idx|].
  rewrite He. simpl.
  assert (Hsrc : forall x y,
            cell e x y
            = if decide (x = 0 \/ x = 1 \/ x = n - 1 \/ x = n - 2)
              then (if decide (y < m) then Some fzero else None)
              else cell a x y).
  { intros x y. rewrite Hec, Hdc, Hcc, Hbc.
    repeat case_decide; try lia; done. }
  destruct (top_and_bottom_all n m e Hes) as (f & Hf & Hfs & Hfc);
    [lia|lia| |].
  { intros y. rewrite !Hsrc. split; repeat case_decide; try lia; done. }
  exists f. split; [done|]. split; [done|].
  intros x y. rewrite Hfc, Hsrc. unfold tb_src.
  repeat case_decide; try lia; done.
Qed.

Lemma whole_columns_agree_of_src (n m : nat) (a a' : Arr R)
    (src : nat -> nat) (i i' : Z) (x x' : nat) :
  has_shape n m a' -> py_index n i = Ok x -> py_index n i' = Ok x' ->
  (forall x y, cell a' x y = cell a (src x) (tb_src m y)) ->
  src x = src x' -> whole_columns_agree m a' i i'.
Proof.
  intros Ha' Hi Hi' Hc Hsrc j Hj.
  apply (same_cell_intro n m a' _ _ _ _ x j x' j Ha'); [done|idx|done|idx|].
  by rewrite !Hc, Hsrc.
Qed.

Lemma whole_rows_agree_of_src (n m : nat) (a a' : Arr R)
    (src : nat -> nat) :
  has_shape n m a' -> 2 <= m ->
  (forall x y, cell a' x y = cell a (src x) (tb_src m y)) ->
  whole_rows_agree n a' 0 1 /\ whole_rows_agree n a' (-1) (-2).
Proof.
  intros Ha' Hm Hc. split; intros i Hi.
  - apply (same_cell_intro n m a' _ _ _ _ i 0 i 1 Ha'); [idx|idx|idx|idx|].
    rewrite !Hc. cells.
  - apply (same_cell_intro n m a' _ _ _ _ i (m - 1) i (m - 2) Ha');
      [idx|idx|idx|idx|].
    rewrite !Hc. cells.
Qed.

(** C4. The walled state operation returns an along-x velocity that is
    zero in every cell of columns 0, 1, -1 and -2, a transverse velocity
    and a height whose boundary columns 0 and -1 equal columns 1 and -2 in
    every cell, and three fields whose y-boundary rows 0 and -1 equal rows
    1 and -2 in every cell, the corner cells included: before the corners
    are fixed each of them lies in a block of one value, which
    [_fix_boundary_corners] keeps. *)
Theorem C4_walled_state (nx ny : nat) (u v phi : Arr R) :
  has_shape (nx + 3) (ny + 2) u ->
  has_shape (nx + 2) (ny + 3) v ->
  has_shape (nx + 2) (ny + 2) phi ->
  exists u' v' phi',
    NonLinear.walled_state (u, v, phi) = Ok (u', v', phi') /\
    (whole_column_is_zero (ny + 2) u' 0 /\
     whole_column_is_zero (ny + 2) u' 1 /\
     whole_column_is_zero (ny + 2) u' (-1) /\
     whole_column_is_zero (ny + 2) u' (-2)) /\
    (whole_columns_agree (ny + 3) v' 0 1 /\
     whole_columns_agree (ny + 3) v' (-1) (-2)) /\
    (whole_columns_agree (ny + 2) phi' 0 1 /\
     whole_columns_agree (ny + 2) phi' (-1) (-2)) /\
    (whole_rows_agree (nx + 3) u' 0 1 /\
     whole_rows_agree (nx + 3) u' (-1) (-2)) /\
    (whole_rows_agree (nx + 2) v' 0 1 /\
     whole_rows_agree (nx + 2) v' (-1) (-2)) /\
    (whole_rows_agree (nx + 2) phi' 0 1 /\
     whole_rows_agree (nx + 2) phi' (-1) (-2)).
Proof.
  intros Hu Hv Hphi.
  destruct (walled_u_all _ _ u Hu) as (u' & Hu' & Hus & Huc); [lia|lia|].
  destruct (walled_field_all _ _ v Hv) as (v' & Hv' & Hvs & Hvc); [lia|lia|].
  destruct (walled_field_all _ _ phi Hphi) as (p' & Hp' & Hps & Hpc);
    [lia|lia|].
  exists u', v', p'. split; [by apply walled_state_ok|].
  assert (Hzero : forall (i : Z) (x : nat),
             py_index (nx + 3) i = Ok x ->
             (x = 0 \/ x = 1 \/ x = nx + 2 \/ x = nx + 1) ->
             whole_column_is_zero (ny + 2) u' i).
  { intros i x Hi Hx j Hj.
    apply (at_cell (nx + 3) (ny + 2) u' _ _ x j fzero Hus Hi); [idx|].
    rewrite Huc. repeat case_decide; try lia; done. }
  split; [|split; [|split; [|split; [|split]]]].
  - split; [|split; [|split]].
    + apply (Hzero _ 0); [idx|lia].
    + apply (Hzero _ 1); [idx|lia].
    + apply (Hzero _ (nx + 2)); [idx|lia].
    + apply (Hzero _ (nx + 1)); [idx|lia].
  - split.
    + eapply (whole_columns_agree_of_src _ _ v v' (wall_src (nx + 2)) _ _ 0 1
               Hvs); [idx|idx|done|unfold wall_src; cells].
    + eapply (whole_columns_agree_of_src _ _ v v' (wall_src (nx + 2)) _ _
               (nx + 1) nx Hvs); [idx|idx|done|unfold wall_src; cells].
  - split.
    + eapply (whole_columns_agree_of_src _ _ phi p' (wall_src (nx + 2)) _ _
               0 1 Hps); [idx|idx|done|unfold wall_src; cells].
    + eapply (whole_columns_agree_of_src _ _ phi p' (wall_src (nx + 2)) _ _
               (nx + 1) nx Hps); [idx|idx|done|unfold wall_src; cells].
  - split; intros i Hi.
    + apply (same_cell_intro _ _ u' _ _ _ _ i 0 i 1 Hus); [idx|idx|idx|idx|].
      rewrite !Huc. unfold tb_src. repeat case_decide; try lia; done.
    + apply (same_cell_intro _ _ u' _ _ _ _ i (ny + 1) i ny Hus);
        [idx|idx|idx|idx|].
      rewrite !Huc. unfold tb_src.
      repeat case_decide; try lia; try done; f_equal; lia.
  - by apply (whole_rows_agree_of_src _ (ny + 3) v v' (wall_src (nx + 2)));
      [|lia|].
  - by apply (whole_rows_agree_of_src _ (ny + 2) phi p'
                (wall_src (nx + 2))); [|lia|].
Qed.

End WalledCorners.

(** ** The integer instance meets what is assumed *)

Section CellFacts.
Context {R : Type} {SR : Scalar R}.
Local Open Scope nat_scope.

Lemma set_cell_shape (n m : nat) (a : Arr R) (i j : nat) (x : R) :
  has_shape n m a -> has_shape n m (set_cell a i j x).
Proof.
  intros [Hn Hm]. unfold set_cell.
  destruct (a !! i) as [row|] eqn:Hrow; [|done].
  split; [by rewrite length_insert|].
  apply Forall_insert; [done|]. rewrite length_insert.
  rewrite Forall_forall in Hm. apply Hm. by eapply list_elem_of_lookup_2.
Qed.

Lemma cell_set_cell_ne (a : Arr R) (i j i' j' : nat) (x : R) :
  i <> i' \/ j <> j' -> cell (set_cell a i j x) i' j' = cell a i' j'.
Proof.
  intros Hne. unfold set_cell, cell.
  destruct (a !! i) as [row|] eqn:Hrow; [|done].
  destruct (decide (i = i')) as [<-|Hi].
  - rewrite list_lookup_insert_eq by (by eapply lookup_lt_Some).
    rewrite Hrow. apply list_lookup_insert_ne. lia.
  - by rewrite list_lookup_insert_ne by done.
Qed.

Lemma set_cell_zeros (n m : nat) (i j : nat) :
  set_cell (zeros (R:=R) n m) i j fzero = zeros n m.
Proof.
  unfold set_cell, zeros.
  destruct (replicate n (replicate m fzero) !! i) as [row|] eqn:Hrow; [|done].
  apply lookup_replicate in Hrow as [-> _].
  by rewrite !insert_replicate.
Qed.

Lemma cell_zeros (n m : nat) (i j : nat) :
  cell (zeros (R:=R) n m) i j = None \/ cell (zeros (R:=R) n m) i j = Some fzero.
Proof.
  unfold cell, zeros.
  destruct (replicate n (replicate m fzero) !! i) as [row|] eqn:Hrow;
    [|by left].
  apply lookup_replicate in Hrow as [-> _].
  destruct (replicate m fzero !! j) as [c|] eqn:Hc; [|by left].
  apply lookup_replicate in Hc as [-> _]. by right.
Qed.

Lemma ncols_shape (n m : nat) (a : Arr R) :
  has_shape n m a -> a <> [] -> ncols a = m.
Proof.
  intros [_ Hm] Ha. destruct a as [|row a]; [done|]. by inversion Hm.
Qed.

End CellFacts.

Import ZInst.

Lemma zero_laws_Z : ZeroLaws Z.
Proof. split; simpl; intros; lia. Qed.

Lemma corner_laws_Z : CornerLaws Z.
Proof.
  split.
  - intros n m a Ha. simpl. unfold ZInst.corner_fix.
    by repeat apply set_cell_shape.
  - intros n m a i j Ha Hcor. simpl. unfold ZInst.corner_fix.
    destruct (decide (a = [])) as [->|Hne]; [done|].
    rewrite (ncols_shape n m a Ha Hne). destruct Ha as [Hn _]. rewrite Hn.
    unfold is_corner in Hcor.
    rewrite !cell_set_cell_ne by lia. done.
Qed.

Lemma cell_set_cell_eq (a : Arr Z) (i j : nat) (x : Z) :
  is_Some (cell a i j) -> cell (set_cell a i j x) i j = Some x.
Proof.
  unfold set_cell, cell. destruct (a !! i) as [row|] eqn:Hrow; [|by intros []].
  intros Hj. rewrite list_lookup_insert_eq by (by eapply lookup_lt_Some).
  apply list_lookup_insert_eq. by apply lookup_lt_is_Some.
Qed.

Lemma corner_uniform_Z : CornerUniform Z.
Proof.
  split. intros n m a i j c Ha Hn Hm [Hi Hj] Hblock. simpl.
  unfold ZInst.corner_fix.
  assert (Hne : a <> []) by (destruct Ha as [Hl _]; destruct a; simpl in *; [lia|done]).
  rewrite (ncols_shape n m a Ha Hne).
  pose proof Ha as [Hlen _]. rewrite Hlen.
  assert (Hval : forall x y, (x = i \/ x = beside n i) ->
                             (y = j \/ y = beside m j) ->
                             default 0 (cell a x y) = c).
  { intros x y Hx Hy. by rewrite (Hblock x y Hx Hy). }
  assert (Hmean : ((c + c) / 2 = c)%Z).
  { replace (c + c)%Z with (c * 2)%Z by lia. by apply Z.div_mul. }
  assert (Hs : forall (b : Arr Z) x y, has_shape n m b -> (x < n)%nat ->
                 (y < m)%nat -> is_Some (cell b x y)).
  { intros b x y Hb. by apply cell_shape_Some. }
  unfold beside in Hval.
  destruct Hi as [-> | ->]; destruct Hj as [-> | ->].
  - rewrite !cell_set_cell_ne by lia.
    rewrite cell_set_cell_eq by (apply (Hs a); [done|lia|lia]).
    rewrite !Hval by (repeat case_decide; lia). by rewrite Hmean.
  - rewrite !cell_set_cell_ne by lia.
    rewrite cell_set_cell_eq
      by (apply Hs; [by repeat apply set_cell_shape|lia|lia]).
    rewrite !Hval by (repeat case_decide; lia). by rewrite Hmean.
  - rewrite !cell_set_cell_ne by lia.
    rewrite cell_set_cell_eq
      by (apply Hs; [by repeat apply set_cell_shape|lia|lia]).
    rewrite !Hval by (repeat case_decide; lia). by rewrite Hmean.
  - rewrite cell_set_cell_eq
      by (apply Hs; [by repeat apply set_cell_shape|lia|lia]).
    rewrite !Hval by (repeat case_decide; lia). by rewrite Hmean.
Qed.

(** ** Fields of zeros *)

Lemma bind_Ok {A B : Type} (a : A) (k : A -> Result B) : bind (Ok a) k = k a.
Proof. reflexivity. Qed.

Section ZeroFacts.
Context {R : Type} {SR : Scalar R} {ZL : ZeroLaws R}.
Local Open Scope nat_scope.

Lemma zip_with_replicate_min {A B C : Type} (f : A -> B -> C) (n k : nat)
    (x : A) (y : B) :
  zip_with f (replicate n x) (replicate k y) = replicate (n `min` k) (f x y).
Proof.
  revert k. induction n as [|n IH]; intros [|k]; simpl; try done.
  by rewrite IH.
Qed.

Lemma map_replicate {A B : Type} (f : A -> B) (n : nat) (x : A) :
  map f (replicate n x) = replicate n (f x).
Proof. induction n; simpl; [done|]. by f_equal. Qed.

Lemma inner_x_zeros (n m : nat) :
  inner_x (zeros (R:=R) (S (S n)) m) = zeros n m.
Proof. apply inner_replicate. Qed.

Lemma inner_y_zeros (n m : nat) :
  inner_y (zeros (R:=R) n (S (S m))) = zeros n m.
Proof.
  unfold inner_y, zeros. by rewrite map_replicate, inner_replicate.
Qed.

Lemma interior_zeros (n m : nat) :
  interior (zeros (R:=R) (S (S n)) (S (S m))) = zeros n m.
Proof. unfold interior. by rewrite inner_x_zeros, inner_y_zeros. Qed.

Lemma neg_zeros (n m : nat) : neg (zeros (R:=R) n m) = zeros n m.
Proof. unfold neg, zeros. by rewrite !map_replicate, fneg_zero. Qed.

Lemma smul_zeros (c : R) (n m : nat) : smul c (zeros n m) = zeros n m.
Proof. unfold smul, zeros. by rewrite !map_replicate, fmul_zero_r. Qed.

Lemma square_zeros (n m : nat) : square (zeros (R:=R) n m) = zeros n m.
Proof. unfold square, zeros. by rewrite !map_replicate, fmul_zero_r. Qed.

Lemma zeros_like_zeros (n m : nat) :
  zeros_like (zeros (R:=R) n m) = zeros n m.
Proof. apply zeros_like_shape, has_shape_zeros. Qed.

Lemma bc_row_same (f : R -> R -> R) (r1 r2 : list R) :
  length r1 = length r2 -> bc_row f r1 r2 = Ok (zip_with f r1 r2).
Proof. intros Hl. unfold bc_row. by rewrite Hl, Nat.eqb_refl. Qed.

Lemma zipM_zero_r (f : R -> R -> R) (n m : nat) (a : Arr R) :
  (forall x, f x fzero = fzero) -> has_shape n m a ->
  zipM (bc_row f) a (zeros n m) = Ok (zeros n m).
Proof.
  intros Hf [Hn Hm]. subst n. unfold zeros.
  induction Hm as [|row a Hrow _ IH]; simpl; [done|].
  rewrite bc_row_same by (by rewrite length_replicate). simpl.
  rewrite IH. simpl. do 2 f_equal.
  subst m. clear -Hf. induction row as [|x row IH]; simpl; [done|].
  by rewrite Hf, IH.
Qed.

(** An array times, plus or minus a field of zeros of its shape, for an
    operation that maps a zero on the right to zero. *)
Lemma binop_zero_r (f : R -> R -> R) (n m : nat) (a : Arr R) :
  (forall x, f x fzero = fzero) -> has_shape n m a ->
  binop f a (zeros n m) = Ok (zeros n m).
Proof.
  intros Hf Ha. unfold binop.
  replace (length a) with n by (by destruct Ha).
  unfold zeros at 1. rewrite length_replicate, Nat.eqb_refl.
  by apply zipM_zero_r.
Qed.

Lemma binop_zeros (f : R -> R -> R) (n m : nat) :
  f fzero fzero = fzero ->
  binop f (zeros n m) (zeros n m) = Ok (zeros n m).
Proof.
  intros Hf. unfold binop, zeros. rewrite Nat.eqb_refl.
  induction n as [|n IH]; simpl; [done|].
  rewrite bc_row_same by done. simpl. rewrite IH. simpl.
  by rewrite zip_with_replicate_min, Nat.min_id, Hf.
Qed.

Lemma same_shape_refl (a : Arr R) : same_shape a a = true.
Proof.
  unfold same_shape. rewrite Nat.eqb_refl. simpl.
  induction a as [|row a IH]; simpl; [done|]. by rewrite Nat.eqb_refl.
Qed.

Lemma iop_zeros (f : R -> R -> R) (n m : nat) :
  f fzero fzero = fzero ->
  iop f (zeros n m) (zeros n m) = Ok (zeros n m).
Proof.
  intros Hf. unfold iop. rewrite binop_zeros by done. simpl.
  by rewrite same_shape_refl.
Qed.

Lemma add_zeros (n m : nat) : add (zeros (R:=R) n m) (zeros n m) = Ok (zeros n m).
Proof. apply binop_zeros, fadd_zero. Qed.

Lemma sub_zeros (n m : nat) : sub (zeros (R:=R) n m) (zeros n m) = Ok (zeros n m).
Proof. apply binop_zeros, fsub_zero. Qed.

Lemma mul_zeros (n m : nat) : mul (zeros (R:=R) n m) (zeros n m) = Ok (zeros n m).
Proof. apply binop_zeros, fmul_zero_r. Qed.

Lemma iadd_zeros (n m : nat) :
  iadd (zeros (R:=R) n m) (zeros n m) = Ok (zeros n m).
Proof. apply iop_zeros, fadd_zero. Qed.

Lemma isub_zeros (n m : nat) :
  isub (zeros (R:=R) n m) (zeros n m) = Ok (zeros n m).
Proof. apply iop_zeros, fsub_zero. Qed.

Lemma mapM_replicate_Ok {A B : Type} (f : A -> Result B) (n : nat) (x : A)
    (y : B) :
  f x = Ok y -> mapM f (replicate n x) = Ok (replicate n y).
Proof.
  intros Hf. induction n as [|n IH]; simpl; [done|]. by rewrite Hf, IH.
Qed.

Lemma mapM_replicate_Raise {A B : Type} (f : A -> Result B) (n : nat) (x : A)
    (e : Exn) :
  f x = Raise e -> mapM f (replicate (S n) x) = Raise e.
Proof. intros Hf. simpl. by rewrite Hf. Qed.

(** A single row, such as the Coriolis factor [f0 + beta*y], times a
    field of zeros against which it is broadcast. *)
Lemma zip_with_zero_r (row : list R) (m : nat) :
  length row = m -> zip_with fmul row (replicate m fzero) = replicate m fzero.
Proof.
  intros <-. induction row as [|x row IH]; simpl; [done|].
  by rewrite fmul_zero_r, IH.
Qed.

Lemma mul_row_zeros (row : list R) (n m : nat) :
  length row = m -> mul [row] (zeros n m) = Ok (zeros n m).
Proof.
  intros Hrow.
  assert (Hbc : bc_row fmul row (replicate m fzero) = Ok (replicate m fzero)).
  { rewrite bc_row_same by (by rewrite length_replicate).
    by rewrite zip_with_zero_r. }
  unfold mul, binop, zeros. rewrite length_replicate. simpl length.
  destruct (decide (n = 1)) as [->|Hn].
  - simpl. by rewrite Hbc.
  - rewrite (proj2 (Nat.eqb_neq 1 n)) by lia.
    by apply mapM_replicate_Ok.
Qed.

Lemma has_shape_replicate (n k : nat) (row : list R) :
  length row = k -> has_shape n k (replicate n row).
Proof.
  intros Hrow. split; [apply length_replicate|]. by apply Forall_replicate.
Qed.

Lemma has_shape_smul (c : R) (n k : nat) (a : Arr R) :
  has_shape n k a -> has_shape n k (smul c a).
Proof.
  intros [Hn Hk]. unfold smul. split; [by rewrite length_map|].
  apply Forall_forall. intros row Hrow.
  apply list_elem_of_In, in_map_iff in Hrow as (row0 & <- & Hin).
  rewrite length_map. rewrite Forall_forall in Hk.
  apply Hk. by apply list_elem_of_In.
Qed.

Section Damping.
Context {GR : Grid R} {IR : Integrator R}.

(** With a sponge of [s >= 1] coefficients that fit the rows, the damping
    of a field of zeros is a field of zeros. *)
Lemma damping_zeros (m : Model R) (n k : nat) :
  length (sponge m) = sponge_ny m -> 1 <= sponge_ny m <= k ->
  damping m (zeros n k) = Ok (zeros n k).
Proof.
  intros Hlen Hs. unfold damping. rewrite zeros_like_zeros.
  unfold assign_first_cols, assign_last_cols, zeros at 1.
  set (row0 := replicate k (fzero : R)).
  set (row1 := take 0 row0 ++ sponge m ++ drop (sponge_ny m) row0).
  assert (Hl0 : length row0 = k) by apply length_replicate.
  assert (Hl1 : length row1 = k).
  { unfold row1. rewrite !length_app, length_take, length_drop, Hl0. lia. }
  rewrite (mapM_replicate_Ok _ n row0 row1).
  2:{ unfold assign_slice. rewrite Hl0.
      replace (sponge_ny m `min` k - 0) with (sponge_ny m) by lia.
      rewrite Hlen, Nat.eqb_refl. unfold row1.
      by replace (sponge_ny m `min` k) with (sponge_ny m) by lia. }
  rewrite bind_Ok.
  set (row2 := take (k - sponge_ny m) row1 ++ reverse (sponge m)
               ++ drop k row1).
  assert (Hl2 : length row2 = k).
  { unfold row2. rewrite !length_app, length_take, length_drop,
      length_reverse, Hl1. lia. }
  rewrite (mapM_replicate_Ok _ n row1 row2).
  2:{ unfold assign_slice. rewrite Hl1.
      destruct (sponge_ny m) as [|s'] eqn:Hsn; [lia|].
      replace (k - (k - S s')) with (S s') by lia.
      by rewrite length_reverse, Hlen, Nat.eqb_refl. }
  rewrite bind_Ok. apply binop_zero_r; [apply fmul_zero_r|].
  by apply has_shape_smul, has_shape_replicate.
Qed.

(** With an empty sponge ([ny < 7]) the second slice assignment of
    [damping] is over the whole row and cannot take the empty profile. *)
Lemma damping_empty_sponge (m : Model R) (n k : nat) (var : Arr R) :
  sponge_ny m = 0 -> sponge m = [] -> has_shape (S n) (S k) var ->
  damping m var = Raise ValueError.
Proof.
  intros Hs Hsp Hvar. unfold damping.
  rewrite (zeros_like_shape _ _ _ Hvar), Hs, Hsp.
  unfold assign_first_cols, assign_last_cols, zeros at 1.
  set (row0 := replicate (S k) (fzero : R)).
  rewrite (mapM_replicate_Ok _ (S n) row0 row0) by done.
  rewrite bind_Ok.
  rewrite (mapM_replicate_Raise _ n row0 ValueError); [done|].
  unfold assign_slice, row0. by rewrite length_replicate.
Qed.

Lemma damping_zeros_cases (m : Model R) (n k : nat) :
  length (sponge m) = sponge_ny m -> sponge_ny m <= k ->
  damping m (zeros n k) = Ok (zeros n k) \/
  damping m (zeros n k) = Raise ValueError.
Proof.
  intros Hlen Hs.
  destruct (decide (sponge_ny m = 0)) as [Hz|Hnz];
    [|left; apply damping_zeros; [done|lia]].
  assert (Hsp : sponge m = []).
  { rewrite Hz in Hlen. by destruct (sponge m). }
  destruct n as [|n].
  { by left. }
  destruct k as [|k].
  { left. unfold damping. rewrite zeros_like_zeros, Hz, Hsp.
    unfold assign_first_cols, assign_last_cols, zeros at 1.
    rewrite (mapM_replicate_Ok _ (S n) (replicate 0 fzero) (replicate 0 fzero))
      by done.
    rewrite bind_Ok.
    rewrite (mapM_replicate_Ok _ (S n) (replicate 0 fzero) (replicate 0 fzero))
      by done.
    rewrite bind_Ok.
    apply binop_zero_r; [apply fmul_zero_r|].
    by apply has_shape_smul, has_shape_replicate. }
  right. eapply damping_empty_sponge; [done|done|apply has_shape_zeros].
Qed.

End Damping.

End ZeroFacts.

(** ** A model at rest *)

Section AtRest.
Context {R : Type} {SR : Scalar R} {GR : Grid R} {IR : Integrator R}.
Context {ZL : ZeroLaws R} {GL : GridZeroLaws R} {IL : IntegratorZeroLaws R}.
Local Open Scope nat_scope.

Lemma grid_u_zeros (ge : Geom R) :
  grid_u ge = zeros (S (S (S (g_nx ge)))) (S (S (g_ny ge))).
Proof. unfold grid_u. f_equal; lia. Qed.

Lemma grid_v_zeros (ge : Geom R) :
  grid_v ge = zeros (S (S (g_nx ge))) (S (S (S (g_ny ge)))).
Proof. unfold grid_v. f_equal; lia. Qed.

Lemma grid_phi_zeros (ge : Geom R) :
  grid_phi ge = zeros (S (S (g_nx ge))) (S (S (g_ny ge))).
Proof. unfold grid_phi. f_equal; lia. Qed.

Lemma uvatuv_zeros_S (ge : Geom R) :
  uvatuv ge (zeros (S (S (S (g_nx ge)))) (S (S (g_ny ge))))
            (zeros (S (S (g_nx ge))) (S (S (S (g_ny ge)))))
  = (zeros (g_nx ge) (S (g_ny ge)), zeros (S (g_nx ge)) (g_ny ge)).
Proof.
  rewrite <- grid_u_zeros, <- grid_v_zeros, uvatuv_zeros.
  by rewrite !Nat.add_1_r.
Qed.

Lemma divergence_zeros_S (ge : Geom R) :
  divergence ge (zeros (S (S (S (g_nx ge)))) (S (S (g_ny ge))))
                (zeros (S (S (g_nx ge))) (S (S (S (g_ny ge)))))
  = zeros (g_nx ge) (g_ny ge).
Proof. by rewrite <- grid_u_zeros, <- grid_v_zeros, divergence_zeros. Qed.

Lemma coriolis_mul_u (m : Model R) (n : nat) :
  mul (sadd (f0 m) (smul (beta m) (uy m))) (zeros n (g_ny (geom m)))
  = Ok (zeros n (g_ny (geom m))).
Proof.
  unfold uy, sadd, smul. simpl map. apply mul_row_zeros.
  by rewrite !length_map, coord_uy_length.
Qed.

Lemma coriolis_mul_v (m : Model R) (n : nat) :
  mul (sadd (f0 m) (smul (beta m) (vy m))) (zeros n (S (g_ny (geom m))))
  = Ok (zeros n (S (g_ny (geom m)))).
Proof.
  unfold vy, sadd, smul. simpl map. apply mul_row_zeros.
  by rewrite !length_map, coord_vy_length, Nat.add_1_r.
Qed.

Lemma coriolis_neg_mul_v (m : Model R) (n : nat) :
  mul (neg (sadd (f0 m) (smul (beta m) (vy m)))) (zeros n (S (g_ny (geom m))))
  = Ok (zeros n (S (g_ny (geom m)))).
Proof.
  unfold vy, neg, sadd, smul. simpl map. apply mul_row_zeros.
  by rewrite !length_map, coord_vy_length, Nat.add_1_r.
Qed.

Ltac zeros_step :=
  first
    [ rewrite bind_Ok
    | rewrite inner_x_zeros | rewrite inner_y_zeros | rewrite interior_zeros
    | rewrite x_average_zeros | rewrite y_average_zeros
    | rewrite diffx_zeros | rewrite diffy_zeros | rewrite del2_zeros
    | rewrite square_zeros | rewrite neg_zeros | rewrite smul_zeros
    | rewrite mul_zeros | rewrite add_zeros | rewrite sub_zeros
    | rewrite iadd_zeros | rewrite isub_zeros
    | rewrite coriolis_mul_u | rewrite coriolis_mul_v
    | rewrite coriolis_neg_mul_v ].

Ltac zeros_all := repeat (zeros_step; cbv beta).

(** The tendencies of [nonlinear_terms] for a model at rest: zero when
    they are computed. *)
Lemma nonlinear_terms_at_rest (kphi : R) (m : Model R) :
  still m -> sponge_ok m ->
  (nonlinear_terms kphi m = Ok (zero3 (geom m)) \/
   nonlinear_terms kphi m = Raise ValueError) /\
  (7 <= ny m -> nonlinear_terms kphi m = Ok (zero3 (geom m))).
Proof.
  intros (_ & _ & Hu & Hv & Hphi) [Hsn Hsl].
  assert (Hle : sponge_ny m <= g_ny (geom m)).
  { rewrite Hsn. unfold ny. apply Nat.Div0.div_le_upper_bound. lia. }
  unfold nonlinear_terms, u, v, phi. rewrite Hu, Hv, Hphi.
  rewrite grid_u_zeros, grid_v_zeros, grid_phi_zeros, uvatuv_zeros_S.
  zeros_all.
  assert (Hok : 7 <= ny m -> 1 <= sponge_ny m).
  { intros H7. rewrite Hsn. apply Nat.div_le_lower_bound; lia. }
  split.
  - destruct (damping_zeros_cases m (S (g_nx (geom m))) (g_ny (geom m)))
      as [Hd|Hd]; [done|done| |rewrite Hd; by right].
    rewrite Hd. zeros_all.
    destruct (damping_zeros_cases m (g_nx (geom m)) (S (g_ny (geom m))))
      as [Hd'|Hd']; [done|lia| |rewrite Hd'; by right].
    rewrite Hd'. zeros_all. by left.
  - intros H7. specialize (Hok H7).
    rewrite !damping_zeros by (done || lia). zeros_all. done.
Qed.

Lemma linear_terms_at_rest (m : Model R) :
  still m -> sponge_ok m ->
  (Linear._dynamics_terms_linear m = Ok (zero3 (geom m)) \/
   Linear._dynamics_terms_linear m = Raise ValueError) /\
  (7 <= ny m -> Linear._dynamics_terms_linear m = Ok (zero3 (geom m))).
Proof.
  intros (_ & _ & Hu & Hv & Hphi) [Hsn Hsl].
  assert (Hle : sponge_ny m <= g_ny (geom m)).
  { rewrite Hsn. unfold ny. apply Nat.Div0.div_le_upper_bound. lia. }
  unfold Linear._dynamics_terms_linear, u, v, phi.
  rewrite Hu, Hv, Hphi.
  rewrite grid_u_zeros, grid_v_zeros, grid_phi_zeros, uvatuv_zeros_S,
    divergence_zeros_S.
  zeros_all.
  assert (Hok : 7 <= ny m -> 1 <= sponge_ny m).
  { intros H7. rewrite Hsn. apply Nat.div_le_lower_bound; lia. }
  split.
  - destruct (damping_zeros_cases m (g_nx (geom m)) (g_ny (geom m)))
      as [Hd0|Hd0]; [done|done| |rewrite Hd0; by right].
    rewrite Hd0. zeros_all.
    destruct (damping_zeros_cases m (S (g_nx (geom m))) (g_ny (geom m)))
      as [Hd|Hd]; [done|done| |rewrite Hd; by right].
    rewrite Hd. zeros_all.
    destruct (damping_zeros_cases m (g_nx (geom m)) (S (g_ny (geom m))))
      as [Hd'|Hd']; [done|lia| |rewrite Hd'; by right].
    rewrite Hd'. zeros_all. by left.
  - intros H7. specialize (Hok H7).
    rewrite !damping_zeros by (done || lia). zeros_all. done.
Qed.

Lemma state_at_rest (m : Model R) :
  still m -> state m = zero3 (geom m).
Proof.
  intros (_ & _ & Hu & Hv & Hphi). unfold state, u, v, phi.
  rewrite Hu, Hv, Hphi, grid_u_zeros, grid_v_zeros, grid_phi_zeros.
  by rewrite !interior_zeros.
Qed.

Lemma triple_add_zero3 (ge : Geom R) :
  triple_op add (zero3 ge) (zero3 ge) = Ok (zero3 ge).
Proof. unfold triple_op, zero3. by rewrite !add_zeros. Qed.

Lemma triple_zeros_like_zero3 (ge : Geom R) :
  triple_zeros_like (zero3 ge) = zero3 ge.
Proof. unfold triple_zeros_like, zero3. by rewrite !zeros_like_zeros. Qed.

(** [NonLinShallowWater.rhs] at rest *)
Lemma nonlinear_rhs_at_rest (m : Model R) :
  still m -> sponge_ok m ->
  (NonLinear.rhs m = Ok (zero3 (geom m)) \/
   NonLinear.rhs m = Raise ValueError) /\
  (7 <= ny m -> NonLinear.rhs m = Ok (zero3 (geom m))).
Proof.
  intros Hrest Hsp. unfold NonLinear.rhs.
  destruct (nonlinear_terms_at_rest (nu m) m Hrest Hsp) as [Hc H7].
  destruct Hrest as (Hfs & _). rewrite Hfs. split.
  - destruct Hc as [-> | ->]; [by left|by right].
  - intros Hny. by rewrite (H7 Hny).
Qed.

(** [ShallowWater._rhs] at rest, for both [_dynamics_terms] of linear.py *)
Lemma linear_rhs_at_rest (dyn : Model R -> Result (Triple R)) (m : Model R) :
  dyn = Linear._dynamics_terms \/ dyn = Linear._dynamics_terms_linear ->
  still m -> sponge_ok m ->
  (Linear._rhs dyn m = Ok (zero3 (geom m)) \/
   Linear._rhs dyn m = Raise ValueError) /\
  (7 <= ny m -> Linear._rhs dyn m = Ok (zero3 (geom m))).
Proof.
  intros Hdyn Hrest Hsp. unfold Linear._rhs, Linear.rhs.
  assert (Hd : (dyn m = Ok (zero3 (geom m)) \/ dyn m = Raise ValueError) /\
               (7 <= ny m -> dyn m = Ok (zero3 (geom m)))).
  { destruct Hdyn as [-> | ->];
      [apply nonlinear_terms_at_rest|apply linear_terms_at_rest]; done. }
  rewrite (state_at_rest m Hrest), triple_zeros_like_zero3.
  destruct Hrest as (Hfs & _). rewrite Hfs. simpl add_forcings.
  rewrite bind_Ok. destruct Hd as [Hc H7]. split.
  - destruct Hc as [-> | ->]; [|by right].
    rewrite !bind_Ok, triple_add_zero3, bind_Ok, triple_add_zero3. by left.
  - intros Hny. rewrite (H7 Hny).
    by rewrite !bind_Ok, triple_add_zero3, bind_Ok, triple_add_zero3.
Qed.

Lemma pad_zero_zeros (n k : nat) :
  pad_zero k (zeros (R:=R) n k) = zeros (n + 2) (k + 2).
Proof.
  unfold pad_zero, zeros. rewrite map_replicate.
  replace (fzero :: replicate k fzero ++ [fzero])
    with (replicate (k + 2) (fzero : R)).
  2:{ replace (k + 2) with (S (k + 1)) by lia. simpl. f_equal.
      by rewrite (replicate_add k 1). }
  replace (n + 2) with (S (n + 1)) by lia. simpl. f_equal.
  by rewrite (replicate_add n 1).
Qed.

Lemma set_interior_all_zeros (n k : nat) :
  set_interior (zeros (R:=R) (S (S n)) (S (S k))) (zeros n k)
  = Ok (zeros (S (S n)) (S (S k))).
Proof.
  replace (S (S n)) with (n + 2) by lia. replace (S (S k)) with (k + 2) by lia.
  rewrite set_interior_zeros by apply has_shape_zeros.
  by rewrite pad_zero_zeros.
Qed.

Lemma item_replicate {A : Type} (n : nat) (x : A) (i : Z) (k : nat) :
  py_index n i = Ok k -> item (replicate n x) i = Ok x.
Proof.
  intros Hi. unfold item. rewrite length_replicate, Hi, bind_Ok.
  rewrite lookup_replicate_2; [done|]. by eapply py_index_lt.
Qed.

Lemma copy_x_zeros (n k : nat) (i j : Z) (ki kj : nat) :
  py_index n i = Ok ki -> py_index n j = Ok kj ->
  copy_x (zeros (R:=R) n k) i j = Ok (zeros n k).
Proof.
  intros Hi Hj. unfold copy_x, get_x, set_x, zeros.
  rewrite (item_replicate _ _ _ _ Hj), bind_Ok.
  rewrite (item_replicate _ _ _ _ Hi), bind_Ok.
  rewrite Nat.eqb_refl. unfold setitem.
  rewrite length_replicate, Hi, bind_Ok. by rewrite insert_replicate.
Qed.

Lemma fill_x_zeros (n k : nat) (i : Z) (ki : nat) :
  py_index n i = Ok ki -> fill_x (zeros (R:=R) n k) i fzero = Ok (zeros n k).
Proof.
  intros Hi. unfold fill_x, zeros.
  rewrite (item_replicate _ _ _ _ Hi), bind_Ok. unfold setitem.
  rewrite !length_replicate, Hi, bind_Ok. by rewrite insert_replicate.
Qed.

Lemma copy_y_zeros (n k : nat) (i j : Z) (ki kj : nat) :
  py_index k i = Ok ki -> py_index k j = Ok kj ->
  copy_y (zeros (R:=R) n k) i j = Ok (zeros n k).
Proof.
  intros Hi Hj. unfold copy_y, get_y, zeros.
  rewrite (mapM_replicate_Ok _ n _ fzero) by (by eapply item_replicate).
  rewrite bind_Ok. unfold set_y. rewrite !length_replicate, Nat.eqb_refl.
  induction n as [|n IH]; simpl; [done|].
  unfold setitem at 1. rewrite length_replicate, Hi, bind_Ok, bind_Ok.
  rewrite IH, bind_Ok. by rewrite insert_replicate.
Qed.

Lemma top_and_bottom_zeros (n k : nat) :
  NonLinear.top_and_bottom (zeros (R:=R) n (S (S k))) = Ok (zeros n (S (S k))).
Proof.
  unfold NonLinear.top_and_bottom.
  rewrite (copy_y_zeros _ _ _ _ 0 1) by idx. rewrite bind_Ok.
  rewrite (copy_y_zeros _ _ _ _ (S k) k) by idx. rewrite bind_Ok.
  by rewrite corners_zeros.
Qed.

Lemma periodic_state_zeros (ge : Geom R) :
  NonLinear.periodic_state (grid_u ge, grid_v ge, grid_phi ge)
  = Ok (grid_u ge, grid_v ge, grid_phi ge).
Proof.
  rewrite grid_u_zeros, grid_v_zeros, grid_phi_zeros.
  unfold NonLinear.periodic_state.
  rewrite (copy_x_zeros _ _ 0%Z (-3)%Z 0 (g_nx ge)) by idx. rewrite bind_Ok.
  rewrite (copy_x_zeros _ _ 1%Z (-2)%Z 1 (S (g_nx ge))) by idx.
  rewrite bind_Ok.
  rewrite (copy_x_zeros _ _ (-1)%Z 2%Z (S (S (g_nx ge))) 2) by idx.
  rewrite bind_Ok.
  rewrite (copy_x_zeros _ _ 0%Z (-2)%Z 0 (g_nx ge)) by idx. rewrite bind_Ok.
  rewrite (copy_x_zeros _ _ (-1)%Z 1%Z (S (g_nx ge)) 1) by idx.
  rewrite bind_Ok.
  rewrite (copy_x_zeros _ _ 0%Z (-2)%Z 0 (g_nx ge)) by idx. rewrite bind_Ok.
  rewrite (copy_x_zeros _ _ (-1)%Z 1%Z (S (g_nx ge)) 1) by idx.
  rewrite bind_Ok.
  by rewrite !top_and_bottom_zeros, !bind_Ok.
Qed.

Lemma walled_state_zeros (ge : Geom R) :
  NonLinear.walled_state (grid_u ge, grid_v ge, grid_phi ge)
  = Ok (grid_u ge, grid_v ge, grid_phi ge).
Proof.
  rewrite grid_u_zeros, grid_v_zeros, grid_phi_zeros.
  unfold NonLinear.walled_state.
  rewrite (fill_x_zeros _ _ 0%Z 0) by idx. rewrite bind_Ok.
  rewrite (fill_x_zeros _ _ 1%Z 1) by idx. rewrite bind_Ok.
  rewrite (fill_x_zeros _ _ (-1)%Z (S (S (g_nx ge)))) by idx. rewrite bind_Ok.
  rewrite (fill_x_zeros _ _ (-2)%Z (S (g_nx ge))) by idx. rewrite bind_Ok.
  rewrite (copy_x_zeros _ _ 0%Z 1%Z 0 1) by idx. rewrite bind_Ok.
  rewrite (copy_x_zeros _ _ (-1)%Z (-2)%Z (S (g_nx ge)) (g_nx ge)) by idx.
  rewrite bind_Ok.
  rewrite (copy_x_zeros _ _ 0%Z 1%Z 0 1) by idx. rewrite bind_Ok.
  rewrite (copy_x_zeros _ _ (-1)%Z (-2)%Z (S (g_nx ge)) (g_nx ge)) by idx.
  rewrite bind_Ok.
  by rewrite !top_and_bottom_zeros, !bind_Ok.
Qed.

Lemma ab_increment3_zero3 (h : R) (ge : Geom R) (hs : list (Triple R)) :
  Forall (fun x => x = zero3 ge) hs ->
  ab_increment3 h (zero3 ge :: hs) = Ok (zero3 ge).
Proof.
  intros Hhs. unfold ab_increment3.
  assert (Hall : Forall (fun x => x = zero3 ge) (zero3 ge :: hs))
    by (by constructor).
  rewrite (ab_increment_zeros h _ (S (g_nx ge)) (g_ny ge)); [|done|].
  2:{ apply Forall_forall. intros x Hx.
      apply list_elem_of_In, in_map_iff in Hx as (y & <- & Hin).
      rewrite Forall_forall in Hall.
      by rewrite (Hall y) by (by apply list_elem_of_In). }
  rewrite bind_Ok.
  rewrite (ab_increment_zeros h _ (g_nx ge) (S (g_ny ge))); [|done|].
  2:{ apply Forall_forall. intros x Hx.
      apply list_elem_of_In, in_map_iff in Hx as (y & <- & Hin).
      rewrite Forall_forall in Hall.
      by rewrite (Hall y) by (by apply list_elem_of_In). }
  rewrite bind_Ok.
  rewrite (ab_increment_zeros h _ (g_nx ge) (g_ny ge)); [done|done|].
  apply Forall_forall. intros x Hx.
  apply list_elem_of_In, in_map_iff in Hx as (y & <- & Hin).
  rewrite Forall_forall in Hall.
  by rewrite (Hall y) by (by apply list_elem_of_In).
Qed.

Ltac qsolve :=
  unfold quiet, at_rest, sponge_ok, history_zero, SW.ny in *; simpl in *;
  solve [intuition (try done)].

Lemma bc_quiet (B : Boundaries R) (m : Model R) :
  keeps_zeros B -> quiet m ->
  exists m1, _apply_boundary_conditions B m = (Ok tt, m1) /\ quiet m1 /\
             geom m1 = geom m /\ tc m1 = tc m /\ t m1 = t m /\ dt m1 = dt m.
Proof.
  intros HB (Hrest & Hsp & Hhist).
  pose proof Hrest as (Hf0 & Hbeta & Hfs & Hts & Hu & Hv & Hphi).
  unfold _apply_boundary_conditions. rewrite Hu, Hv, Hphi, HB.
  eexists. split; [done|]. qsolve.
Qed.

(** A request to the state's integrator in a quiet model: the increment is
    zero when there is one, and the model stays quiet. *)
Lemma next_state_quiet (rhsf : Model R -> Result (Triple R)) (m : Model R) :
  quiet m ->
  (rhsf m = Ok (zero3 (geom m)) \/ exists e, rhsf m = Raise e) ->
  exists res m1, next_state rhsf m = (res, m1) /\ quiet m1 /\
    geom m1 = geom m /\ tc m1 = tc m /\ t m1 = t m /\ dt m1 = dt m /\
    (res = Ok (zero3 (geom m)) \/ exists e, res = Raise e).
Proof.
  intros (Hrest & Hsp & Hhist) Hrhs. unfold next_state, next_with.
  unfold history_zero in Hhist.
  destruct (_stepper m) as [hs|] eqn:Hst.
  - destruct Hrhs as [-> | [e ->]].
    + rewrite (ab_increment3_zero3 _ _ _ Hhist).
      eexists _, _. split; [done|].
      split; [|repeat split; by left].
      split; [qsolve|]. split; [qsolve|]. unfold history_zero. simpl.
      apply Forall_take. by constructor.
    + eexists _, _. split; [done|].
      split; [|repeat split; right; by exists e].
      qsolve.
  - eexists _, _. split; [done|].
    split; [|repeat split; right; by exists StopIteration].
    qsolve.
Qed.

Lemma set_state_quiet (m : Model R) :
  quiet m ->
  exists m1, set_state (zero3 (geom m)) m = (Ok tt, m1) /\ quiet m1 /\
             geom m1 = geom m /\ tc m1 = tc m /\ t m1 = t m /\ dt m1 = dt m.
Proof.
  intros (Hrest & Hsp & Hhist).
  pose proof Hrest as (Hf0 & Hbeta & Hfs & Hts & Hu & Hv & Hphi).
  unfold set_state, zero3. rewrite Hu, Hv, Hphi.
  rewrite grid_u_zeros, grid_v_zeros, grid_phi_zeros.
  rewrite !set_interior_all_zeros.
  eexists. split; [done|]. split; [|done].
  rewrite <- !grid_u_zeros, <- !grid_v_zeros, <- !grid_phi_zeros. qsolve.
Qed.

Lemma with_clock_quiet (m : Model R) (t' : R) (tc' : nat) :
  quiet m -> quiet (with_clock m t' tc').
Proof. intros (Hrest & Hsp & Hhist). qsolve. Qed.

Lemma nonlinear_step_quiet (B : Boundaries R) (m : Model R) :
  keeps_zeros B -> quiet m ->
  exists res m', NonLinear.step B m = (res, m') /\ quiet m' /\
                 geom m' = geom m.
Proof.
  intros HB Hq. unfold NonLinear.step.
  destruct (bc_quiet B m HB Hq) as (m1 & Hbc & Hq1 & Hg1 & _).
  unfold bindM at 1. rewrite Hbc.
  assert (Hk : keys m1 = []).
  { unfold keys. destruct Hq1 as ((_ & _ & _ & -> & _) & _). done. }
  unfold bindM at 1, eval at 1. rewrite Hk.
  unfold bindM at 1. simpl forM_. unfold ret at 1.
  destruct (nonlinear_rhs_at_rest m1) as [Hc _]; [apply Hq1|apply Hq1|].
  destruct (next_state_quiet NonLinear.rhs m1 Hq1)
    as (res & m2 & Hns & Hq2 & Hg2 & _ & _ & _ & Hres).
  { destruct Hc as [-> | ->]; [by left|right; by eexists]. }
  unfold bindM at 1. rewrite Hns.
  destruct Hres as [-> | [e ->]];
    [|eexists _, _; split; [done|]; split; [done|congruence]].
  unfold bindM at 1, eval at 1.
  rewrite (state_at_rest m2) by apply Hq2. rewrite Hg2, triple_add_zero3.
  unfold bindM at 1. simpl forM_. unfold ret at 1.
  destruct (set_state_quiet m2 Hq2) as (m3 & Hss & Hq3 & Hg3 & _).
  unfold bindM at 1. rewrite <- Hg2, Hss. unfold modify.
  eexists _, _. split; [done|]. split; [by apply with_clock_quiet|].
  simpl. congruence.
Qed.

Lemma linear_step_quiet (dyn : Model R -> Result (Triple R))
    (B : Boundaries R) (m : Model R) :
  dyn = Linear._dynamics_terms \/ dyn = Linear._dynamics_terms_linear ->
  keeps_zeros B -> quiet m ->
  exists res m', Linear.step dyn B m = (res, m') /\ quiet m' /\
                 geom m' = geom m.
Proof.
  intros Hdyn HB Hq. unfold Linear.step.
  destruct (bc_quiet B m HB Hq) as (m1 & Hbc & Hq1 & Hg1 & _).
  unfold bindM at 1. rewrite Hbc.
  assert (Hk : keys m1 = []).
  { unfold keys. destruct Hq1 as ((_ & _ & _ & -> & _) & _). done. }
  unfold bindM at 1, eval at 1. rewrite Hk.
  unfold bindM at 1. simpl forM_. unfold ret at 1.
  destruct (linear_rhs_at_rest dyn m1 Hdyn) as [Hc _];
    [apply Hq1|apply Hq1|].
  destruct (next_state_quiet (Linear._rhs dyn) m1 Hq1)
    as (res & m2 & Hns & Hq2 & Hg2 & _ & _ & _ & Hres).
  { destruct Hc as [-> | ->]; [by left|right; by eexists]. }
  unfold bindM at 1. rewrite Hns.
  destruct Hres as [-> | [e ->]];
    [|eexists _, _; split; [done|]; split; [done|congruence]].
  unfold bindM at 1, eval at 1.
  rewrite (state_at_rest m2) by apply Hq2. rewrite Hg2, triple_add_zero3.
  unfold bindM at 1. simpl forM. unfold ret at 1.
  unfold bindM at 1. simpl forM_. unfold ret at 1.
  destruct (set_state_quiet m2 Hq2) as (m3 & Hss & Hq3 & Hg3 & _).
  unfold bindM at 1. rewrite <- Hg2, Hss. unfold modify.
  eexists _, _. split; [done|]. split; [by apply with_clock_quiet|].
  simpl. congruence.
Qed.

Lemma steps_quiet (stepf : M R unit) (n : nat) (m : Model R) :
  (forall m0, quiet m0 ->
     exists res m', stepf m0 = (res, m') /\ quiet m' /\ geom m' = geom m0) ->
  quiet m -> quiet (steps stepf n m) /\ geom (steps stepf n m) = geom m.
Proof.
  intros Hstep. revert m. induction n as [|n IH]; intros m Hq; [done|].
  simpl. destruct (Hstep m Hq) as (res & m' & Heq & Hq' & Hg').
  rewrite Heq. simpl. destruct (IH m' Hq') as [Hq'' Hg'']. split; [done|].
  congruence.
Qed.

Lemma periodic_keeps_zeros : keeps_zeros NonLinear.Periodic.
Proof. intros ge. apply periodic_state_zeros. Qed.

Lemma walled_keeps_zeros : keeps_zeros NonLinear.Walled.
Proof. intros ge. apply walled_state_zeros. Qed.

Lemma nonlinear_init_quiet (nx ny : nat) (Lx Ly nu r dt : R) :
  quiet (NonLinear.init nx ny Lx Ly fzero fzero nu r dt).
Proof.
  unfold quiet, at_rest, sponge_ok, history_zero, SW.ny. simpl.
  rewrite linspace_length. by repeat split.
Qed.

Lemma linear_init_quiet (nx ny : nat) (Lx Ly g H nu : R) (nu_phi : option R)
    (r dt : R) :
  quiet (Linear.init nx ny Lx Ly fzero fzero nu nu_phi r dt) /\
  quiet (Linear.init_linear nx ny Lx Ly fzero fzero g H nu nu_phi r dt).
Proof.
  unfold quiet, at_rest, sponge_ok, history_zero, SW.ny. simpl.
  rewrite linspace_length. by repeat split.
Qed.

Lemma quiet_rests (B : Boundaries R) (rhsf : Model R -> Result (Triple R))
    (m : Model R) :
  keeps_zeros B -> quiet m ->
  (forall m0, quiet m0 ->
     (rhsf m0 = Ok (zero3 (geom m0)) \/ rhsf m0 = Raise ValueError) /\
     (7 <= ny m0 -> rhsf m0 = Ok (zero3 (geom m0)))) ->
  rests B rhsf (geom m) m.
Proof.
  intros HB Hq Hrhs. split; [apply state_at_rest, Hq|].
  destruct (bc_quiet B m HB Hq) as (m1 & Hbc & Hq1 & Hg1 & _).
  exists m1. split; [done|]. rewrite <- Hg1.
  split; [apply state_at_rest, Hq1|]. apply (Hrhs m1 Hq1).
Qed.


(** *** An empty sponge *)

Lemma nonlinear_terms_empty_sponge (kphi : R) (m : Model R) :
  still m -> sponge_ny m = 0 -> sponge m = [] -> 1 <= ny m ->
  nonlinear_terms kphi m = Raise ValueError.
Proof.
  intros (_ & _ & Hu & Hv & Hphi) Hs Hsp Hny.
  unfold nonlinear_terms, u, v, phi. rewrite Hu, Hv, Hphi.
  rewrite grid_u_zeros, grid_v_zeros, grid_phi_zeros, uvatuv_zeros_S.
  zeros_all. unfold ny in Hny.
  destruct (g_ny (geom m)) as [|k] eqn:Hk; [lia|].
  rewrite (damping_empty_sponge m (g_nx (geom m)) k);
    [done|done|done|apply has_shape_zeros].
Qed.

Lemma linear_terms_empty_sponge (m : Model R) :
  still m -> sponge_ny m = 0 -> sponge m = [] -> 1 <= ny m ->
  Linear._dynamics_terms_linear m = Raise ValueError.
Proof.
  intros (_ & _ & Hu & Hv & Hphi) Hs Hsp Hny.
  unfold Linear._dynamics_terms_linear, u, v, phi. rewrite Hu, Hv, Hphi.
  rewrite grid_u_zeros, grid_v_zeros, grid_phi_zeros, uvatuv_zeros_S,
    divergence_zeros_S.
  zeros_all.
  destruct (damping_zeros_cases m (g_nx (geom m)) (g_ny (geom m)))
    as [Hd|Hd]; [by rewrite Hs, Hsp|lia| |by rewrite Hd].
  rewrite Hd. zeros_all. unfold ny in Hny.
  destruct (g_ny (geom m)) as [|k] eqn:Hk; [lia|].
  rewrite (damping_empty_sponge m (g_nx (geom m)) k);
    [done|done|done|apply has_shape_zeros].
Qed.

Lemma linear_rhs_empty_sponge (dyn : Model R -> Result (Triple R))
    (m : Model R) :
  dyn = Linear._dynamics_terms \/ dyn = Linear._dynamics_terms_linear ->
  still m -> sponge_ny m = 0 -> sponge m = [] -> 1 <= ny m ->
  Linear._rhs dyn m = Raise ValueError.
Proof.
  intros Hdyn Hst Hs Hsp Hny. unfold Linear._rhs.
  destruct Hst as (Hfs & Hrest). rewrite Hfs. simpl add_forcings.
  rewrite bind_Ok.
  destruct Hdyn as [-> | ->].
  - unfold Linear._dynamics_terms.
    by rewrite nonlinear_terms_empty_sponge by done.
  - by rewrite linear_terms_empty_sponge by done.
Qed.

Lemma nonlinear_rhs_empty_sponge (m : Model R) :
  still m -> sponge_ny m = 0 -> sponge m = [] -> 1 <= ny m ->
  NonLinear.rhs m = Raise ValueError.
Proof.
  intros Hst Hs Hsp Hny. unfold NonLinear.rhs.
  by rewrite nonlinear_terms_empty_sponge by done.
Qed.

Lemma bc_still (B : Boundaries R) (m : Model R) :
  keeps_zeros B -> still m ->
  exists m1, _apply_boundary_conditions B m = (Ok tt, m1) /\ still m1 /\
    geom m1 = geom m /\ sponge_ny m1 = sponge_ny m /\ sponge m1 = sponge m /\
    _stepper m1 = _stepper m /\ tc m1 = tc m /\ t m1 = t m.
Proof.
  intros HB (Hfs & Hts & Hu & Hv & Hphi).
  unfold _apply_boundary_conditions. rewrite Hu, Hv, Hphi, HB.
  eexists. split; [done|]. by repeat split.
Qed.

(** A first step with an empty sponge: the boundary operation succeeds and
    the state's tendency raises from [damping]. *)
Lemma nonlinear_step_empty_sponge (B : Boundaries R) (m : Model R)
    (hs : list (Triple R)) :
  keeps_zeros B -> still m -> sponge_ny m = 0 -> sponge m = [] ->
  1 <= ny m -> _stepper m = Running hs ->
  exists m', NonLinear.step B m = (Raise ValueError, m') /\
             tc m' = tc m /\ t m' = t m.
Proof.
  intros HB Hst Hs Hsp Hny Hstep. unfold NonLinear.step.
  destruct (bc_still B m HB Hst)
    as (m1 & Hbc & Hst1 & Hg1 & Hs1 & Hsp1 & Hstep1 & Htc1 & Ht1).
  unfold bindM at 1. rewrite Hbc.
  assert (Hk : keys m1 = []).
  { unfold keys. destruct Hst1 as (_ & -> & _). done. }
  unfold bindM at 1, eval at 1. rewrite Hk.
  unfold bindM at 1. simpl forM_. unfold ret at 1.
  unfold bindM at 1, next_state, next_with.
  rewrite Hstep1, Hstep.
  rewrite nonlinear_rhs_empty_sponge; try congruence.
  - eexists. split; [done|]. simpl. by split.
  - unfold ny in *. congruence.
Qed.

Lemma linear_step_empty_sponge (dyn : Model R -> Result (Triple R))
    (B : Boundaries R) (m : Model R) (hs : list (Triple R)) :
  dyn = Linear._dynamics_terms \/ dyn = Linear._dynamics_terms_linear ->
  keeps_zeros B -> still m -> sponge_ny m = 0 -> sponge m = [] ->
  1 <= ny m -> _stepper m = Running hs ->
  exists m', Linear.step dyn B m = (Raise ValueError, m') /\
             tc m' = tc m /\ t m' = t m.
Proof.
  intros Hdyn HB Hst Hs Hsp Hny Hstep. unfold Linear.step.
  destruct (bc_still B m HB Hst)
    as (m1 & Hbc & Hst1 & Hg1 & Hs1 & Hsp1 & Hstep1 & Htc1 & Ht1).
  unfold bindM at 1. rewrite Hbc.
  assert (Hk : keys m1 = []).
  { unfold keys. destruct Hst1 as (_ & -> & _). done. }
  unfold bindM at 1, eval at 1. rewrite Hk.
  unfold bindM at 1. simpl forM_. unfold ret at 1.
  unfold bindM at 1, next_state, next_with.
  rewrite Hstep1, Hstep.
  rewrite linear_rhs_empty_sponge; try congruence.
  - eexists. split; [done|]. simpl. by split.
  - unfold ny in *. congruence.
Qed.

(** C8 (as the code has it). The constructors validate nothing: for
    [1 <= ny < 7] they return a model whose sponge is empty, and the
    failure appears in the first [step], raised by [damping] when the
    state's tendency is evaluated; the time step is stored as given,
    whatever its sign.  This is so in both files, for both dynamics of
    linear.py and both boundary classes of nonlinear.py. *)
Theorem C8_configuration_not_validated (nx ny : nat)
    (Lx Ly f0 beta g H nu : R) (nu_phi : option R) (r dt : R)
    (dyn : Model R -> Result (Triple R)) (BL B : Boundaries R) :
  1 <= ny < 7 ->
  dyn = Linear._dynamics_terms \/ dyn = Linear._dynamics_terms_linear ->
  keeps_zeros BL ->
  B = NonLinear.Periodic \/ B = NonLinear.Walled ->
  let mn := NonLinear.init nx ny Lx Ly f0 beta nu r dt in
  let ms := Linear.init nx ny Lx Ly f0 beta nu nu_phi r dt in
  let ml := Linear.init_linear nx ny Lx Ly f0 beta g H nu nu_phi r dt in
  (sponge_ny mn = 0 /\ sponge mn = [] /\ SW.dt mn = dt /\
   NonLinear.rhs mn = Raise ValueError /\
   exists m', NonLinear.step B mn = (Raise ValueError, m') /\ tc m' = 0) /\
  (sponge_ny ms = 0 /\ sponge ms = [] /\ SW.dt ms = dt /\
   Linear._rhs dyn ms = Raise ValueError /\
   exists m', Linear.step dyn BL ms = (Raise ValueError, m') /\ tc m' = 0) /\
  (sponge_ny ml = 0 /\ sponge ml = [] /\ SW.dt ml = dt /\
   Linear._rhs dyn ml = Raise ValueError /\
   exists m', Linear.step dyn BL ml = (Raise ValueError, m') /\ tc m' = 0).
Proof.
  intros Hny Hdyn HBL HB mn ms ml.
  assert (Hdiv : ny / 7 = 0) by (apply Nat.div_small; lia).
  assert (Hsp : exp_neg_linspace (ny / 7) = []).
  { pose proof (linspace_length (ny / 7)) as Hl. rewrite Hdiv in *.
    by destruct (exp_neg_linspace 0). }
  assert (HkB : keeps_zeros B).
  { destruct HB as [-> | ->];
      [apply periodic_keeps_zeros|apply walled_keeps_zeros]. }
  assert (Hstn : still mn) by (by repeat split).
  assert (Hsts : still ms) by (by repeat split).
  assert (Hstl : still ml) by (by repeat split).
  split; [|split].
  - split; [exact Hdiv|]. split; [exact Hsp|]. split; [done|].
    split; [apply nonlinear_rhs_empty_sponge; try done; unfold SW.ny; simpl; lia|].
    destruct (nonlinear_step_empty_sponge B mn [] HkB Hstn)
      as (m' & Hstep & Htc & _); try done; [unfold SW.ny; simpl; lia|].
    exists m'. by split.
  - split; [exact Hdiv|]. split; [exact Hsp|]. split; [done|].
    split; [apply linear_rhs_empty_sponge; try done; unfold SW.ny; simpl; lia|].
    destruct (linear_step_empty_sponge dyn BL ms [] Hdyn HBL Hsts)
      as (m' & Hstep & Htc & _); try done; [unfold SW.ny; simpl; lia|].
    exists m'. by split.
  - split; [exact Hdiv|]. split; [exact Hsp|]. split; [done|].
    split; [apply linear_rhs_empty_sponge; try done; unfold SW.ny; simpl; lia|].
    destruct (linear_step_empty_sponge dyn BL ml [] Hdyn HBL Hstl)
      as (m' & Hstep & Htc & _); try done; [unfold SW.ny; simpl; lia|].
    exists m'. by split.
Qed.

End AtRest.

(** ** The integer grid and integrator meet what is assumed *)

Section IntegerGrid.
Local Open Scope nat_scope.

Lemma tail_replicate {A : Type} (n : nat) (x : A) :
  tail (replicate (S n) x) = replicate n x.
Proof. reflexivity. Qed.

Lemma along_x_zeros (f : Z -> Z -> Z) (n m : nat) :
  f 0%Z 0%Z = 0%Z -> along_x f (zeros (S n) m) = zeros n m.
Proof.
  intros Hf. unfold along_x, zeros. rewrite tail_replicate.
  rewrite !zip_with_replicate_min, Nat.min_id.
  replace (n `min` S n) with n by lia. simpl. by rewrite Hf.
Qed.

Lemma along_y_zeros (f : Z -> Z -> Z) (n m : nat) :
  f 0%Z 0%Z = 0%Z -> along_y f (zeros n (S m)) = zeros n m.
Proof.
  intros Hf. unfold along_y, pairs_with, zeros. rewrite map_replicate.
  rewrite tail_replicate, zip_with_replicate_min.
  replace (m `min` S m) with m by lia. simpl. by rewrite Hf.
Qed.

Lemma plus_arr_zeros (n m : nat) :
  plus_arr (zeros n m) (zeros n m) = zeros n m.
Proof.
  unfold plus_arr, zeros. by rewrite !zip_with_replicate_min, !Nat.min_id.
Qed.

Lemma val_zeros (n m i j : nat) : default 0%Z (cell (zeros n m) i j) = 0%Z.
Proof. by destruct (cell_zeros (R:=Z) n m i j) as [-> | ->]. Qed.

Lemma corner_fix_zeros (n m : nat) : corner_fix (zeros n m) = zeros n m.
Proof.
  unfold corner_fix. cbv zeta. rewrite !val_zeros.
  change ((0 + 0) / 2)%Z with (fzero (R:=Z)).
  by rewrite !set_cell_zeros.
Qed.

Lemma grid_zero_laws_Z : GridZeroLaws Z.
Proof.
  split;
    cbv [diffx diffy x_average y_average del2 uvatuv divergence coord_uy
         coord_vy _fix_boundary_corners exp_neg_linspace grid_Z].
  - intros _ n m. by apply along_x_zeros.
  - intros _ n m. by apply along_y_zeros.
  - intros _ n m. by apply along_x_zeros.
  - intros _ n m. by apply along_y_zeros.
  - intros _ n m. rewrite !along_x_zeros, !along_y_zeros by done.
    rewrite (inner_y_zeros (R:=Z)), (inner_x_zeros (R:=Z)).
    apply plus_arr_zeros.
  - intros ge. rewrite (grid_u_zeros (R:=Z)), (grid_v_zeros (R:=Z)).
    rewrite along_x_zeros, along_y_zeros by done.
    rewrite (inner_y_zeros (R:=Z)), (inner_x_zeros (R:=Z)).
    rewrite along_x_zeros, along_y_zeros by done.
    by rewrite !Nat.add_1_r.
  - intros ge. rewrite (grid_u_zeros (R:=Z)), (grid_v_zeros (R:=Z)).
    rewrite !(interior_zeros (R:=Z)).
    rewrite along_x_zeros, along_y_zeros by done. apply plus_arr_zeros.
  - apply corner_fix_zeros.
  - intros ge. by rewrite length_map, length_seq.
  - intros ge. by rewrite length_map, length_seq.
  - intros n. by rewrite length_map, length_seq.
Qed.

Lemma integrator_zero_laws_Z : IntegratorZeroLaws Z.
Proof.
  split. intros h hs n m Hne Hall. simpl.
  destruct hs as [|dx hs]; [done|].
  apply Forall_cons in Hall as [-> _].
  by rewrite (smul_zeros (ZL:=zero_laws_Z)).
Qed.

End IntegerGrid.

(** ** The clock *)

Section Clock.
Context {R : Type} {SR : Scalar R} {GR : Grid R} {IR : Integrator R}.

Lemma keeps_clock_ret {A : Type} (a : A) : keeps_clock (ret (R:=R) a).
Proof. intros m res m' [= <- <-]. done. Qed.

Lemma keeps_clock_eval {A : Type} (f : Model R -> Result A) :
  keeps_clock (eval f).
Proof. intros m res m' [= <- <-]. done. Qed.

Lemma keeps_clock_bind {A B : Type} (c : M R A) (k : A -> M R B) :
  keeps_clock c -> (forall a, keeps_clock (k a)) -> keeps_clock (bindM c k).
Proof.
  intros Hc Hk m res m'. unfold bindM.
  destruct (c m) as [[a|e] m1] eqn:Hcm.
  - intros Hka. destruct (Hc _ _ _ Hcm) as (? & ? & ?).
    destruct (Hk a _ _ _ Hka) as (? & ? & ?). repeat split; congruence.
  - intros [= <- <-]. by apply (Hc _ _ _ Hcm).
Qed.

Lemma keeps_clock_forM {A B : Type} (l : list A) (f : A -> M R B) :
  (forall a, keeps_clock (f a)) -> keeps_clock (forM l f).
Proof.
  intros Hf. induction l as [|a l IH]; simpl; [apply keeps_clock_ret|].
  apply keeps_clock_bind; [apply Hf|]. intros b.
  apply keeps_clock_bind; [apply IH|]. intros bs. apply keeps_clock_ret.
Qed.

Lemma keeps_clock_forM_ {A : Type} (l : list A) (f : A -> M R unit) :
  (forall a, keeps_clock (f a)) -> keeps_clock (forM_ l f).
Proof.
  intros Hf. induction l as [|a l IH]; simpl; [apply keeps_clock_ret|].
  apply keeps_clock_bind; [apply Hf|]. intros _. apply IH.
Qed.

Lemma keeps_clock_bc (B : Boundaries R) :
  keeps_clock (_apply_boundary_conditions B).
Proof.
  intros m res m'. unfold _apply_boundary_conditions.
  destruct (bc_state B _) as [[[a b] c]|e]; intros [= <- <-]; done.
Qed.

Lemma keeps_clock_bc_to (B : Boundaries R) (name : string) :
  keeps_clock (_apply_boundary_conditions_to B name).
Proof.
  intros m res m'. unfold _apply_boundary_conditions_to.
  destruct (dict_get _ _) as [tr|e]; [|intros [= <- <-]; done].
  destruct (bc_field B _) as [a|e]; intros [= <- <-]; done.
Qed.

Lemma keeps_clock_next_state (rhsf : Model R -> Result (Triple R)) :
  keeps_clock (next_state rhsf).
Proof.
  intros m res m'. unfold next_state.
  destruct (next_with _ _ _) as [r s']. intros [= <- <-]. done.
Qed.

Lemma keeps_clock_next_tracer
    (cons : Model R -> string -> Result (Arr R)) (name : string) :
  keeps_clock (next_tracer cons name).
Proof.
  intros m res m'. unfold next_tracer.
  destruct (dict_get _ _) as [tr|e]; [|intros [= <- <-]; done].
  destruct (next_with _ _ _) as [r s']. intros [= <- <-]. done.
Qed.

Lemma keeps_clock_set_tracer_interior (name : string) (nfield : Arr R) :
  keeps_clock (set_tracer_interior name nfield).
Proof.
  intros m res m'. unfold set_tracer_interior.
  destruct (dict_get _ _) as [tr|e]; [|intros [= <- <-]; done].
  destruct (set_interior _ _) as [a|e]; intros [= <- <-]; done.
Qed.

Lemma keeps_clock_set_state (value : Triple R) : keeps_clock (set_state value).
Proof.
  intros m res m'. unfold set_state. destruct value as [[a b] c].
  destruct (set_interior (_u m) a) as [u'|e]; [|intros [= <- <-]; done].
  destruct (set_interior (_v m) b) as [v'|e]; [|intros [= <- <-]; done].
  destruct (set_interior (_phi m) c) as [p'|e]; intros [= <- <-]; done.
Qed.

Lemma clock_step_bind {A : Type} (c : M R A) (k : A -> M R unit) :
  keeps_clock c -> (forall a, clock_step (k a)) -> clock_step (bindM c k).
Proof.
  intros Hc Hk m res m'. unfold bindM.
  destruct (c m) as [[a|e] m1] eqn:Hcm.
  - intros Hka. destruct (Hc _ _ _ Hcm) as (Htc & Ht & Hdt).
    pose proof (Hk a _ _ _ Hka) as Hstep.
    destruct res; rewrite <- Htc, <- Ht, <- ?Hdt; exact Hstep.
  - intros [= <- <-]. destruct (Hc _ _ _ Hcm) as (? & ? & ?). done.
Qed.

Lemma clock_step_tick :
  clock_step (modify (R:=R)
                (fun m => with_clock m (fadd (t m) (dt m)) (S (tc m)))).
Proof. intros m res m' [= <- <-]. done. Qed.

(** Both [step] methods advance the clock when they return and leave it
    alone when they raise. *)
Lemma step_clock (dyn : Model R -> Result (Triple R)) (BL B : Boundaries R) :
  clock_step (Linear.step dyn BL) /\ clock_step (NonLinear.step B).
Proof.
  split.
  - unfold Linear.step.
    apply clock_step_bind; [apply keeps_clock_bc|]. intros _.
    apply clock_step_bind; [apply keeps_clock_eval|]. intros names.
    apply clock_step_bind;
      [apply keeps_clock_forM_, keeps_clock_bc_to|]. intros _.
    apply clock_step_bind; [apply keeps_clock_next_state|]. intros inc.
    apply clock_step_bind; [apply keeps_clock_eval|]. intros newstate.
    apply clock_step_bind.
    { apply keeps_clock_forM. intros name.
      apply keeps_clock_bind; [apply keeps_clock_next_tracer|].
      intros inc'. apply keeps_clock_eval. }
    intros newfields.
    apply clock_step_bind.
    { apply keeps_clock_forM_. intros p.
      apply keeps_clock_set_tracer_interior. }
    intros _.
    apply clock_step_bind; [apply keeps_clock_set_state|]. intros _.
    apply clock_step_tick.
  - unfold NonLinear.step.
    apply clock_step_bind; [apply keeps_clock_bc|]. intros _.
    apply clock_step_bind; [apply keeps_clock_eval|]. intros names.
    apply clock_step_bind;
      [apply keeps_clock_forM_, keeps_clock_bc_to|]. intros _.
    apply clock_step_bind; [apply keeps_clock_next_state|]. intros inc.
    apply clock_step_bind; [apply keeps_clock_eval|]. intros newstate.
    apply clock_step_bind.
    { apply keeps_clock_forM_. intros name.
      apply keeps_clock_bind; [apply keeps_clock_next_tracer|].
      intros inc'.
      apply keeps_clock_bind; [apply keeps_clock_eval|]. intros nfield.
      apply keeps_clock_set_tracer_interior. }
    intros _.
    apply clock_step_bind; [apply keeps_clock_set_state|]. intros _.
    apply clock_step_tick.
Qed.

(** C6 (as the code has it). A call of [step], in either file, either
    returns, and then the step count has advanced by one and the time by
    [dt], or raises, and then the time and the step count are those from
    before the call.  The fields are not restored: when the tendency of the
    state raises, the model is left as the boundary operations of this step
    made it (the boundary-corrected snapshot [ms]), with the state's
    integrator finished. *)
Theorem C6_step_on_raise (dyn : Model R -> Result (Triple R))
    (BL B : Boundaries R) (m ms : Model R) (e : Exn) (hs : list (Triple R)) :
  clock_step (Linear.step dyn BL) /\
  clock_step (NonLinear.step B) /\
  (snapshot B m = (Ok tt, ms) -> _stepper ms = Running hs ->
   NonLinear.rhs ms = Raise e ->
   NonLinear.step B m = (Raise e, with_stepper ms Finished)) /\
  (snapshot BL m = (Ok tt, ms) -> _stepper ms = Running hs ->
   Linear._rhs dyn ms = Raise e ->
   Linear.step dyn BL m = (Raise e, with_stepper ms Finished)).
Proof.
  destruct (step_clock dyn BL B) as [Hl Hn].
  split; [exact Hl|]. split; [exact Hn|]. split.
  - intros Hsnap Hst Hrhs. unfold snapshot in Hsnap. unfold NonLinear.step.
    unfold bindM at 1 in Hsnap. unfold bindM at 1.
    destruct (_apply_boundary_conditions B m) as [[[]|e1] m1]; [|done].
    unfold bindM at 1, eval at 1 in Hsnap. unfold bindM at 1, eval at 1.
    unfold bindM at 1. rewrite Hsnap.
    unfold bindM at 1, next_state, next_with. by rewrite Hst, Hrhs.
  - intros Hsnap Hst Hrhs. unfold snapshot in Hsnap. unfold Linear.step.
    unfold bindM at 1 in Hsnap. unfold bindM at 1.
    destruct (_apply_boundary_conditions BL m) as [[[]|e1] m1]; [|done].
    unfold bindM at 1, eval at 1 in Hsnap. unfold bindM at 1, eval at 1.
    unfold bindM at 1. rewrite Hsnap.
    unfold bindM at 1, next_state, next_with. by rewrite Hst, Hrhs.
Qed.

(** *** What the tendencies of linear.py can read *)

Lemma keeps_view_eval {A : Type} (f : Model R -> Result A) :
  keeps_view (eval f).
Proof. intros m res m' [= <- <-]. done. Qed.

Lemma keeps_view_ret {A : Type} (a : A) : keeps_view (ret (R:=R) a).
Proof. intros m res m' [= <- <-]. done. Qed.

Lemma keeps_view_bind {A B : Type} (c : M R A) (k : A -> M R B) :
  keeps_view c -> (forall a, keeps_view (k a)) -> keeps_view (bindM c k).
Proof.
  intros Hc Hk m res m'. unfold bindM.
  destruct (c m) as [[a|e] m1] eqn:Hcm.
  - intros Hka. rewrite (Hk a _ _ _ Hka). by apply (Hc _ _ _ Hcm).
  - intros [= <- <-]. by apply (Hc _ _ _ Hcm).
Qed.

Lemma keeps_view_forM {A B : Type} (l : list A) (f : A -> M R B) :
  (forall a, keeps_view (f a)) -> keeps_view (forM l f).
Proof.
  intros Hf. induction l as [|a l IH]; simpl; [apply keeps_view_ret|].
  apply keeps_view_bind; [apply Hf|]. intros b.
  apply keeps_view_bind; [apply IH|]. intros bs. apply keeps_view_ret.
Qed.

Lemma states_dict_set_stepper (d : list (string * Tracer R)) (name : string)
    (tr : Tracer R) (s : Stepper (Arr R)) :
  dict_get d name = Ok tr ->
  map (fun p => (fst p, tr_state (snd p)))
      (dict_set d name (with_tr_stepper tr s))
  = map (fun p => (fst p, tr_state (snd p))) d.
Proof.
  induction d as [|[k x] d IH]; simpl; [done|].
  destruct (String.eqb name k) eqn:E; simpl.
  - apply String.eqb_eq in E. subst k. by intros [= ->].
  - intros Hd. f_equal. by apply IH.
Qed.

Lemma keeps_view_next_tracer
    (cons : Model R -> string -> Result (Arr R)) (name : string) :
  keeps_view (next_tracer cons name).
Proof.
  intros m res m'. unfold next_tracer.
  destruct (dict_get _ _) as [tr|e] eqn:Hd; [|intros [= <- <-]; done].
  destruct (next_with _ _ _) as [r s']. intros [= <- <-].
  unfold view. simpl. by rewrite (states_dict_set_stepper _ _ _ _ Hd).
Qed.

Lemma keeps_view_next_state (rhsf : Model R -> Result (Triple R)) :
  keeps_view (next_state rhsf).
Proof.
  intros m res m'. unfold next_state.
  destruct (next_with _ _ _) as [r s']. intros [= <- <-]. done.
Qed.

(** In [ShallowWater.step] of linear.py every increment, of the state and
    of each tracer, is computed before anything is committed: the state's
    request and the loop that fills [newfields] leave all that a tendency
    can read as the snapshot has it. *)
Lemma linear_increments_keep_view (dyn : Model R -> Result (Triple R))
    (names : list string) :
  keeps_view
    (run inc <- next_state (Linear._rhs dyn);
     run newstate <- eval (fun m => triple_op add (state m) inc);
     forM names (fun name =>
       run inc <- next_tracer Linear._tracer_dynamics_terms name;
       eval (fun m => do q <- tracer m name; add q inc))).
Proof.
  apply keeps_view_bind; [apply keeps_view_next_state|]. intros inc.
  apply keeps_view_bind; [apply keeps_view_eval|]. intros newstate.
  apply keeps_view_forM. intros name.
  apply keeps_view_bind; [apply keeps_view_next_tracer|]. intros inc'.
  apply keeps_view_eval.
Qed.

(** [_tracer_dynamics_terms] of linear.py is the flux divergence. *)
Lemma linear_tracer_terms_divergence (m : Model R) (name : string) :
  Linear._tracer_dynamics_terms m name
  = (do q <- _tracer m name; flux_divergence m q).
Proof. reflexivity. Qed.

End Clock.

(** ** What the methods keep *)

Section Preserves.
Context {R : Type} {SR : Scalar R} {GR : Grid R} {IR : Integrator R}.
Local Open Scope nat_scope.

Lemma preserves_ret {A : Type} (P : Model R -> Prop) (a : A) :
  preserves P (ret a).
Proof. by intros m res m' HP [= <- <-]. Qed.

Lemma preserves_eval {A : Type} (P : Model R -> Prop)
    (f : Model R -> Result A) :
  preserves P (eval f).
Proof. by intros m res m' HP [= <- <-]. Qed.

Lemma preserves_bind {A B : Type} (P : Model R -> Prop) (c : M R A)
    (k : A -> M R B) :
  preserves P c -> (forall a, preserves P (k a)) -> preserves P (bindM c k).
Proof.
  intros Hc Hk m res m' HP. unfold bindM.
  destruct (c m) as [[a|e] m1] eqn:Hcm.
  - apply (Hk a). by apply (Hc _ _ _ HP Hcm).
  - intros [= <- <-]. by apply (Hc _ _ _ HP Hcm).
Qed.

Lemma preserves_forM {A B : Type} (P : Model R -> Prop) (l : list A)
    (f : A -> M R B) :
  (forall a, preserves P (f a)) -> preserves P (forM l f).
Proof.
  intros Hf. induction l as [|a l IH]; simpl; [apply preserves_ret|].
  apply preserves_bind; [apply Hf|]. intros b.
  apply preserves_bind; [apply IH|]. intros bs. apply preserves_ret.
Qed.

Lemma preserves_forM_ {A : Type} (P : Model R -> Prop) (l : list A)
    (f : A -> M R unit) :
  (forall a, preserves P (f a)) -> preserves P (forM_ l f).
Proof.
  intros Hf. induction l as [|a l IH]; simpl; [apply preserves_ret|].
  apply preserves_bind; [apply Hf|]. intros _. apply IH.
Qed.

Lemma preserves_steps (P : Model R -> Prop) (stepf : M R unit) (n : nat)
    (m : Model R) :
  preserves P stepf -> P m -> P (steps stepf n m).
Proof.
  intros Hs. revert m. induction n as [|n IH]; intros m HP; simpl; [done|].
  apply IH. destruct (stepf m) as [res m'] eqn:E. by apply (Hs _ _ _ HP E).
Qed.

(** *** What [step] leaves as it was registered *)

Lemma registry_dict_set (d : list (string * Tracer R)) (name : string)
    (tr tr' : Tracer R) :
  dict_get d name = Ok tr ->
  tr_rhs tr' = tr_rhs tr -> tr_kappa tr' = tr_kappa tr ->
  tr_apply_damping tr' = tr_apply_damping tr ->
  map (fun p => (fst p, tr_rhs (snd p), tr_kappa (snd p),
                 tr_apply_damping (snd p))) (dict_set d name tr')
  = map (fun p => (fst p, tr_rhs (snd p), tr_kappa (snd p),
                   tr_apply_damping (snd p))) d.
Proof.
  intros Hd H1 H2 H3. induction d as [|[k x] d IH]; simpl in *; [done|].
  destruct (String.eqb name k) eqn:E; simpl.
  - apply String.eqb_eq in E. subst k. injection Hd as ->.
    by rewrite H1, H2, H3.
  - f_equal. by apply IH.
Qed.

Ltac frame_case := intros [= <- <-]; done.

Lemma settings_bc x (B : Boundaries R) :
  preserves (has_settings x) (_apply_boundary_conditions B).
Proof.
  intros m res m' HP. unfold _apply_boundary_conditions.
  destruct (bc_state B _) as [[[a b] c]|e]; frame_case.
Qed.

Lemma settings_bc_to x (B : Boundaries R) (name : string) :
  preserves (has_settings x) (_apply_boundary_conditions_to B name).
Proof.
  intros m res m' HP. unfold _apply_boundary_conditions_to.
  destruct (dict_get _ _) as [tr|e] eqn:Hd; [|frame_case].
  destruct (bc_field B _) as [a|e]; [|frame_case]. intros [= <- <-].
  unfold has_settings, settings, registry in *. simpl.
  by rewrite (registry_dict_set _ _ _ _ Hd).
Qed.

Lemma settings_next_state x (rhsf : Model R -> Result (Triple R)) :
  preserves (has_settings x) (next_state rhsf).
Proof.
  intros m res m' HP. unfold next_state.
  destruct (next_with _ _ _) as [r0 s']. frame_case.
Qed.

Lemma settings_next_tracer x
    (cons : Model R -> string -> Result (Arr R)) (name : string) :
  preserves (has_settings x) (next_tracer cons name).
Proof.
  intros m res m' HP. unfold next_tracer.
  destruct (dict_get _ _) as [tr|e] eqn:Hd; [|frame_case].
  destruct (next_with _ _ _) as [r0 s']. intros [= <- <-].
  unfold has_settings, settings, registry in *. simpl.
  by rewrite (registry_dict_set _ _ _ _ Hd).
Qed.

Lemma settings_set_tracer_interior x (name : string) (nfield : Arr R) :
  preserves (has_settings x) (set_tracer_interior name nfield).
Proof.
  intros m res m' HP. unfold set_tracer_interior.
  destruct (dict_get _ _) as [tr|e] eqn:Hd; [|frame_case].
  destruct (set_interior _ _) as [a|e]; [|frame_case]. intros [= <- <-].
  unfold has_settings, settings, registry in *. simpl.
  by rewrite (registry_dict_set _ _ _ _ Hd).
Qed.

Lemma settings_set_state x (value : Triple R) :
  preserves (has_settings x) (set_state value).
Proof.
  intros m res m' HP. unfold set_state. destruct value as [[a b] c].
  destruct (set_interior (_u m) a) as [u'|e]; [|frame_case].
  destruct (set_interior (_v m) b) as [v'|e]; [|frame_case].
  destruct (set_interior (_phi m) c) as [p'|e]; frame_case.
Qed.

Lemma settings_tick x :
  preserves (has_settings x)
    (modify (R:=R) (fun m => with_clock m (fadd (t m) (dt m)) (S (tc m)))).
Proof. intros m res m' HP. frame_case. Qed.

Lemma settings_step x (dyn : Model R -> Result (Triple R))
    (BL B : Boundaries R) :
  preserves (has_settings x) (Linear.step dyn BL) /\
  preserves (has_settings x) (NonLinear.step B).
Proof.
  split.
  - unfold Linear.step.
    repeat first
      [ apply preserves_bind; [|intros ?]
      | apply preserves_forM_; intros ?
      | apply preserves_forM; intros ?
      | apply preserves_eval
      | apply settings_bc | apply settings_bc_to | apply settings_next_state
      | apply settings_next_tracer | apply settings_set_tracer_interior
      | apply settings_set_state | apply settings_tick ].
  - unfold NonLinear.step.
    repeat first
      [ apply preserves_bind; [|intros ?]
      | apply preserves_forM_; intros ?
      | apply preserves_forM; intros ?
      | apply preserves_eval
      | apply settings_bc | apply settings_bc_to | apply settings_next_state
      | apply settings_next_tracer | apply settings_set_tracer_interior
      | apply settings_set_state | apply settings_tick ].
Qed.

Lemma keys_registry (m : Model R) :
  keys m = map (fun q => fst (fst (fst q))) (registry m).
Proof.
  unfold keys, registry. rewrite map_map. by apply map_ext.
Qed.

(** X11. A call of [step], in either file and whatever it returns, leaves
    what the constructor and the registrations fixed: the grid, the
    physical parameters, the sponge, the time step, the forcings, and the
    names, the order and the [rhs], [kappa] and [apply_damping] of the
    tracers.  The same holds after any number of calls. *)
Theorem step_keeps_settings (dyn : Model R -> Result (Triple R))
    (BL B : Boundaries R) (n : nat) (m : Model R) :
  (settings (steps (Linear.step dyn BL) n m) = settings m /\
   keys (steps (Linear.step dyn BL) n m) = keys m) /\
  (settings (steps (NonLinear.step B) n m) = settings m /\
   keys (steps (NonLinear.step B) n m) = keys m).
Proof.
  destruct (settings_step (settings m) dyn BL B) as [Hl Hn].
  assert (Hk : forall m', settings m' = settings m -> keys m' = keys m).
  { intros m' Hs. rewrite !keys_registry.
    replace (registry m') with (registry m);
      [done|unfold settings in Hs; congruence]. }
  split; (split; [|apply Hk]);
    by apply (preserves_steps (has_settings (settings m))).
Qed.

(** *** The step count *)

Lemma steps_clock (stepf : M R unit) (n : nat) (m : Model R) :
  clock_step stepf -> (forall x, preserves (has_settings x) stepf) ->
  tc (steps stepf n m) = tc m + returned stepf n m /\
  t (steps stepf n m)
  = Nat.iter (returned stepf n m) (fun x => fadd x (dt m)) (t m).
Proof.
  intros Hc Hs. revert m. induction n as [|n IH]; intros m; simpl.
  - split; [lia|done].
  - destruct (stepf m) as [res m'] eqn:E. simpl.
    destruct (IH m') as [IH1 IH2]. rewrite IH1, IH2.
    assert (Hdt : dt m' = dt m).
    { pose proof (Hs (settings m) _ _ _ eq_refl E) as Hx.
      unfold has_settings, settings, config in Hx. congruence. }
    rewrite Hdt. pose proof (Hc _ _ _ E) as Hstep.
    destruct res as [[]|e]; destruct Hstep as [-> ->].
    + split; [lia|].
      exact (eq_sym (Nat.iter_succ_r _ (fun x => fadd x (dt m)) (t m))).
    + done.
Qed.

(** X12. The step count counts the calls of [step] that returned: after [n]
    calls, [tc] has grown by the number of calls that returned, and [t] is
    the old [t] to which [dt] has been added once for each of them. *)
Theorem clock_counts_returned_steps (dyn : Model R -> Result (Triple R))
    (BL B : Boundaries R) (n : nat) (m : Model R) :
  (let k := returned (NonLinear.step B) n m in
   let m' := steps (NonLinear.step B) n m in
   k <= n /\ tc m' = tc m + k /\
   t m' = Nat.iter k (fun x => fadd x (dt m)) (t m)) /\
  (let k := returned (Linear.step dyn BL) n m in
   let m' := steps (Linear.step dyn BL) n m in
   k <= n /\ tc m' = tc m + k /\
   t m' = Nat.iter k (fun x => fadd x (dt m)) (t m)).
Proof.
  assert (Hle : forall stepf n (m : Model R), returned stepf n m <= n).
  { intros stepf k. induction k as [|k IH]; intros m0; simpl; [done|].
    specialize (IH (snd (stepf m0))). destruct (fst (stepf m0)); lia. }
  destruct (step_clock dyn BL B) as [Hcl Hcn].
  split; simpl; (split; [apply Hle|]); apply steps_clock; try done;
    intros x; by destruct (settings_step x dyn BL B).
Qed.

End Preserves.

Section Registry.
Context {R : Type} {SR : Scalar R} {GR : Grid R} {IR : Integrator R}.
Local Open Scope nat_scope.

(** *** A finished integrator *)

Lemma stopped_bc (B : Boundaries R) :
  preserves stopped (_apply_boundary_conditions B).
Proof.
  intros m res m' HP. unfold _apply_boundary_conditions.
  destruct (bc_state B _) as [[[a b] c]|e]; intros [= <- <-]; done.
Qed.

Lemma stopped_bc_to (B : Boundaries R) (name : string) :
  preserves stopped (_apply_boundary_conditions_to B name).
Proof.
  intros m res m' HP. unfold _apply_boundary_conditions_to.
  destruct (dict_get _ _) as [tr|e]; [|intros [= <- <-]; done].
  destruct (bc_field B _) as [a|e]; intros [= <- <-]; done.
Qed.

Lemma stopped_snapshot (B : Boundaries R) : preserves stopped (snapshot B).
Proof.
  unfold snapshot.
  apply preserves_bind; [apply stopped_bc|]. intros _.
  apply preserves_bind; [apply preserves_eval|]. intros names.
  apply preserves_forM_. intros name. apply stopped_bc_to.
Qed.

Lemma with_stepper_stopped (m : Model R) :
  stopped m -> with_stepper m Finished = m.
Proof. destruct m. unfold stopped. simpl. by intros ->. Qed.

(** Both [step] methods begin with the snapshot; [rest] is what follows
    the boundary operations. *)
Lemma step_after_snapshot (B : Boundaries R) (m : Model R)
    (rest : list string -> M R unit) :
  (run _ <- _apply_boundary_conditions B;
   run names <- eval (fun m => Ok (keys m));
   run _ <- forM_ names (_apply_boundary_conditions_to B);
   rest names) m
  = match snapshot B m with
    | (Ok _, ms) => rest (keys (snd (_apply_boundary_conditions B m))) ms
    | (Raise e, ms) => (Raise e, ms)
    end.
Proof.
  unfold snapshot, bindM, eval.
  destruct (_apply_boundary_conditions B m) as [[[]|e1] m1]; [|done]. simpl.
  by destruct (forM_ (keys m1) (_apply_boundary_conditions_to B) m1)
    as [[[]|e2] m2].
Qed.

Lemma step_stopped (dyn : Model R -> Result (Triple R)) (B : Boundaries R)
    (m : Model R) (stepf : M R unit) :
  stepf = NonLinear.step B \/ stepf = Linear.step dyn B ->
  stopped m ->
  exists e m', stepf m = (Raise e, m') /\ stopped m' /\
    forall ms, snapshot B m = (Ok tt, ms) -> e = StopIteration /\ m' = ms.
Proof.
  intros Hstep Hm.
  assert (Hgen : forall (rhsf : Model R -> Result (Triple R))
                         (rest : list string -> Triple R -> M R unit),
    exists e m',
      (run _ <- _apply_boundary_conditions B;
       run names <- eval (fun m => Ok (keys m));
       run _ <- forM_ names (_apply_boundary_conditions_to B);
       run inc <- next_state rhsf;
       rest names inc) m = (Raise e, m') /\ stopped m' /\
      forall ms, snapshot B m = (Ok tt, ms) -> e = StopIteration /\ m' = ms).
  { intros rhsf rest. rewrite step_after_snapshot.
    destruct (snapshot B m) as [[[]|e] ms] eqn:Hsnap.
    - pose proof (stopped_snapshot B _ _ _ Hm Hsnap) as Hms.
      unfold bindM, next_state, next_with. rewrite Hms.
      rewrite (with_stepper_stopped ms Hms).
      exists StopIteration, ms. split; [done|]. split; [done|].
      by intros ms' [= <-].
    - exists e, ms. split; [done|].
      split; [by apply (stopped_snapshot B _ _ _ Hm Hsnap)|]. done. }
  destruct Hstep as [-> | ->]; apply Hgen.
Qed.

Lemma steps_stopped (dyn : Model R -> Result (Triple R)) (B : Boundaries R)
    (stepf : M R unit) (n : nat) (m : Model R) :
  stepf = NonLinear.step B \/ stepf = Linear.step dyn B ->
  stopped m ->
  stopped (steps stepf n m) /\ tc (steps stepf n m) = tc m /\
  t (steps stepf n m) = t m.
Proof.
  intros Hstep. revert m. induction n as [|n IH]; intros m Hm; simpl; [done|].
  destruct (step_stopped dyn B m stepf Hstep Hm) as (e & m' & Hs & Hm' & _).
  assert (Hclock : clock_step stepf).
  { destruct (step_clock dyn B B) as [Hl Hn]. by destruct Hstep as [-> | ->]. }
  pose proof (Hclock _ _ _ Hs) as [Htc Ht]. rewrite Hs. simpl.
  destruct (IH m' Hm') as (? & ? & ?). repeat split; congruence.
Qed.

(** X15. Once the state's integrator is finished (an exception raised
    while it computed an increment finished it), [step] never returns
    again: every later call raises, with [StopIteration] when the boundary
    operations of that call went through, leaving the model as these made
    it, and the clock stays where it was. *)
Theorem finished_integrator_never_steps
    (dyn : Model R -> Result (Triple R)) (B : Boundaries R) (n : nat)
    (m : Model R) (stepf : M R unit) :
  stepf = NonLinear.step B \/ stepf = Linear.step dyn B ->
  _stepper m = Finished ->
  let m' := steps stepf n m in
  _stepper m' = Finished /\ tc m' = tc m /\ t m' = t m /\
  (exists e, fst (stepf m') = Raise e) /\
  (forall ms, snapshot B m' = (Ok tt, ms) ->
     stepf m' = (Raise StopIteration, ms)).
Proof.
  intros Hstep Hm. simpl.
  destruct (steps_stopped dyn B stepf n m Hstep Hm) as (Hs & Htc & Ht).
  destruct (step_stopped dyn B _ stepf Hstep Hs) as (e & m' & He & _ & Hsnap).
  split; [exact Hs|]. split; [exact Htc|]. split; [exact Ht|].
  split; [exists e; by rewrite He|].
  intros ms Hms. destruct (Hsnap ms Hms) as [-> ->]. exact He.
Qed.

(** *** Reading a tracer *)

Lemma dict_get_missing {V : Type} (d : list (string * V)) (k : string) :
  ~ In k (map fst d) <-> dict_get d k = Raise KeyError.
Proof.
  induction d as [|[k' x] d IH]; simpl; [tauto|].
  destruct (String.eqb k k') eqn:E.
  - apply String.eqb_eq in E. subst k'. split; [tauto|done].
  - apply String.eqb_neq in E. rewrite <- IH. split; [tauto|].
    intros Hd [Hk|Hk]; [congruence|tauto].
Qed.

Lemma dict_get_raises {V : Type} (d : list (string * V)) (k : string)
    (e : Exn) :
  dict_get d k = Raise e -> e = KeyError.
Proof.
  induction d as [|[k' x] d IH]; simpl; [congruence|].
  destruct (String.eqb k k'); [done|exact IH].
Qed.

Lemma dict_get_present {V : Type} (d : list (string * V)) (k : string) :
  In k (map fst d) <-> exists x, dict_get d k = Ok x.
Proof.
  destruct (dict_get d k) as [x|e] eqn:E.
  - split; [by exists x|]. intros _.
    destruct (in_dec String.string_dec k (map fst d)) as [Hin|Hout]; [done|].
    apply dict_get_missing in Hout. congruence.
  - pose proof (dict_get_raises _ _ _ E) as ->.
    apply dict_get_missing in E. split; [tauto|]. by intros [x Hx].
Qed.

(** X1. [tracer(name)] and [_tracer(name)] raise [KeyError] exactly when
    no tracer is registered as [name], and they raise nothing else; for a
    registered name they return the interior of its field and the padded
    field. *)
Theorem tracer_unknown_name (m : Model R) (name : string) :
  (~ In name (keys m) <-> tracer m name = Raise KeyError) /\
  (~ In name (keys m) <-> _tracer m name = Raise KeyError) /\
  (forall e, tracer m name = Raise e \/ _tracer m name = Raise e ->
     e = KeyError) /\
  (In name (keys m) <->
   exists field, _tracer m name = Ok field /\
                 tracer m name = Ok (interior field)).
Proof.
  unfold tracer, _tracer, keys.
  pose proof (dict_get_missing (_tracers m) name) as Hmiss.
  pose proof (dict_get_present (_tracers m) name) as Hpres.
  destruct (dict_get (_tracers m) name) as [tr|e] eqn:E; simpl.
  - split; [rewrite Hmiss; done|]. split; [rewrite Hmiss; done|].
    split; [by intros e [?|?]|].
    split; [by exists (tr_state tr)|]. intros _. apply Hpres. by exists tr.
  - pose proof (dict_get_raises _ _ _ E) as ->.
    split; [by rewrite Hmiss|]. split; [by rewrite Hmiss|].
    split; [intros e [?|?]; congruence|].
    split; [|by intros (f & ? & ?)].
    intros Hin. apply Hpres in Hin as [x Hx]. done.
Qed.

(** *** Registering *)

Lemma keys_dict_set_fresh {V : Type} (d : list (string * V)) (k : string)
    (x : V) :
  ~ In k (map fst d) -> map fst (dict_set d k x) = map fst d ++ [k].
Proof.
  induction d as [|[k' y] d IH]; simpl; [done|]. intros Hout.
  destruct (String.eqb k k') eqn:E.
  - apply String.eqb_eq in E. subst k'. tauto.
  - simpl. f_equal. apply IH. tauto.
Qed.

(** X3. A registration that returns changes the registry only: the
    fields, the clock, the state's integrator, the forcings and the
    configuration are as before, every tracer of another name is as before,
    a name that is new comes last in the order of the registry and a name
    that was registered keeps its place, so that no name occurs twice. *)
Theorem add_tracer_frame (m m' : Model R) (name : string) (v : Arr R)
    (rhs : RhsSpec R) (kappa : R) (apply_damping : bool) :
  add_tracer name v rhs kappa apply_damping m = (Ok tt, m') ->
  (_u m' = _u m /\ _v m' = _v m /\ _phi m' = _phi m) /\
  (tc m' = tc m /\ t m' = t m /\ _stepper m' = _stepper m) /\
  (_forcings m' = _forcings m /\ config m' = config m) /\
  (forall k, k <> name ->
     dict_get (_tracers m') k = dict_get (_tracers m) k /\
     tracer m' k = tracer m k) /\
  (In name (keys m) -> keys m' = keys m) /\
  (~ In name (keys m) -> keys m' = keys m ++ [name]) /\
  (NoDup (keys m) -> NoDup (keys m')).
Proof.
  unfold add_tracer. destruct (set_interior _ _) as [state1|e]; [|done].
  intros [= <-]. split; [done|]. split; [done|]. split; [done|].
  unfold keys, tracer. simpl.
  assert (Hin : In name (map fst (_tracers m)) ->
                map fst (dict_set (_tracers m) name
                           {| tr_state := state1; tr_stepper := Running [];
                              tr_rhs := rhs; tr_kappa := kappa;
                              tr_apply_damping := apply_damping |})
                = map fst (_tracers m)).
  { intros Hin. apply dict_get_present in Hin as [x Hx].
    by eapply keys_dict_set_present. }
  split; [|split; [exact Hin|split; [apply keys_dict_set_fresh|]]].
  - intros k Hk.
    assert (Hget : dict_get
                     (dict_set (_tracers m) name
                        {| tr_state := state1; tr_stepper := Running [];
                           tr_rhs := rhs; tr_kappa := kappa;
                           tr_apply_damping := apply_damping |}) k
                   = dict_get (_tracers m) k)
      by (apply dict_get_set_ne; congruence).
    by rewrite Hget.
  - intros Hnd.
    destruct (in_dec String.string_dec name (map fst (_tracers m)))
      as [Hi|Ho].
    + by rewrite Hin.
    + rewrite keys_dict_set_fresh by done.
      apply NoDup_app. split; [done|]. split; [|apply NoDup_singleton].
      intros x Hx Hx'. apply list_elem_of_In in Hx.
      apply list_elem_of_singleton in Hx'. by subst.
Qed.

(** *** Forcings *)

Lemma add_forcings_app (fs : list (View R -> Result (Triple R)))
    (fn : View R -> Result (Triple R)) (m : Model R) (z : Triple R) :
  add_forcings (fs ++ [fn]) m z
  = (do d <- add_forcings fs m z; do x <- fn (view m); triple_op add d x).
Proof.
  revert z. induction fs as [|f fs IH]; intros z; simpl.
  - destruct (fn (view m)) as [x|e]; simpl; [|done].
    by destruct (triple_op add z x).
  - destruct (f (view m)) as [x|e]; simpl; [|done].
    destruct (triple_op add z x) as [z'|e]; simpl; [|done]. apply IH.
Qed.

Lemma add_forcings_view (fs : list (View R -> Result (Triple R)))
    (m1 m2 : Model R) (z : Triple R) :
  view m1 = view m2 -> add_forcings fs m1 z = add_forcings fs m2 z.
Proof.
  intros Hv. revert z. induction fs as [|f fs IH]; intros z; simpl; [done|].
  rewrite Hv. destruct (f (view m2)) as [x|e]; simpl; [|done].
  destruct (triple_op add z x) as [z'|e]; simpl; [|done]. apply IH.
Qed.

(** X4. [add_forcing] puts the function last: what a tendency can read,
    the state and the tracers are as before, and the tendency of
    nonlinear.py becomes the old tendency to which the new forcing, read
    from the same model, is added field by field, each sum by numpy's
    broadcasting with no check of its shape; an exception of the old
    tendency or of the new forcing is the exception of the new tendency.
    The loop of linear.py accumulates the forcings in the same order. *)
Theorem forcing_registered_last (m : Model R)
    (fn : View R -> Result (Triple R)) :
  let m' := snd (add_forcing fn m) in
  fst (add_forcing fn m) = Ok tt /\
  _forcings m' = _forcings m ++ [fn] /\
  view m' = view m /\ state m' = state m /\ _tracers m' = _tracers m /\
  NonLinear.rhs m'
  = (do d <- NonLinear.rhs m; do x <- fn (view m); triple_op add d x) /\
  forall z,
    add_forcings (_forcings m') m' z
    = (do d <- add_forcings (_forcings m) m z;
       do x <- fn (view m); triple_op add d x).
Proof.
  simpl. repeat split.
  - unfold NonLinear.rhs. simpl.
    change (nonlinear_terms (nu m) (with_forcings m (_forcings m ++ [fn])))
      with (nonlinear_terms (nu m) m).
    destruct (nonlinear_terms (nu m) m) as [d|e]; simpl; [|done].
    rewrite (add_forcings_view _ _ m) by done.
    apply (add_forcings_app (_forcings m) fn m d).
  - intros z. rewrite (add_forcings_view _ _ m) by done.
    apply (add_forcings_app (_forcings m) fn m z).
Qed.

End Registry.

(** ** The shapes of the stored fields *)

Section Shapes.
Context {R : Type} {SR : Scalar R} {GR : Grid R} {IR : Integrator R}.
Local Open Scope nat_scope.

Lemma mapM_bc_len_shape (m : nat) (v rows : Arr R) :
  mapM (bc_len m) v = Ok rows -> Forall (fun row => length row = m) rows.
Proof.
  revert rows. induction v as [|row v IH]; simpl; intros rows.
  - by intros [= <-].
  - destruct (bc_len m row) as [row'|e] eqn:Hrow; simpl; [|done].
    destruct (mapM (bc_len m) v) as [rows'|e]; simpl; [|done].
    intros [= <-]. constructor; [|by apply IH].
    unfold bc_len in Hrow.
    destruct (length row =? m) eqn:E.
    + apply Nat.eqb_eq in E. by injection Hrow as <-.
    + destruct row as [|c [|? ?]]; try done.
      injection Hrow as <-. apply length_replicate.
Qed.

Lemma broadcast_to_shape (n m : nat) (v vb : Arr R) :
  broadcast_to n m v = Ok vb -> has_shape n m vb.
Proof.
  unfold broadcast_to.
  destruct (mapM (bc_len m) v) as [rows|e] eqn:Hrows; simpl; [|done].
  apply mapM_bc_len_shape in Hrows.
  destruct (length rows =? n) eqn:E.
  - apply Nat.eqb_eq in E. by intros [= <-].
  - destruct rows as [|row [|? ?]]; try done. intros [= <-].
    split; [apply length_replicate|].
    apply Forall_replicate. by inversion Hrows.
Qed.

Lemma broadcast_to_raises (n m : nat) (v : Arr R) (e : Exn) :
  broadcast_to n m v = Raise e -> e = ValueError.
Proof.
  unfold broadcast_to.
  destruct (mapM (bc_len m) v) as [rows|e'] eqn:Hrows; simpl.
  - destruct (length rows =? n); [done|].
    destruct rows as [|row [|? ?]]; congruence.
  - intros [= <-]. clear n. revert e' Hrows.
    induction v as [|row v IH]; simpl; intros e'; [done|].
    destruct (bc_len m row) as [row'|e1] eqn:Hrow; simpl.
    + destruct (mapM (bc_len m) v) as [rows'|e2]; simpl; [done|].
      intros [= <-]. by apply IH.
    + intros [= <-]. unfold bc_len in Hrow.
      destruct (length row =? m); [done|].
      destruct row as [|c [|? ?]]; congruence.
Qed.

(** Assigning to the interior view: the values are broadcast to the
    interior, which then holds them, and the shape stays. *)
Lemma set_interior_spec (n m : nat) (a v a' : Arr R) :
  has_shape (n + 2) (m + 2) a -> set_interior a v = Ok a' ->
  has_shape (n + 2) (m + 2) a' /\ broadcast_to n m v = Ok (interior a').
Proof.
  intros Ha Hset.
  assert (Hlen : length a - 2 = n) by (destruct Ha as [-> _]; lia).
  assert (Hnc : ncols a - 2 = m).
  { rewrite (ncols_shape _ _ _ Ha); [lia|].
    destruct Ha as [Hl _]. destruct a; simpl in *; [lia|done]. }
  unfold set_interior in Hset. rewrite Hlen, Hnc in Hset.
  destruct (broadcast_to n m v) as [vb|e] eqn:Hvb; simpl in Hset; [|done].
  pose proof (broadcast_to_shape _ _ _ _ Hvb) as Hs.
  destruct (interior_set_interior n m a vb Ha Hs) as (a'' & Ha'' & Hint & Hsh).
  unfold set_interior in Ha''. rewrite Hlen, Hnc in Ha''.
  rewrite (broadcast_to_id _ _ _ Hs) in Ha''. simpl in Ha''.
  assert (a'' = a') by congruence. subst a''. by rewrite Hint.
Qed.

Lemma set_interior_raises (n m : nat) (a v : Arr R) (e : Exn) :
  set_interior a v = Raise e -> e = ValueError.
Proof.
  unfold set_interior.
  destruct (broadcast_to _ _ v) as [vb|e'] eqn:Hvb; simpl; [done|].
  intros [= <-]. by eapply broadcast_to_raises.
Qed.

Lemma Forall_dict_set {V : Type} (P : V -> Prop) (d : list (string * V))
    (k : string) (x : V) :
  Forall (fun p => P (snd p)) d -> P x ->
  Forall (fun p => P (snd p)) (dict_set d k x).
Proof.
  intros Hd Hx. induction Hd as [|[k' y] d Hy Hd IH]; simpl.
  - by repeat constructor.
  - destruct (String.eqb k k'); constructor; done.
Qed.

Lemma dict_get_Forall {V : Type} (P : V -> Prop) (d : list (string * V))
    (k : string) (x : V) :
  Forall (fun p => P (snd p)) d -> dict_get d k = Ok x -> P x.
Proof.
  induction 1 as [|[k' y] d Hy Hd IH]; simpl; [done|].
  destruct (String.eqb k k'); [by intros [= <-]|exact IH].
Qed.

Ltac unshape := unfold shaped, well_shaped, tracers_shaped, nx, ny in *.

Lemma shaped_bc (B : Boundaries R) :
  keeps_shapes B -> preserves shaped (_apply_boundary_conditions B).
Proof.
  intros [HB _] m res m' ((Hu & Hv & Hp) & Ht).
  unfold _apply_boundary_conditions.
  destruct (HB _ _ _ _ _ Hu Hv Hp) as (a & b & c & -> & Ha & Hb & Hc).
  intros [= <- <-]. by unshape.
Qed.

Lemma shaped_bc_to (B : Boundaries R) (name : string) :
  keeps_shapes B -> preserves shaped (_apply_boundary_conditions_to B name).
Proof.
  intros [_ HB] m res m' (Hw & Ht). unfold _apply_boundary_conditions_to.
  destruct (dict_get _ _) as [tr|e] eqn:Hd; [|by intros [= <- <-]].
  pose proof (dict_get_Forall (field_shaped (geom m)) _ _ _ Ht Hd) as Htr.
  destruct (HB _ _ _ Htr) as (f' & -> & Hf'). intros [= <- <-].
  split; [done|]. unshape. simpl.
  by apply (Forall_dict_set (field_shaped (geom m))).
Qed.

Lemma shaped_next_state (rhsf : Model R -> Result (Triple R)) :
  preserves shaped (next_state rhsf).
Proof.
  intros m res m' HP. unfold next_state.
  destruct (next_with _ _ _) as [r0 s']. by intros [= <- <-].
Qed.

Lemma shaped_next_tracer (cons : Model R -> string -> Result (Arr R))
    (name : string) :
  preserves shaped (next_tracer cons name).
Proof.
  intros m res m' (Hw & Ht). unfold next_tracer.
  destruct (dict_get _ _) as [tr|e] eqn:Hd; [|by intros [= <- <-]].
  pose proof (dict_get_Forall (field_shaped (geom m)) _ _ _ Ht Hd) as Htr.
  destruct (next_with _ _ _) as [r0 s']. intros [= <- <-].
  split; [done|]. unshape. simpl.
  by apply (Forall_dict_set (field_shaped (geom m))).
Qed.

Lemma shaped_set_tracer_interior (name : string) (nfield : Arr R) :
  preserves shaped (set_tracer_interior name nfield).
Proof.
  intros m res m' (Hw & Ht). unfold set_tracer_interior.
  destruct (dict_get _ _) as [tr|e] eqn:Hd; [|by intros [= <- <-]].
  pose proof (dict_get_Forall (field_shaped (geom m)) _ _ _ Ht Hd) as Htr.
  destruct (set_interior _ _) as [a|e] eqn:Hset; [|by intros [= <- <-]].
  destruct (set_interior_spec _ _ _ _ _ Htr Hset) as [Ha _].
  intros [= <- <-]. split; [done|]. unshape. simpl.
  by apply (Forall_dict_set (field_shaped (geom m))).
Qed.

Lemma shaped_set_state (value : Triple R) : preserves shaped (set_state value).
Proof.
  intros m res m' ((Hu & Hv & Hp) & Ht). unfold set_state.
  destruct value as [[a b] c].
  replace (nx m + 3) with (S (nx m) + 2) in Hu by lia.
  replace (ny m + 3) with (S (ny m) + 2) in Hv by lia.
  assert (Hu3 : forall x : Arr R,
            has_shape (S (nx m) + 2) (ny m + 2) x ->
            has_shape (nx m + 3) (ny m + 2) x).
  { intros x. by replace (nx m + 3) with (S (nx m) + 2) by lia. }
  assert (Hv3 : forall x : Arr R,
            has_shape (nx m + 2) (S (ny m) + 2) x ->
            has_shape (nx m + 2) (ny m + 3) x).
  { intros x. by replace (ny m + 3) with (S (ny m) + 2) by lia. }
  destruct (set_interior (_u m) a) as [u'|e] eqn:Hsu;
    [|intros [= <- <-]; split; [split; [|split]|]; auto].
  destruct (set_interior_spec _ _ _ _ _ Hu Hsu) as [Hu' _].
  destruct (set_interior (_v m) b) as [v'|e] eqn:Hsv;
    [|intros [= <- <-]; split; [split; [|split]|]; auto].
  destruct (set_interior_spec _ _ _ _ _ Hv Hsv) as [Hv' _].
  destruct (set_interior (_phi m) c) as [p'|e] eqn:Hsp;
    [|intros [= <- <-]; split; [split; [|split]|]; auto].
  destruct (set_interior_spec _ _ _ _ _ Hp Hsp) as [Hp' _].
  intros [= <- <-]; split; [split; [|split]|]; auto.
Qed.

Lemma shaped_tick :
  preserves shaped
    (modify (R:=R) (fun m => with_clock m (fadd (t m) (dt m)) (S (tc m)))).
Proof. intros m res m' HP. by intros [= <- <-]. Qed.

Lemma shaped_add_forcing (fn : View R -> Result (Triple R)) :
  preserves shaped (add_forcing fn).
Proof. intros m res m' HP. by intros [= <- <-]. Qed.

Lemma shaped_add_tracer (name : string) (v : Arr R) (rhs : RhsSpec R)
    (kappa : R) (apply_damping : bool) :
  preserves shaped (add_tracer name v rhs kappa apply_damping).
Proof.
  intros m res m' ((Hu & Hv & Hp) & Ht). unfold add_tracer.
  rewrite (zeros_like_shape _ _ _ Hp).
  destruct (set_interior _ _) as [a|e] eqn:Hset; [|by intros [= <- <-]].
  destruct (set_interior_spec _ _ _ _ _ (has_shape_zeros _ _) Hset)
    as [Ha _].
  intros [= <- <-]. split; [done|]. unshape. simpl.
  by apply (Forall_dict_set (field_shaped (geom m))).
Qed.

Lemma shaped_step (dyn : Model R -> Result (Triple R)) (B : Boundaries R) :
  keeps_shapes B ->
  preserves shaped (Linear.step dyn B) /\ preserves shaped (NonLinear.step B).
Proof.
  intros HB. split.
  - unfold Linear.step.
    repeat first
      [ apply preserves_bind; [|intros ?]
      | apply preserves_forM_; intros ?
      | apply preserves_forM; intros ?
      | apply preserves_eval
      | by apply shaped_bc | by apply shaped_bc_to
      | apply shaped_next_state
      | apply shaped_next_tracer | apply shaped_set_tracer_interior
      | apply shaped_set_state | apply shaped_tick ].
  - unfold NonLinear.step.
    repeat first
      [ apply preserves_bind; [|intros ?]
      | apply preserves_forM_; intros ?
      | apply preserves_forM; intros ?
      | apply preserves_eval
      | by apply shaped_bc | by apply shaped_bc_to
      | apply shaped_next_state
      | apply shaped_next_tracer | apply shaped_set_tracer_interior
      | apply shaped_set_state | apply shaped_tick ].
Qed.

Lemma shaped_init_nonlinear (nx ny : nat) (Lx Ly f0 beta nu r dt : R) :
  shaped (NonLinear.init nx ny Lx Ly f0 beta nu r dt).
Proof.
  split; [|by constructor]. repeat split; simpl;
    first [apply length_replicate | apply Forall_replicate, length_replicate].
Qed.

Lemma shaped_init_linear (nx ny : nat) (Lx Ly f0 beta g H nu : R)
    (nu_phi : option R) (r dt : R) :
  shaped (Linear.init nx ny Lx Ly f0 beta nu nu_phi r dt) /\
  shaped (Linear.init_linear nx ny Lx Ly f0 beta g H nu nu_phi r dt).
Proof.
  split; (split; [|by constructor]); repeat split; simpl;
    first [apply length_replicate | apply Forall_replicate, length_replicate].
Qed.

(** The boundary operations of a step go through on a model that holds
    the storage invariant. *)
Lemma snapshot_shaped (B : Boundaries R) (m : Model R) :
  keeps_shapes B -> shaped m ->
  exists ms, snapshot B m = (Ok tt, ms) /\ shaped ms /\ keys ms = keys m.
Proof.
  intros HB Hm. unfold snapshot, bindM at 1.
  destruct (_apply_boundary_conditions B m) as [res m1] eqn:Hbc.
  pose proof (shaped_bc B HB _ _ _ Hm Hbc) as Hm1.
  assert (Hres : res = Ok tt /\ keys m1 = keys m).
  { unfold _apply_boundary_conditions in Hbc.
    destruct Hm as ((Hu & Hv & Hp) & _). destruct HB as [HB _].
    destruct (HB _ _ _ _ _ Hu Hv Hp) as (a & b & c & Hs & _).
    rewrite Hs in Hbc. by injection Hbc as <- <-. }
  destruct Hres as [-> Hkeys]. unfold bindM at 1, eval. rewrite <- Hkeys.
  clear Hbc Hkeys Hm m.
  assert (Hloop : forall names m,
            shaped m -> (forall k, In k names -> In k (keys m)) ->
            exists ms, forM_ names (_apply_boundary_conditions_to B) m
                       = (Ok tt, ms) /\ shaped ms /\ keys ms = keys m).
  { induction names as [|k names IH]; intros m Hm Hin; simpl.
    - by exists m.
    - unfold bindM.
      destruct (_apply_boundary_conditions_to B k m) as [res m2] eqn:Hk.
      pose proof (shaped_bc_to B k HB _ _ _ Hm Hk) as Hm2.
      assert (Hres : res = Ok tt /\ keys m2 = keys m).
      { unfold _apply_boundary_conditions_to in Hk.
        destruct (proj1 (dict_get_present (_tracers m) k)) as [tr Htr];
          [apply Hin; by left|].
        rewrite Htr in Hk. destruct Hm as [_ Ht].
        pose proof (dict_get_Forall (field_shaped (geom m)) _ _ _ Ht Htr) as Hs.
        destruct HB as [_ HB]. destruct (HB _ _ _ Hs) as (f' & Hf' & _).
        rewrite Hf' in Hk. injection Hk as <- <-. split; [done|].
        unfold keys. simpl. by eapply keys_dict_set_present. }
      destruct Hres as [-> Hkeys].
      destruct (IH m2 Hm2) as (ms & Hms & Hs & Hk').
      { intros k' Hk'. rewrite Hkeys. apply Hin. by right. }
      exists ms. split; [done|]. split; [done|]. congruence. }
  apply Hloop; done.
Qed.

(** X10. The storage invariant.  Whatever a program does with a model
    (construct it with any arguments, register forcings and tracers,
    assign to the state, call [step], whether these calls return or raise),
    the padded fields of the state and of every tracer keep the shapes the
    grid allocated, and the boundary operations with which the next [step]
    begins go through. *)
Theorem storage_invariant (dyn : Model R -> Result (Triple R))
    (B : Boundaries R) (stepf : M R unit) (m : Model R) :
  keeps_shapes B ->
  stepf = NonLinear.step B \/ stepf = Linear.step dyn B ->
  built stepf m ->
  shaped m /\
  exists ms, snapshot B m = (Ok tt, ms) /\ shaped ms /\ keys ms = keys m.
Proof.
  intros HB Hstep Hm.
  assert (Hs : shaped m).
  { induction Hm as [| | |m fn _ IH|m name v rhs kappa damp _ IH
                     |m value _ IH|m _ IH].
    - apply shaped_init_nonlinear.
    - by apply shaped_init_linear.
    - by apply shaped_init_linear.
    - by apply (shaped_add_forcing fn m (fst (add_forcing fn m)));
        [|apply surjective_pairing].
    - by eapply (shaped_add_tracer name v rhs kappa damp m);
        [|apply surjective_pairing].
    - by eapply (shaped_set_state value m); [|apply surjective_pairing].
    - destruct (shaped_step dyn B HB) as [Hl Hn].
      destruct Hstep as [-> | ->].
      + by eapply (Hn m); [|apply surjective_pairing].
      + by eapply (Hl m); [|apply surjective_pairing]. }
  split; [exact Hs|]. by apply snapshot_shaped.
Qed.

End Shapes.

Section ShapesOfNonLinear.
Context {R : Type} {SR : Scalar R} {GR : Grid R} {IR : Integrator R}.
Context {CL : CornerLaws R}.
Local Open Scope nat_scope.

Lemma periodic_keeps_shapes : keeps_shapes (NonLinear.Periodic (R:=R)).
Proof.
  split.
  - intros nx ny a b c Ha Hb Hc. simpl.
    destruct (periodic_u_spec _ _ a Ha) as (a' & Ha' & Has & _); [lia|lia|].
    destruct (periodic_field_spec _ _ b Hb) as (b' & Hb' & Hbs & _);
      [lia|lia|].
    destruct (periodic_field_spec _ _ c Hc) as (c' & Hc' & Hcs & _);
      [lia|lia|].
    exists a', b', c'. split; [by apply periodic_state_ok|done].
  - intros nx ny f Hf. simpl.
    destruct (periodic_field_spec _ _ f Hf) as (f' & Hf' & Hfs & _);
      [lia|lia|].
    by exists f'.
Qed.

Lemma walled_keeps_shapes : keeps_shapes (NonLinear.Walled (R:=R)).
Proof.
  split.
  - intros nx ny a b c Ha Hb Hc. simpl.
    destruct (walled_u_spec _ _ a Ha) as (a' & Ha' & Has & _); [lia|lia|].
    destruct (walled_field_spec _ _ b Hb) as (b' & Hb' & Hbs & _);
      [lia|lia|].
    destruct (walled_field_spec _ _ c Hc) as (c' & Hc' & Hcs & _);
      [lia|lia|].
    exists a', b', c'. split; [by apply walled_state_ok|done].
  - intros nx ny f Hf. simpl.
    destruct (walled_field_spec _ _ f Hf) as (f' & Hf' & Hfs & _);
      [lia|lia|].
    by exists f'.
Qed.

End ShapesOfNonLinear.

(** ** Interiors and boundaries *)

Section Interior.
Context {R : Type} {SR : Scalar R}.
Local Open Scope nat_scope.

Lemma lookup_inner {A : Type} (l : list A) (i : nat) :
  inner l !! i = if decide (i < length l - 2) then l !! S i else None.
Proof.
  unfold inner. rewrite removelast_firstn_len, lookup_take.
  destruct l as [|x l]; simpl; [by repeat case_decide|].
  repeat case_decide; try done; lia.
Qed.

Lemma inner_ext {A : Type} (l1 l2 : list A) :
  length l1 = length l2 ->
  (forall y, 1 <= y <= length l1 - 2 -> l1 !! y = l2 !! y) ->
  inner l1 = inner l2.
Proof.
  intros Hlen Hy. apply list_eq. intros i. rewrite !lookup_inner, <- Hlen.
  case_decide; [|done]. apply Hy. lia.
Qed.

Lemma interior_lookup (n m : nat) (a : Arr R) (i : nat) :
  has_shape n m a ->
  interior a !! i = if decide (i < n - 2) then inner <$> a !! S i else None.
Proof.
  intros [Hn _]. unfold interior, inner_y, inner_x.
  rewrite list_lookup_fmap, lookup_inner, Hn. by case_decide.
Qed.

Lemma shape_row (n m : nat) (a : Arr R) (i : nat) (row : list R) :
  has_shape n m a -> a !! i = Some row -> length row = m.
Proof.
  intros [_ Hm] Hrow. rewrite Forall_forall in Hm. apply Hm.
  by eapply list_elem_of_lookup_2.
Qed.

Lemma interior_row_ext (n m : nat) (a b : Arr R) (i i' : nat) :
  has_shape n m a -> has_shape n m b -> i < n - 2 -> i' < n - 2 ->
  (forall y, 1 <= y <= m - 2 -> cell a (S i) y = cell b (S i') y) ->
  interior a !! i = interior b !! i'.
Proof.
  intros Ha Hb Hi Hi' Hc.
  rewrite (interior_lookup n m a i Ha), (interior_lookup n m b i' Hb).
  rewrite !decide_True by done.
  destruct (lookup_lt_is_Some_2 a (S i)) as [ra Hra];
    [destruct Ha as [-> _]; lia|].
  destruct (lookup_lt_is_Some_2 b (S i')) as [rb Hrb];
    [destruct Hb as [-> _]; lia|].
  rewrite Hra, Hrb. simpl. f_equal.
  pose proof (shape_row _ _ _ _ _ Ha Hra) as Hla.
  pose proof (shape_row _ _ _ _ _ Hb Hrb) as Hlb.
  apply inner_ext; [congruence|]. intros y Hy.
  specialize (Hc y). unfold cell in Hc. rewrite Hra, Hrb in Hc.
  apply Hc. lia.
Qed.

Lemma interior_row_const (n m : nat) (a : Arr R) (i : nat) (c : R) :
  has_shape n m a -> i < n - 2 ->
  (forall y, 1 <= y <= m - 2 -> cell a (S i) y = Some c) ->
  interior a !! i = Some (replicate (m - 2) c).
Proof.
  intros Ha Hi Hc. rewrite (interior_lookup n m a i Ha).
  rewrite decide_True by done.
  destruct (lookup_lt_is_Some_2 a (S i)) as [ra Hra];
    [destruct Ha as [-> _]; lia|].
  rewrite Hra. simpl. f_equal.
  pose proof (shape_row _ _ _ _ _ Ha Hra) as Hla.
  apply list_eq. intros y. rewrite lookup_inner, Hla.
  case_decide as Hy.
  - rewrite lookup_replicate_2 by done.
    specialize (Hc (S y)). unfold cell in Hc. rewrite Hra in Hc.
    apply Hc. lia.
  - symmetry. apply lookup_replicate_None. lia.
Qed.

Lemma interior_ext (n m : nat) (a b : Arr R) :
  has_shape n m a -> has_shape n m b ->
  (forall x y, 1 <= x <= n - 2 -> 1 <= y <= m - 2 ->
     cell a x y = cell b x y) ->
  interior a = interior b.
Proof.
  intros Ha Hb Hc. apply list_eq. intros i.
  destruct (decide (i < n - 2)) as [Hi|Hi].
  - apply (interior_row_ext n m); try done. intros y Hy. apply Hc; lia.
  - rewrite (interior_lookup n m a i Ha), (interior_lookup n m b i Hb).
    by rewrite !decide_False.
Qed.

End Interior.

Section BoundaryInteriors.
Context {R : Type} {SR : Scalar R} {GR : Grid R} {IR : Integrator R}.
Context {CL : CornerLaws R}.
Local Open Scope nat_scope.

Lemma field_interior (bc : Arr R -> Result (Arr R)) (n m : nat)
    (f f' : Arr R) :
  bc = NonLinear.periodic_field \/ bc = NonLinear.walled_field ->
  has_shape n m f -> 2 <= n -> 2 <= m -> bc f = Ok f' ->
  has_shape n m f' /\ interior f' = interior f.
Proof.
  intros [-> | ->] Hf Hn Hm Hbc.
  - destruct (periodic_field_spec n m f Hf Hn Hm) as (f1 & Hf1 & Hs & Hc).
    assert (f1 = f') by congruence. subst f1. split; [done|].
    apply (interior_ext n m); try done. intros x y Hx Hy.
    rewrite Hc by (unfold is_corner; lia). cells.
  - destruct (walled_field_spec n m f Hf Hn Hm) as (f1 & Hf1 & Hs & Hc).
    assert (f1 = f') by congruence. subst f1. split; [done|].
    apply (interior_ext n m); try done. intros x y Hx Hy.
    rewrite Hc by (unfold is_corner; lia). cells.
Qed.

(** The cells of the three fields after a state operation of
    nonlinear.py. *)
Lemma periodic_state_cells (nx ny : nat) (a b c a' b' c' : Arr R) :
  has_shape (nx + 3) (ny + 2) a -> has_shape (nx + 2) (ny + 3) b ->
  has_shape (nx + 2) (ny + 2) c ->
  NonLinear.periodic_state (a, b, c) = Ok (a', b', c') ->
  periodic_u a = Ok a' /\ NonLinear.periodic_field b = Ok b' /\
  NonLinear.periodic_field c = Ok c'.
Proof.
  intros Ha Hb Hc Hs.
  destruct (periodic_u_spec _ _ a Ha) as (a1 & Ha1 & _); [lia|lia|].
  destruct (periodic_field_spec _ _ b Hb) as (b1 & Hb1 & _); [lia|lia|].
  destruct (periodic_field_spec _ _ c Hc) as (c1 & Hc1 & _); [lia|lia|].
  rewrite (periodic_state_ok _ _ _ _ _ _ Ha1 Hb1 Hc1) in Hs.
  by injection Hs as <- <- <-.
Qed.

Lemma walled_state_cells (nx ny : nat) (a b c a' b' c' : Arr R) :
  has_shape (nx + 3) (ny + 2) a -> has_shape (nx + 2) (ny + 3) b ->
  has_shape (nx + 2) (ny + 2) c ->
  NonLinear.walled_state (a, b, c) = Ok (a', b', c') ->
  walled_u a = Ok a' /\ NonLinear.walled_field b = Ok b' /\
  NonLinear.walled_field c = Ok c'.
Proof.
  intros Ha Hb Hc Hs.
  destruct (walled_u_spec _ _ a Ha) as (a1 & Ha1 & _); [lia|lia|].
  destruct (walled_field_spec _ _ b Hb) as (b1 & Hb1 & _); [lia|lia|].
  destruct (walled_field_spec _ _ c Hc) as (c1 & Hc1 & _); [lia|lia|].
  rewrite (walled_state_ok _ _ _ _ _ _ Ha1 Hb1 Hc1) in Hs.
  by injection Hs as <- <- <-.
Qed.

(** What the loop over the tracers leaves of a snapshot. *)
Lemma snapshot_split (B : Boundaries R) (m ms : Model R) :
  snapshot B m = (Ok tt, ms) ->
  exists m1, _apply_boundary_conditions B m = (Ok tt, m1) /\
    forM_ (keys m1) (_apply_boundary_conditions_to B) m1 = (Ok tt, ms).
Proof.
  unfold snapshot, bindM, eval.
  destruct (_apply_boundary_conditions B m) as [[[]|e] m1]; [|done].
  intros Hloop. by exists m1.
Qed.

Lemma fields_bc_to (x : Arr R * Arr R * Arr R) (B : Boundaries R)
    (name : string) :
  preserves (fun m => (_u m, _v m, _phi m) = x)
    (_apply_boundary_conditions_to B name).
Proof.
  intros m res m' HP. unfold _apply_boundary_conditions_to.
  destruct (dict_get _ _) as [tr|e]; [|by intros [= <- <-]].
  destruct (bc_field B _) as [a|e]; by intros [= <- <-].
Qed.

Lemma tracers_bc_to (B : Boundaries R) (name : string)
    (f : string -> Result (Arr R)) :
  B = NonLinear.Periodic \/ B = NonLinear.Walled ->
  preserves (fun m => tracers_shaped m /\ forall k, tracer m k = f k)
    (_apply_boundary_conditions_to B name).
Proof.
  intros HB m res m' [Ht Hf]. unfold _apply_boundary_conditions_to.
  destruct (dict_get _ _) as [tr|e] eqn:Hd; [|by intros [= <- <-]].
  destruct (bc_field B _) as [a|e] eqn:Ha; [|by intros [= <- <-]].
  intros [= <- <-].
  pose proof (dict_get_Forall (field_shaped (geom m)) _ _ _ Ht Hd) as Htr.
  destruct (field_interior (bc_field B) _ _ _ a
              (match HB with
               | or_introl e => or_introl (f_equal bc_field e)
               | or_intror e => or_intror (f_equal bc_field e)
               end) Htr) as [Hs Hi]; [lia|lia|done|].
  split.
  - unfold tracers_shaped. simpl.
    by apply (Forall_dict_set (field_shaped (geom m))).
  - intros k. rewrite <- Hf. unfold tracer. simpl.
    destruct (decide (k = name)) as [->|Hk].
    + rewrite dict_get_set_eq, Hd. simpl. by rewrite Hi.
    + by rewrite dict_get_set_ne by congruence.
Qed.

(** X7. The boundary operations with which a step begins write into the
    padding only, except for the along-x velocity: what [v], [phi] and
    [tracer(name)] return is the same after them as before, in the periodic
    and in the walled class. *)
Theorem boundaries_keep_interiors (B : Boundaries R) (m ms : Model R) :
  B = NonLinear.Periodic \/ B = NonLinear.Walled ->
  shaped m -> snapshot B m = (Ok tt, ms) ->
  v ms = v m /\ phi ms = phi m /\
  forall name, tracer ms name = tracer m name.
Proof.
  intros HB ((Hu & Hv & Hp) & Ht) Hsnap.
  destruct (snapshot_split B m ms Hsnap) as (m1 & Hbc & Hloop).
  assert (H1 : SW.v m1 = SW.v m /\ SW.phi m1 = SW.phi m /\
               _tracers m1 = _tracers m /\ geom m1 = geom m).
  { unfold _apply_boundary_conditions in Hbc.
    destruct (bc_state B _) as [[[a b] c]|e] eqn:Hs; [|done].
    injection Hbc as <-. unfold SW.v, SW.phi. simpl.
    assert (Hbc : NonLinear.periodic_field (_v m) = Ok b /\
                  NonLinear.periodic_field (_phi m) = Ok c \/
                  NonLinear.walled_field (_v m) = Ok b /\
                  NonLinear.walled_field (_phi m) = Ok c).
    { destruct HB as [-> | ->]; simpl in Hs.
      - left. by destruct (periodic_state_cells _ _ _ _ _ _ _ _ Hu Hv Hp Hs)
          as (_ & ? & ?).
      - right. by destruct (walled_state_cells _ _ _ _ _ _ _ _ Hu Hv Hp Hs)
          as (_ & ? & ?). }
    destruct Hbc as [[Hb Hc] | [Hb Hc]].
    - destruct (field_interior _ _ _ _ b (or_introl eq_refl) Hv) as [_ ->];
        [lia|lia|done|].
      by destruct (field_interior _ _ _ _ c (or_introl eq_refl) Hp)
        as [_ ->]; [lia|lia|done|].
    - destruct (field_interior _ _ _ _ b (or_intror eq_refl) Hv) as [_ ->];
        [lia|lia|done|].
      by destruct (field_interior _ _ _ _ c (or_intror eq_refl) Hp)
        as [_ ->]; [lia|lia|done|]. }
  destruct H1 as (H1v & H1p & H1t & H1g).
  pose proof (preserves_forM_ _ (keys m1) _
                (fields_bc_to (_u m1, _v m1, _phi m1) B) m1 (Ok tt) ms eq_refl
                Hloop)
    as Hf.
  pose proof (preserves_forM_ _ (keys m1) _
                (fun name => tracers_bc_to B name (tracer m1) HB) m1 (Ok tt)
                ms)
    as Hk.
  destruct Hk as [_ Hk]; [|exact Hloop|].
  { split; [|done]. unfold tracers_shaped. by rewrite H1t, H1g. }
  injection Hf as Hfu Hfv Hfp.
  split; [unfold SW.v in *; congruence|].
  split; [unfold SW.phi in *; congruence|].
  intros name. rewrite Hk. unfold tracer. by rewrite H1t.
Qed.

(** X8. What the boundary operations do to the along-x velocity [u]: the
    periodic class overwrites its first column with its last,
    [u[0, :] = u[-1, :]], and the walled class sets the first and the last
    column to zero; every other column of [u] is as before. *)
Theorem boundaries_on_u (m ms : Model R) :
  shaped m ->
  (snapshot NonLinear.Periodic m = (Ok tt, ms) ->
   u ms !! 0 = u m !! nx m /\
   forall i, 1 <= i -> u ms !! i = u m !! i) /\
  (snapshot NonLinear.Walled m = (Ok tt, ms) ->
   u ms !! 0 = Some (replicate (ny m) fzero) /\
   u ms !! nx m = Some (replicate (ny m) fzero) /\
   forall i, 1 <= i < nx m -> u ms !! i = u m !! i).
Proof.
  intros ((Hu & Hv & Hp) & Ht).
  assert (Hfields : forall B m1,
            forM_ (keys m1) (_apply_boundary_conditions_to B) m1 = (Ok tt, ms)
            -> _u ms = _u m1).
  { intros B m1 Hloop.
    pose proof (preserves_forM_ _ (keys m1) _
                  (fields_bc_to (_u m1, _v m1, _phi m1) B) m1 (Ok tt) ms
                  eq_refl Hloop) as Hf. congruence. }
  split; intros Hsnap;
    destruct (snapshot_split _ m ms Hsnap) as (m1 & Hbc & Hloop);
    unfold SW.u; rewrite (Hfields _ _ Hloop);
    unfold _apply_boundary_conditions in Hbc;
    destruct (bc_state _ _) as [[[a b] c]|e] eqn:Hs; try done;
    injection Hbc as <-; simpl in *.
  - destruct (periodic_state_cells _ _ _ _ _ _ _ _ Hu Hv Hp Hs) as (Ha & _).
    destruct (periodic_u_spec _ _ _ Hu) as (a1 & Ha1 & Has & Hac); [lia|lia|].
    assert (a1 = a) by congruence. subst a1. split.
    + apply (interior_row_ext (nx m + 3) (ny m + 2)); try done; try lia.
      intros y Hy. rewrite Hac by (unfold is_corner; lia). cells.
    + intros i Hi. destruct (decide (i < nx m + 1)) as [Hlt|Hge].
      * apply (interior_row_ext (nx m + 3) (ny m + 2)); try done; try lia.
        intros y Hy. rewrite Hac by (unfold is_corner; lia). cells.
      * rewrite (interior_lookup _ _ a i Has).
        rewrite (interior_lookup _ _ (_u m) i Hu).
        rewrite !decide_False by lia. done.
  - destruct (walled_state_cells _ _ _ _ _ _ _ _ Hu Hv Hp Hs) as (Ha & _).
    destruct (walled_u_spec _ _ _ Hu) as (a1 & Ha1 & Has & Hac); [lia|lia|].
    assert (a1 = a) by congruence. subst a1.
    replace (ny m) with (ny m + 2 - 2) at 1 2 by lia.
    split; [|split].
    + apply (interior_row_const (nx m + 3)); try done; try lia.
      intros y Hy. rewrite Hac by (unfold is_corner; lia).
      repeat case_decide; try lia; done.
    + apply (interior_row_const (nx m + 3)); try done; try lia.
      intros y Hy. rewrite Hac by (unfold is_corner; lia).
      repeat case_decide; try lia; done.
    + intros i Hi.
      apply (interior_row_ext (nx m + 3) (ny m + 2)); try done; try lia.
      intros y Hy. rewrite Hac by (unfold is_corner; lia).
      unfold tb_src. repeat case_decide; try lia; done.
Qed.

(** X9. Applying a boundary operation of nonlinear.py a second time
    changes no cell outside the four corners: the tracer operations of both
    classes and the walled state operation always, the periodic state
    operation on every grid with [nx <> 1]. *)
Theorem boundaries_idempotent (nx ny : nat) :
  (forall (bc : Arr R -> Result (Arr R)) (n m : nat) (f f1 : Arr R),
     bc = NonLinear.periodic_field \/ bc = NonLinear.walled_field ->
     has_shape (n + 2) (m + 2) f -> bc f = Ok f1 ->
     exists f2, bc f1 = Ok f2 /\ agree_off_corners (n + 2) (m + 2) f2 f1) /\
  (forall (bcs : Arr R * Arr R * Arr R -> Result (Arr R * Arr R * Arr R))
          (a b c a1 b1 c1 : Arr R),
     bcs = NonLinear.walled_state \/
     (bcs = NonLinear.periodic_state /\ nx <> 1) ->
     has_shape (nx + 3) (ny + 2) a -> has_shape (nx + 2) (ny + 3) b ->
     has_shape (nx + 2) (ny + 2) c ->
     bcs (a, b, c) = Ok (a1, b1, c1) ->
     exists a2 b2 c2,
       bcs (a1, b1, c1) = Ok (a2, b2, c2) /\
       agree_off_corners (nx + 3) (ny + 2) a2 a1 /\
       agree_off_corners (nx + 2) (ny + 3) b2 b1 /\
       agree_off_corners (nx + 2) (ny + 2) c2 c1).
Proof.
  assert (Hper : forall (n m : nat) (f f1 : Arr R),
            has_shape (n + 2) (m + 2) f ->
            NonLinear.periodic_field f = Ok f1 ->
            has_shape (n + 2) (m + 2) f1 /\
            exists f2, NonLinear.periodic_field f1 = Ok f2 /\
                       agree_off_corners (n + 2) (m + 2) f2 f1).
  { intros n m f f1 Hf Hf1.
    destruct (periodic_field_spec _ _ f Hf) as (g1 & Hg1 & Hs1 & Hc1);
      [lia|lia|].
    assert (g1 = f1) by congruence. subst g1. split; [done|].
    destruct (periodic_field_spec _ _ f1 Hs1) as (f2 & Hf2 & Hs2 & Hc2);
      [lia|lia|].
    exists f2. split; [done|]. intros x y Hxy.
    rewrite (Hc2 x y Hxy), (Hc1 x y Hxy).
    rewrite Hc1 by (unfold is_corner in *; cells). cells. }
  assert (Hwal : forall (n m : nat) (f f1 : Arr R),
            has_shape (n + 2) (m + 2) f ->
            NonLinear.walled_field f = Ok f1 ->
            has_shape (n + 2) (m + 2) f1 /\
            exists f2, NonLinear.walled_field f1 = Ok f2 /\
                       agree_off_corners (n + 2) (m + 2) f2 f1).
  { intros n m f f1 Hf Hf1.
    destruct (walled_field_spec _ _ f Hf) as (g1 & Hg1 & Hs1 & Hc1);
      [lia|lia|].
    assert (g1 = f1) by congruence. subst g1. split; [done|].
    destruct (walled_field_spec _ _ f1 Hs1) as (f2 & Hf2 & Hs2 & Hc2);
      [lia|lia|].
    exists f2. split; [done|]. intros x y Hxy.
    rewrite (Hc2 x y Hxy), (Hc1 x y Hxy).
    rewrite Hc1 by (unfold is_corner in *; cells). cells. }
  split.
  - intros bc n m f f1 [-> | ->] Hf Hf1.
    + by destruct (Hper n m f f1 Hf Hf1) as [_ ?].
    + by destruct (Hwal n m f f1 Hf Hf1) as [_ ?].
  - intros bcs a b c a1 b1 c1 [-> | [-> Hnx]] Ha Hb Hc Hs.
    + destruct (walled_state_cells _ _ _ _ _ _ _ _ Ha Hb Hc Hs)
        as (Ha1 & Hb1 & Hc1).
      replace (ny + 3) with (S ny + 2) in * by lia.
      destruct (Hwal _ _ _ _ Hb Hb1) as (Hbs & b2 & Hb2 & Hbb).
      destruct (Hwal _ _ _ _ Hc Hc1) as (Hcs & c2 & Hc2 & Hcc).
      destruct (walled_u_spec _ _ a Ha) as (g1 & Hg1 & Hs1 & Hk1); [lia|lia|].
      assert (g1 = a1) by congruence. subst g1.
      destruct (walled_u_spec _ _ a1 Hs1) as (a2 & Ha2 & Hs2 & Hk2);
        [lia|lia|].
      exists a2, b2, c2. split; [by apply walled_state_ok|].
      split; [|done]. intros x y Hxy.
      rewrite (Hk2 x y Hxy), (Hk1 x y Hxy).
      case_decide; [done|].
      rewrite Hk1 by (unfold is_corner in *; cells).
      rewrite decide_False by done. cells.
    + destruct (periodic_state_cells _ _ _ _ _ _ _ _ Ha Hb Hc Hs)
        as (Ha1 & Hb1 & Hc1).
      replace (ny + 3) with (S ny + 2) in * by lia.
      destruct (Hper _ _ _ _ Hb Hb1) as (Hbs & b2 & Hb2 & Hbb).
      destruct (Hper _ _ _ _ Hc Hc1) as (Hcs & c2 & Hc2 & Hcc).
      destruct (periodic_u_spec _ _ a Ha) as (g1 & Hg1 & Hs1 & Hk1);
        [lia|lia|].
      assert (g1 = a1) by congruence. subst g1.
      destruct (periodic_u_spec _ _ a1 Hs1) as (a2 & Ha2 & Hs2 & Hk2);
        [lia|lia|].
      exists a2, b2, c2. split; [by apply periodic_state_ok|].
      split; [|done]. intros x y Hxy.
      rewrite (Hk2 x y Hxy), (Hk1 x y Hxy).
      rewrite Hk1 by (unfold is_corner in *; cells). cells.
Qed.

End BoundaryInteriors.

(** ** The sponge and the initial values of a tracer *)

Section DampingProfile.
Context {R : Type} {SR : Scalar R} {GR : Grid R} {IR : Integrator R}.
Local Open Scope nat_scope.

Lemma binop_rows (f : R -> R -> R) (row : list R) (n k : nat) (var : Arr R) :
  has_shape n k var -> length row = k ->
  binop f (replicate n row) var = Ok (map (zip_with f row) var).
Proof.
  intros [Hn Hk] Hrow. unfold binop.
  rewrite length_replicate, Hn, Nat.eqb_refl. subst n.
  induction Hk as [|r0 var Hr0 _ IH]; simpl; [done|].
  rewrite bc_row_same by congruence. simpl. by rewrite IH.
Qed.

(** X5. With a sponge of [s >= 1] coefficients on a row of at least [2 s]
    cells (what [__init__] sets up from [ny >= 7]), [damping(var)] returns
    a field of the shape of [var] in which every cell is [r] times a
    coefficient times the value of [var]; along y the coefficients are the
    sponge, then zeros, then the sponge reversed, which reads the same from
    both ends. *)
Theorem damping_profile (m : Model R) (n k : nat) (var : Arr R) :
  has_shape n k var ->
  length (sponge m) = sponge_ny m -> 1 <= sponge_ny m ->
  2 * sponge_ny m <= k ->
  damping m var
  = Ok (map (zip_with (fun c x => fmul (fmul (r m) c) x) (sponge_profile m k))
            var) /\
  length (sponge_profile m k) = k /\
  reverse (sponge_profile m k) = sponge_profile m k /\
  (forall d, damping m var = Ok d -> has_shape n k d).
Proof.
  intros Hvar Hlen Hs1 Hs2.
  assert (Hpl : length (sponge_profile m k) = k).
  { unfold sponge_profile.
    rewrite !length_app, length_replicate, length_reverse. lia. }
  assert (Hd : damping m var
               = Ok (map (zip_with (fun c x => fmul (fmul (r m) c) x)
                            (sponge_profile m k)) var)).
  { unfold damping. rewrite (zeros_like_shape _ _ _ Hvar).
    unfold assign_first_cols, assign_last_cols, zeros at 1.
    set (row0 := replicate k (fzero : R)).
    set (row1 := sponge m ++ replicate (k - sponge_ny m) fzero).
    assert (Hl0 : length row0 = k) by apply length_replicate.
    assert (Hl1 : length row1 = k).
    { unfold row1. rewrite length_app, length_replicate. lia. }
    rewrite (mapM_replicate_Ok _ n row0 row1).
    2:{ unfold assign_slice. rewrite Hl0.
        replace (sponge_ny m `min` k - 0) with (sponge_ny m) by lia.
        rewrite Hlen, Nat.eqb_refl. unfold row1, row0. simpl.
        replace (sponge_ny m `min` k) with (sponge_ny m) by lia.
        by rewrite drop_replicate. }
    rewrite bind_Ok.
    rewrite (mapM_replicate_Ok _ n row1 (sponge_profile m k)).
    2:{ unfold assign_slice. rewrite Hl1.
        destruct (sponge_ny m) as [|s'] eqn:Hsn; [lia|].
        replace (k - (k - S s')) with (S s') by lia.
        rewrite length_reverse, Hlen, Nat.eqb_refl.
        rewrite drop_ge by lia. rewrite app_nil_r.
        unfold row1, sponge_profile. rewrite Hsn, app_assoc. f_equal.
        rewrite take_app_ge by lia. rewrite take_replicate, Hlen.
        by replace ((k - S s' - S s') `min` (k - S s')) with (k - 2 * S s')
          by lia. }
    rewrite bind_Ok. unfold smul. rewrite map_replicate.
    unfold mul. rewrite (binop_rows _ _ n k var Hvar)
      by (by rewrite length_map).
    f_equal. apply map_ext. intros row. apply zip_with_fmap_l. }
  split; [exact Hd|]. split; [exact Hpl|]. split.
  - unfold sponge_profile.
    by rewrite !reverse_app, reverse_involutive, reverse_replicate, app_assoc.
  - intros d. rewrite Hd. intros [= <-].
    destruct Hvar as [Hn Hk]. split; [by rewrite length_map|].
    apply Forall_forall. intros row Hrow.
    apply list_elem_of_In, in_map_iff in Hrow as (row0 & <- & Hin).
    rewrite length_zip_with, Hpl. rewrite Forall_forall in Hk.
    rewrite (Hk row0) by (by apply list_elem_of_In). lia.
Qed.

(** X6. With an empty sponge ([ny < 7]) and a field that has at least one
    row, [damping] raises [ValueError] when the rows have a cell, because
    the slice [-0:] is the whole row, and returns the field as it is when
    the rows are empty. *)
Theorem damping_without_sponge (m : Model R) (n k : nat) (var : Arr R) :
  sponge_ny m = 0 -> sponge m = [] ->
  (has_shape (S n) (S k) var -> damping m var = Raise ValueError) /\
  (has_shape (S n) 0 var -> damping m var = Ok var).
Proof.
  intros Hs Hsp. split; [by apply damping_empty_sponge|].
  intros Hvar. unfold damping.
  rewrite (zeros_like_shape _ _ _ Hvar), Hs, Hsp.
  unfold assign_first_cols, assign_last_cols, zeros at 1.
  rewrite (mapM_replicate_Ok _ (S n) (replicate 0 fzero) [])
    by done.
  rewrite bind_Ok.
  rewrite (mapM_replicate_Ok _ (S n) [] []) by done.
  rewrite bind_Ok. unfold smul. rewrite map_replicate.
  unfold mul. rewrite (binop_rows _ _ (S n) 0 var Hvar) by done.
  f_equal. destruct Hvar as [_ Hrows].
  change (map (fmul (r m)) []) with (@nil R).
  induction Hrows as [|row rows Hrow _ IH]; simpl in *; [done|].
  rewrite IH. by destruct row.
Qed.

End DampingProfile.

Section Broadcast.
Context {R : Type} {SR : Scalar R} {GR : Grid R} {IR : Integrator R}.
Local Open Scope nat_scope.

Lemma broadcast_to_scalar (n m : nat) (c : R) :
  broadcast_to n m [[c]] = Ok (replicate n (replicate m c)).
Proof.
  unfold broadcast_to, bc_len.
  by destruct n as [|[|n]]; destruct m as [|[|m]].
Qed.

Lemma set_interior_broadcast (n m : nat) (a v : Arr R) :
  has_shape (n + 2) (m + 2) a ->
  match broadcast_to n m v with
  | Ok vb => exists a', set_interior a v = Ok a' /\ interior a' = vb /\
                        has_shape (n + 2) (m + 2) a'
  | Raise e => set_interior a v = Raise e
  end.
Proof.
  intros Ha.
  destruct (set_interior a v) as [a'|e] eqn:Hset.
  - destruct (set_interior_spec _ _ _ _ _ Ha Hset) as [Hs ->]. by exists a'.
  - assert (Hlen : length a - 2 = n) by (destruct Ha as [-> _]; lia).
    assert (Hnc : ncols a - 2 = m).
    { rewrite (ncols_shape _ _ _ Ha); [lia|].
      destruct Ha as [Hl _]. destruct a; simpl in *; [lia|done]. }
    unfold set_interior in Hset. rewrite Hlen, Hnc in Hset.
    by destruct (broadcast_to n m v) as [vb|e'].
Qed.

(** X2. [add_tracer] takes initial values of any shape that numpy
    broadcasts to the interior [(nx, ny)]: the registration returns and
    [tracer(name)] then reads the broadcast values; a single number fills
    the interior.  Initial values that cannot be broadcast make
    [add_tracer] raise [ValueError], and then the model is as it was. *)
Theorem add_tracer_broadcast (m : Model R) (name : string) (v : Arr R)
    (rhs : RhsSpec R) (kappa : R) (apply_damping : bool) :
  has_shape (nx m + 2) (ny m + 2) (_phi m) ->
  match broadcast_to (nx m) (ny m) v with
  | Ok vb =>
      has_shape (nx m) (ny m) vb /\
      exists m', add_tracer name v rhs kappa apply_damping m = (Ok tt, m') /\
                 tracer m' name = Ok vb
  | Raise e =>
      e = ValueError /\
      add_tracer name v rhs kappa apply_damping m = (Raise ValueError, m)
  end /\
  forall c : R,
    exists m', add_tracer name [[c]] rhs kappa apply_damping m = (Ok tt, m') /\
               tracer m' name = Ok (replicate (nx m) (replicate (ny m) c)).
Proof.
  intros Hphi.
  assert (Hgen : forall v : Arr R,
    match broadcast_to (nx m) (ny m) v with
    | Ok vb =>
        has_shape (nx m) (ny m) vb /\
        exists m', add_tracer name v rhs kappa apply_damping m = (Ok tt, m') /\
                   tracer m' name = Ok vb
    | Raise e =>
        e = ValueError /\
        add_tracer name v rhs kappa apply_damping m = (Raise ValueError, m)
    end).
  { intros w. unfold add_tracer. rewrite (zeros_like_shape _ _ _ Hphi).
    pose proof (set_interior_broadcast (nx m) (ny m)
                  (zeros (nx m + 2) (ny m + 2)) w (has_shape_zeros _ _)) as Hs.
    destruct (broadcast_to (nx m) (ny m) w) as [vb|e] eqn:Hvb.
    - destruct Hs as (a' & -> & Hint & _).
      split; [by eapply broadcast_to_shape|].
      eexists. split; [done|]. unfold tracer. simpl.
      by rewrite dict_get_set_eq, <- Hint.
    - rewrite Hs. pose proof (broadcast_to_raises _ _ _ _ Hvb) as ->. done. }
  split; [apply Hgen|]. intros c. specialize (Hgen [[c]]).
  rewrite broadcast_to_scalar in Hgen. by destruct Hgen as [_ ?].
Qed.

End Broadcast.

(** ** What a step commits *)

Section Commit.
Context {R : Type} {SR : Scalar R} {GR : Grid R} {IR : Integrator R}.
Local Open Scope nat_scope.

Lemma state_kept_next_tracer x
    (cons : Model R -> string -> Result (Arr R)) (name : string) :
  preserves (state_kept x) (next_tracer cons name).
Proof.
  intros m res m' HP. unfold next_tracer.
  destruct (dict_get _ _) as [tr|e]; [|by intros [= <- <-]].
  destruct (next_with _ _ _) as [r0 s']. by intros [= <- <-].
Qed.

Lemma state_kept_set_tracer_interior x (name : string) (nfield : Arr R) :
  preserves (state_kept x) (set_tracer_interior name nfield).
Proof.
  intros m res m' HP. unfold set_tracer_interior.
  destruct (dict_get _ _) as [tr|e]; [|by intros [= <- <-]].
  destruct (set_interior _ _) as [a|e]; by intros [= <- <-].
Qed.

Lemma settings_snapshot x (B : Boundaries R) :
  preserves (has_settings x) (snapshot B).
Proof.
  unfold snapshot.
  apply preserves_bind; [apply settings_bc|]. intros _.
  apply preserves_bind; [apply preserves_eval|]. intros names.
  apply preserves_forM_. intros name. apply settings_bc_to.
Qed.

(** What follows the snapshot in both [step] methods, with the loops over
    the tracers as [tracers]. *)
Lemma commit_spec {A : Type} (rhsf : Model R -> Result (Triple R))
    (tracers : Triple R -> M R A) (ms m' : Model R) :
  shaped ms ->
  (forall x ns, preserves (state_kept x) (tracers ns)) ->
  (forall ns, preserves shaped (tracers ns)) ->
  (run inc <- next_state rhsf;
   run newstate <- eval (fun m => triple_op add (state m) inc);
   run _ <- tracers newstate;
   run _ <- set_state newstate;
   modify (fun m => with_clock m (fadd (t m) (dt m)) (S (tc m)))) ms
  = (Ok tt, m') ->
  exists hist dx inc newstate,
    _stepper ms = Running hist /\ rhsf ms = Ok dx /\
    ab_increment3 (dt ms) (dx :: hist) = Ok inc /\
    _stepper m' = Running (take ab_keep (dx :: hist)) /\
    triple_op add (state ms) inc = Ok newstate /\
    broadcast_to (nx ms + 1) (ny ms) (fst3 newstate) = Ok (u m') /\
    broadcast_to (nx ms) (ny ms + 1) (snd3 newstate) = Ok (v m') /\
    broadcast_to (nx ms) (ny ms) (thd3 newstate) = Ok (phi m').
Proof.
  intros Hms Hkept Hshaped. unfold bindM at 1, next_state, next_with.
  destruct (_stepper ms) as [hist|] eqn:Hst; [|done].
  destruct (rhsf ms) as [dx|e] eqn:Hrhs; [|done].
  destruct (ab_increment3 (dt ms) (dx :: hist)) as [inc|e] eqn:Hinc; [|done].
  unfold bindM at 1, eval.
  change (state (with_stepper ms (Running (take ab_keep (dx :: hist)))))
    with (state ms).
  destruct (triple_op add (state ms) inc) as [newstate|e] eqn:Hnew; [|done].
  set (m2 := with_stepper ms (Running (take ab_keep (dx :: hist)))).
  unfold bindM at 1.
  destruct (tracers newstate m2) as [[a|e] m3] eqn:Hloop; [|done].
  pose proof (Hkept _ newstate m2 _ m3 eq_refl Hloop) as Hk.
  assert (Hm2 : shaped m2) by done.
  pose proof (Hshaped newstate m2 _ m3 Hm2 Hloop) as ((Hu & Hv & Hp) & _).
  unfold state_kept in Hk. simpl in Hk.
  injection Hk as Hku Hkv Hkp Hks Hkg.
  unfold nx, ny in *. rewrite Hkg in Hu, Hv, Hp.
  unfold bindM at 1, set_state.
  destruct newstate as [[nu nv] np].
  replace (g_nx (geom ms) + 3) with (S (g_nx (geom ms)) + 2) in Hu by lia.
  replace (g_ny (geom ms) + 3) with (S (g_ny (geom ms)) + 2) in Hv by lia.
  destruct (set_interior (_u m3) nu) as [u'|e] eqn:Hsu; [|done].
  destruct (set_interior (_v m3) nv) as [v'|e] eqn:Hsv; [|done].
  destruct (set_interior (_phi m3) np) as [p'|e] eqn:Hsp; [|done].
  destruct (set_interior_spec _ _ _ _ _ Hu Hsu) as [_ Hbu].
  destruct (set_interior_spec _ _ _ _ _ Hv Hsv) as [_ Hbv].
  destruct (set_interior_spec _ _ _ _ _ Hp Hsp) as [_ Hbp].
  intros [= <-]. exists hist, dx, inc, (nu, nv, np).
  replace (g_nx (geom ms) + 1) with (S (g_nx (geom ms))) by lia.
  replace (g_ny (geom ms) + 1) with (S (g_ny (geom ms))) by lia.
  repeat split; done.
Qed.

(** X13. A call of [step] that returns has committed, in either file, the
    state of the boundary-corrected snapshot plus one increment of the
    integrator.  The tendency is evaluated once, on the snapshot; the
    increment is computed from it and from the history, which then holds
    this tendency first and at most [ab_keep] entries; and [u], [v] and
    [phi] then read the sum, broadcast to their shapes. *)
Theorem step_commits (dyn : Model R -> Result (Triple R)) (B : Boundaries R)
    (stepf : M R unit) (rhsf : Model R -> Result (Triple R))
    (m m' : Model R) :
  keeps_shapes B ->
  (stepf = NonLinear.step B /\ rhsf = NonLinear.rhs) \/
  (stepf = Linear.step dyn B /\ rhsf = Linear._rhs dyn) ->
  shaped m -> stepf m = (Ok tt, m') ->
  exists ms hist dx inc newstate,
    snapshot B m = (Ok tt, ms) /\
    _stepper ms = Running hist /\ rhsf ms = Ok dx /\
    ab_increment3 (dt m) (dx :: hist) = Ok inc /\
    _stepper m' = Running (take ab_keep (dx :: hist)) /\
    triple_op add (state ms) inc = Ok newstate /\
    broadcast_to (nx m + 1) (ny m) (fst3 newstate) = Ok (u m') /\
    broadcast_to (nx m) (ny m + 1) (snd3 newstate) = Ok (v m') /\
    broadcast_to (nx m) (ny m) (thd3 newstate) = Ok (phi m') /\
    tc m' = S (tc m).
Proof.
  intros HB Hstep Hm Hrun.
  destruct (snapshot_shaped B m HB Hm) as (ms & Hsnap & Hms & _).
  pose proof (settings_snapshot (settings m) B m _ ms eq_refl Hsnap) as Hset.
  assert (Hdt : dt ms = dt m /\ geom ms = geom m).
  { unfold has_settings, settings, config in Hset. split; congruence. }
  destruct Hdt as [Hdt Hge].
  assert (Htc : tc m' = S (tc m)).
  { destruct (step_clock dyn B B) as [Hl Hn].
    destruct Hstep as [[-> _] | [-> _]].
    - by destruct (Hn _ _ _ Hrun).
    - by destruct (Hl _ _ _ Hrun). }
  assert (Hgoal : exists hist dx inc newstate,
    _stepper ms = Running hist /\ rhsf ms = Ok dx /\
    ab_increment3 (dt ms) (dx :: hist) = Ok inc /\
    _stepper m' = Running (take ab_keep (dx :: hist)) /\
    triple_op add (state ms) inc = Ok newstate /\
    broadcast_to (nx ms + 1) (ny ms) (fst3 newstate) = Ok (u m') /\
    broadcast_to (nx ms) (ny ms + 1) (snd3 newstate) = Ok (v m') /\
    broadcast_to (nx ms) (ny ms) (thd3 newstate) = Ok (phi m')).
  { destruct Hstep as [[-> ->] | [-> ->]].
    - unfold NonLinear.step in Hrun.
      rewrite (step_after_snapshot B m) in Hrun. rewrite Hsnap in Hrun.
      eapply (commit_spec NonLinear.rhs
                (fun _ => forM_ _ _) ms m' Hms); [| |exact Hrun].
      + intros x _. apply preserves_forM_. intros name.
        apply preserves_bind; [apply state_kept_next_tracer|]. intros inc.
        apply preserves_bind; [apply preserves_eval|]. intros nfield.
        apply state_kept_set_tracer_interior.
      + intros _. apply preserves_forM_. intros name.
        apply preserves_bind; [apply shaped_next_tracer|]. intros inc.
        apply preserves_bind; [apply preserves_eval|]. intros nfield.
        apply shaped_set_tracer_interior.
    - unfold Linear.step in Hrun.
      rewrite (step_after_snapshot B m) in Hrun. rewrite Hsnap in Hrun.
      set (names := keys (snd (_apply_boundary_conditions B m))) in Hrun.
      eapply (commit_spec (Linear._rhs dyn)
                (fun _ =>
                   run newfields <-
                     forM names (fun name =>
                       run inc <- next_tracer Linear._tracer_dynamics_terms
                                    name;
                       eval (fun m => do q <- tracer m name; add q inc));
                   forM_ (zip names newfields)
                     (fun p => set_tracer_interior (fst p) (snd p)))
                ms m' Hms).
      + intros x _. apply preserves_bind.
        * apply preserves_forM. intros name.
          apply preserves_bind; [apply state_kept_next_tracer|]. intros inc.
          apply preserves_eval.
        * intros newfields. apply preserves_forM_. intros p.
          apply state_kept_set_tracer_interior.
      + intros _. apply preserves_bind.
        * apply preserves_forM. intros name.
          apply preserves_bind; [apply shaped_next_tracer|]. intros inc.
          apply preserves_eval.
        * intros newfields. apply preserves_forM_. intros p.
          apply shaped_set_tracer_interior.
      + rewrite <- Hrun. unfold bindM.
        destruct (next_state (Linear._rhs dyn) ms) as [[inc|e] m2]; [|done].
        destruct (eval _ m2) as [[newstate|e] m2']; [|done].
        by destruct (forM names _ m2') as [[nf|e] m3]. }
  destruct Hgoal as (hist & dx & inc & newstate & H1 & H2 & H3 & H4 & H5
                     & H6 & H7 & H8).
  exists ms, hist, dx, inc, newstate. unfold nx, ny in *.
  rewrite Hdt, Hge in *. repeat split; done.
Qed.

Lemma keys_settings (m m' : Model R) :
  settings m' = settings m -> keys m' = keys m.
Proof.
  intros Hs. rewrite !keys_registry.
  replace (registry m') with (registry m);
    [done|unfold settings in Hs; congruence].
Qed.

(** X14. In linear.py nothing is committed before every increment is
    computed: when the request for the state's increment or for a tracer's
    increment raises, [step] raises the same exception and leaves the
    fields of the state, the fields of all tracers and the clock as the
    boundary-corrected snapshot has them. *)
Theorem linear_raise_commits_nothing (dyn : Model R -> Result (Triple R))
    (B : Boundaries R) (m ms m2 : Model R) (e : Exn) :
  snapshot B m = (Ok tt, ms) ->
  (run inc <- next_state (Linear._rhs dyn);
   run newstate <- eval (fun m => triple_op add (state m) inc);
   forM (keys ms) (fun name =>
     run inc <- next_tracer Linear._tracer_dynamics_terms name;
     eval (fun m => do q <- tracer m name; add q inc))) ms = (Raise e, m2) ->
  Linear.step dyn B m = (Raise e, m2) /\
  view m2 = view ms /\ state m2 = state ms /\
  (forall name, tracer m2 name = tracer ms name) /\
  tc m2 = tc ms /\ t m2 = t ms.
Proof.
  intros Hsnap Hinc.
  pose proof (linear_increments_keep_view dyn (keys ms) ms _ m2 Hinc) as Hv.
  assert (Hstep : Linear.step dyn B m = (Raise e, m2)).
  { unfold Linear.step. rewrite (step_after_snapshot B m), Hsnap.
    assert (Hk : keys (snd (_apply_boundary_conditions B m)) = keys ms).
    { pose proof (settings_snapshot (settings m) B m _ ms eq_refl Hsnap)
        as H1.
      destruct (_apply_boundary_conditions B m) as [res m1] eqn:Hbc.
      pose proof (settings_bc (settings m) B m _ m1 eq_refl Hbc) as H2.
      simpl. rewrite (keys_settings _ _ H1). by apply keys_settings. }
    rewrite Hk. revert Hinc. unfold bindM.
    destruct (next_state (Linear._rhs dyn) ms) as [[inc|e1] ma];
      cbv beta iota; [|by intros [= -> ->]].
    destruct (eval _ ma) as [[newstate|e2] mb]; cbv beta iota;
      [|by intros [= -> ->]].
    destruct (forM (keys ms) _ mb) as [[nf|e3] mc]; cbv beta iota;
      [done|by intros [= -> ->]]. }
  split; [exact Hstep|]. split; [exact Hv|].
  unfold view in Hv. injection Hv as Hu Hv' Hp Htr Ht Htc.
  split; [unfold state, u, v, phi; congruence|].
  split; [|done].
  intros name. unfold tracer.
  assert (Hget : forall d1 d2 : list (string * Tracer R),
            map (fun p => (fst p, tr_state (snd p))) d1
            = map (fun p => (fst p, tr_state (snd p))) d2 ->
            (do tr <- dict_get d1 name; Ok (interior (tr_state tr)))
            = (do tr <- dict_get d2 name; Ok (interior (tr_state tr)))).
  { induction d1 as [|[k1 x1] d1 IH]; intros [|[k2 x2] d2]; simpl;
      try done.
    intros [= -> Hx Hd]. destruct (String.eqb name k2); simpl.
    - by rewrite Hx.
    - by apply IH. }
  by apply Hget.
Qed.

End Commit.

(** ** The claims at concrete inputs *)

Import FInst.

Ltac shape := apply shape_is_has_shape; reflexivity.

Lemma C10_register_then_read_witness :
  has_shape 4 3 (_phi ex_model) /\ has_shape 2 1 [[5]; [6]] /\
  exists m',
    add_tracer "q" [[5]; [6]] (RhsConst [[0]]) 0 true ex_model = (Ok tt, m') /\
    tracer m' "q" = Ok [[5]; [6]].
Proof.
  assert (H1 : has_shape (nx ex_model + 2) (ny ex_model + 2) (_phi ex_model))
    by shape.
  assert (H2 : has_shape (nx ex_model) (ny ex_model) [[5]; [6]]) by shape.
  split; [exact H1|]. split; [exact H2|].
  destruct (C10_register_then_read ex_model "q" [[5]; [6]] (RhsConst [[0]]) 0
              true H1 H2) as (m' & Hadd & Hread & _).
  exists m'. split; [exact Hadd|exact Hread].
Defined.

Lemma C7_reregistration_replaces_witness :
  exists m',
    add_tracer "q" [[3]; [4]] (RhsConst [[0]]) 0 true ex_model_q = (Ok tt, m') /\
    keys m' = keys ex_model_q.
Proof.
  assert (H1 : has_shape (nx ex_model_q + 2) (ny ex_model_q + 2)
                 (_phi ex_model_q)) by shape.
  assert (H2 : has_shape (nx ex_model_q) (ny ex_model_q) [[3]; [4]]) by shape.
  destruct (C7_reregistration_replaces ex_model_q "q" [[3]; [4]]
              (RhsConst [[0]]) 0 true
              {| tr_state := pad_zero 1 [[1]; [2]]; tr_stepper := Running [];
                 tr_rhs := RhsConst [[0]]; tr_kappa := 0;
                 tr_apply_damping := true |} H1 H2 eq_refl)
    as (m' & Hadd & _ & Hkeys & _).
  exists m'. split; [exact Hadd|exact Hkeys].
Defined.

(** C7 as stated fails: q is registered with the values 1 and 2, and
    registering q again with 3 and 4 returns normally and overwrites. *)
Lemma C7_counterexample :
  tracer ex_model_q "q" = Ok [[1]; [2]] /\
  exists m',
    add_tracer "q" [[3]; [4]] (RhsConst [[0]]) 0 true ex_model_q = (Ok tt, m') /\
    tracer m' "q" = Ok [[3]; [4]].
Proof. split; [reflexivity|]. eexists. split; reflexivity. Qed.

(** C3 at a failing input. On a grid with [nx = 1] the along-x velocity
    has four columns, so that column -3 is column 1: the first copy gives
    column 0 the old column 1 (5 in row 1), and the second copy then
    overwrites column 1 with column 2 (8 in row 1).  After the operation
    column 0 differs from column -3 in the cell of row 1, which is not a
    corner: the wrap that the three in-place copies are written to make is
    missed. *)
Theorem C3_periodic_wrap_nx1 :
  has_shape (1 + 3) (1 + 2) ex1_u /\ has_shape (1 + 2) (1 + 3) ex1_v /\
  has_shape (1 + 2) (1 + 2) ex1_phi /\
  at_ ex1_u (-3) 1 = Ok 5 /\ at_ ex1_u 2 1 = Ok 8 /\
  exists u' v' phi',
    NonLinear.periodic_state (ex1_u, ex1_v, ex1_phi) = Ok (u', v', phi') /\
    at_ u' 0 1 = Ok 5 /\ at_ u' (-3) 1 = Ok 8 /\
    ~ columns_agree 3 u' 0 (-3).
Proof.
  split; [shape|]. split; [shape|]. split; [shape|].
  split; [reflexivity|]. split; [reflexivity|].
  eexists _, _, _. split; [reflexivity|]. split; [reflexivity|].
  split; [reflexivity|].
  intros Hagree. destruct (Hagree 1%nat) as (c & Hc1 & Hc2); [lia|].
  vm_compute in Hc1, Hc2. congruence.
Qed.

Lemma C4_walled_state_witness :
  exists u' v' phi',
    NonLinear.walled_state (ex_u, ex_v, ex_phi) = Ok (u', v', phi') /\
    whole_column_is_zero 3 u' 0 /\ whole_columns_agree 4 v' 0 1.
Proof.
  assert (H1 : has_shape (2 + 3) (1 + 2) ex_u)
    by shape.
  assert (H2 : has_shape (2 + 2) (1 + 3) ex_v)
    by shape.
  assert (H3 : has_shape (2 + 2) (1 + 2) ex_phi)
    by shape.
  destruct (C4_walled_state (CL:=corner_laws_Z) (CU:=corner_uniform_Z) 2 1
              ex_u ex_v ex_phi H1 H2 H3)
    as (u' & v' & phi' & Hs & (Hu & _) & (Hv & _) & _).
  exists u', v', phi'. split; [exact Hs|]. split; [exact Hu|exact Hv].
Defined.

Lemma C5_tracer_boundaries_witness :
  exists p w,
    NonLinear.periodic_field ex_phi = Ok p /\
    NonLinear.walled_field ex_phi = Ok w /\
    columns_agree 3 p 0 (-2) /\ columns_agree 3 w 0 1.
Proof.
  assert (H1 : has_shape (2 + 2) (1 + 2) ex_phi) by shape.
  destruct (C5_tracer_boundaries (CL:=corner_laws_Z) 2 1 ex_phi H1)
    as (p & w & Hp & Hw & (Hpc & _) & (Hwc & _) & _).
  exists p, w. repeat split; assumption.
Defined.

(** C5 as stated fails: on the same tracer field the periodic class does
    not leave column 0 equal to column 1 (it holds column -2), and the two
    classes return different fields. *)
Lemma C5_counterexample :
  has_shape (2 + 2) (1 + 2) ex_phi /\
  exists p w,
    NonLinear.periodic_field ex_phi = Ok p /\
    NonLinear.walled_field ex_phi = Ok w /\
    at_ p 0 1 = Ok 8 /\ at_ p 1 1 = Ok 5 /\ at_ w 0 1 = Ok 5 /\
    ~ same_cell p 0 1 1 1 /\ p <> w.
Proof.
  split; [shape|]. eexists _, _.
  split; [reflexivity|]. split; [reflexivity|].
  split; [reflexivity|]. split; [reflexivity|]. split; [reflexivity|].
  split; [|discriminate].
  intros (c & Hc1 & Hc2). vm_compute in Hc1, Hc2. congruence.
Qed.

Lemma C8_configuration_not_validated_witness :
  (1 <= 3 < 7)%nat /\
  exists m',
    NonLinear.step NonLinear.Periodic ex_small = (Raise ValueError, m') /\
    tc m' = 0%nat.
Proof.
  assert (Hny : (1 <= 3 < 7)%nat) by lia.
  split; [exact Hny|].
  destruct (C8_configuration_not_validated (ZL:=zero_laws_Z)
              (GL:=grid_zero_laws_Z) 2 3 10 10 0 0 0 0 1 None 1 (-1)
              Linear._dynamics_terms NonLinear.Periodic NonLinear.Periodic
              Hny (or_introl eq_refl)
              (periodic_keeps_zeros (GL:=grid_zero_laws_Z))
              (or_introl eq_refl)) as [(_ & _ & _ & _ & Hstep) _].
  exact Hstep.
Defined.

(** C8 as stated fails: a model with [ny = 3] and a negative time step is
    constructed, its first [step] raises from [damping]; with [ny = 7] the
    negative time step is never rejected and the clock runs backwards. *)
Lemma C8_counterexample :
  sponge_ny ex_small = 0%nat /\ dt ex_small = -1 /\
  damping ex_small (u ex_small) = Raise ValueError /\
  fst (NonLinear.step NonLinear.Periodic ex_small) = Raise ValueError /\
  fst (NonLinear.step NonLinear.Periodic ex_neg_dt) = Ok tt /\
  t (snd (NonLinear.step NonLinear.Periodic ex_neg_dt)) = -1.
Proof. repeat split; reflexivity. Qed.



Lemma C6_step_on_raise_witness :
  NonLinear.step NonLinear.Walled ex_fault
  = (Raise (UserError 1),
     with_stepper (snd (snapshot NonLinear.Walled ex_fault)) Finished).
Proof.
  destruct (C6_step_on_raise Linear._dynamics_terms NonLinear.Walled
              NonLinear.Walled ex_fault
              (snd (snapshot NonLinear.Walled ex_fault)) (UserError 1) [])
    as (_ & _ & Hn & _).
  apply Hn; reflexivity.
Defined.

(** C6 as stated fails: the forcing raises, and the along-x velocity that
    [step] leaves behind is not the one from before the call, because the
    walled boundary operation has already zeroed its first and last
    columns; the step count is unchanged. *)
Lemma C6_counterexample :
  fst (NonLinear.step NonLinear.Walled ex_fault) = Raise (UserError 1) /\
  u ex_fault = [[1; 1; 1; 1; 1; 1; 1]; [1; 1; 1; 1; 1; 1; 1]] /\
  u (snd (NonLinear.step NonLinear.Walled ex_fault))
  = [[0; 0; 0; 0; 0; 0; 0]; [0; 0; 0; 0; 0; 0; 0]] /\
  tc (snd (NonLinear.step NonLinear.Walled ex_fault)) = tc ex_fault.
Proof. repeat split; reflexivity. Qed.

(** C1 at a failing input. With the tracer q registered without diffusion,
    damping or source, the tendency that nonlinear.py gives to the
    integrator is minus (x-flux difference minus y-flux difference), not
    minus the flux divergence; linear.py gives minus the flux divergence. *)
Theorem C1_nonlinear_flux_sign :
  (do q <- _tracer ex_flow "q"; flux_divergence ex_flow q) = Ok [[20]; [0]] /\
  Linear._tracer_dynamics_terms ex_flow "q" = Ok [[20]; [0]] /\
  NonLinear.tracer_conservation ex_flow "q" = Ok [[18]; [-4]] /\
  tracer_tendency Linear._tracer_dynamics_terms ex_flow "q"
  = Ok [[-20]; [0]] /\
  tracer_tendency NonLinear.tracer_conservation ex_flow "q"
  = Ok [[-18]; [4]].
Proof. repeat split; reflexivity. Qed.

(** C2 at a failing input. The tracer a holds 1 and grows to 2 in this
    step; the [rhs] of b reads a.  In nonlinear.py b is given the value of a
    that this step has already committed (b becomes 2); in linear.py b is
    given the value of the snapshot (b becomes 1). *)
Theorem C2_nonlinear_sequential_commit :
  tracer ex_two "a" = Ok [[1; 1; 1; 1; 1; 1; 1]] /\
  tracer ex_two "b" = Ok [[0; 0; 0; 0; 0; 0; 0]] /\
  (let r := NonLinear.step NonLinear.Periodic ex_two in
   fst r = Ok tt /\
   tracer (snd r) "a" = Ok [[2; 2; 2; 2; 2; 2; 2]] /\
   tracer (snd r) "b" = Ok [[2; 2; 2; 2; 2; 2; 2]]) /\
  (let r := Linear.step Linear._dynamics_terms NonLinear.Periodic ex_two in
   fst r = Ok tt /\
   tracer (snd r) "a" = Ok [[2; 2; 2; 2; 2; 2; 2]] /\
   tracer (snd r) "b" = Ok [[1; 1; 1; 1; 1; 1; 1]]).
Proof. repeat split; reflexivity. Qed.

(** ** Further properties at concrete inputs *)

Ltac shaped_ex :=
  split; [split; [shape|split; shape]
         |repeat constructor; unfold field_shaped; shape].

Lemma finished_integrator_never_steps_witness :
  let m := snd (NonLinear.step NonLinear.Walled ex_fault) in
  _stepper m = Finished /\
  _stepper (steps (NonLinear.step NonLinear.Walled) 2 m) = Finished /\
  tc (steps (NonLinear.step NonLinear.Walled) 2 m) = tc m.
Proof.
  assert (H1 : _stepper (snd (NonLinear.step NonLinear.Walled ex_fault))
               = Finished) by reflexivity.
  split; [exact H1|].
  destruct (finished_integrator_never_steps Linear._dynamics_terms
              NonLinear.Walled 2
              (snd (NonLinear.step NonLinear.Walled ex_fault))
              (NonLinear.step NonLinear.Walled) (or_introl eq_refl) H1)
    as (Hs & Htc & _).
  split; [exact Hs|exact Htc].
Defined.

Lemma add_tracer_frame_witness :
  add_tracer "q" [[5]; [6]] (RhsConst [[0]]) 0 true ex_model
  = (Ok tt, snd (add_tracer "q" [[5]; [6]] (RhsConst [[0]]) 0 true ex_model))
  /\ keys (snd (add_tracer "q" [[5]; [6]] (RhsConst [[0]]) 0 true ex_model))
     = keys ex_model ++ ["q"%string].
Proof.
  assert (H1 : add_tracer "q" [[5]; [6]] (RhsConst [[0]]) 0 true ex_model
               = (Ok tt, snd (add_tracer "q" [[5]; [6]] (RhsConst [[0]]) 0
                                true ex_model))) by reflexivity.
  split; [exact H1|].
  destruct (add_tracer_frame ex_model _ "q" [[5]; [6]] (RhsConst [[0]]) 0
              true H1) as (_ & _ & _ & _ & _ & Hfresh & _).
  apply Hfresh. simpl. tauto.
Defined.

Lemma storage_invariant_witness :
  shaped (snd (NonLinear.step NonLinear.Periodic ex_two)) /\
  exists ms,
    snapshot NonLinear.Periodic (snd (NonLinear.step NonLinear.Periodic ex_two))
    = (Ok tt, ms).
Proof.
  destruct (storage_invariant Linear._dynamics_terms NonLinear.Periodic
              (NonLinear.step NonLinear.Periodic)
              (snd (NonLinear.step NonLinear.Periodic ex_two))
              (periodic_keeps_shapes (CL:=corner_laws_Z))
              (or_introl eq_refl)
              (built_step _ _
                 (built_tracer _ _ "b" [[0; 0; 0; 0; 0; 0; 0]]
                    (RhsFun read_a) 0 false
                    (built_tracer _ _ "a" [[1; 1; 1; 1; 1; 1; 1]]
                       (RhsConst [[1]]) 0 false
                       (built_nonlinear _ 1 7 10 10 0 0 1 1 1)))))
    as (Hs & ms & Hms & _).
  split; [exact Hs|]. exists ms. exact Hms.
Defined.

Lemma boundaries_keep_interiors_witness :
  shaped ex_flow /\
  v (snd (snapshot NonLinear.Periodic ex_flow)) = v ex_flow /\
  tracer (snd (snapshot NonLinear.Periodic ex_flow)) "q" = tracer ex_flow "q".
Proof.
  assert (H1 : shaped ex_flow) by shaped_ex.
  split; [exact H1|].
  destruct (boundaries_keep_interiors (CL:=corner_laws_Z) NonLinear.Periodic
              ex_flow (snd (snapshot NonLinear.Periodic ex_flow))
              (or_introl eq_refl) H1 eq_refl) as (Hv & _ & Ht).
  split; [exact Hv|exact (Ht "q"%string)].
Defined.

Lemma boundaries_on_u_witness :
  u (snd (snapshot NonLinear.Periodic ex_flow)) !! 0%nat
  = u ex_flow !! 2%nat /\
  u (snd (snapshot NonLinear.Walled ex_flow)) !! 0%nat = Some [0].
Proof.
  assert (H1 : shaped ex_flow) by shaped_ex.
  destruct (boundaries_on_u (CL:=corner_laws_Z) ex_flow
              (snd (snapshot NonLinear.Periodic ex_flow)) H1) as [Hp _].
  destruct (boundaries_on_u (CL:=corner_laws_Z) ex_flow
              (snd (snapshot NonLinear.Walled ex_flow)) H1) as [_ Hw].
  destruct (Hp eq_refl) as [Hp0 _]. destruct (Hw eq_refl) as [Hw0 _].
  split; [exact Hp0|exact Hw0].
Defined.

Lemma boundaries_idempotent_witness :
  exists f1 f2,
    NonLinear.periodic_field ex_phi = Ok f1 /\
    NonLinear.periodic_field f1 = Ok f2 /\
    agree_off_corners 4 3 f2 f1.
Proof.
  assert (H1 : has_shape (2 + 2) (1 + 2) ex_phi) by shape.
  destruct (boundaries_idempotent (CL:=corner_laws_Z) 2 1) as [Hf _].
  assert (H2 : exists f1, NonLinear.periodic_field ex_phi = Ok f1)
    by (eexists; reflexivity).
  destruct H2 as [f1 Hf1].
  destruct (Hf NonLinear.periodic_field 2%nat 1%nat ex_phi f1
              (or_introl eq_refl) H1 Hf1) as (f2 & Hf2 & Hagree).
  exists f1, f2. split; [exact Hf1|]. split; [exact Hf2|exact Hagree].
Defined.

Lemma damping_profile_witness :
  damping ex_rest [[1; 2; 3; 4; 5; 6; 7]] = Ok [[1; 0; 0; 0; 0; 0; 7]].
Proof.
  assert (H1 : has_shape 1 7 [[1; 2; 3; 4; 5; 6; 7]]) by shape.
  assert (H2 : length (sponge ex_rest) = sponge_ny ex_rest) by reflexivity.
  assert (H3 : (1 <= sponge_ny ex_rest)%nat) by (simpl; lia).
  assert (H4 : (2 * sponge_ny ex_rest <= 7)%nat) by (simpl; lia).
  destruct (damping_profile ex_rest 1 7 [[1; 2; 3; 4; 5; 6; 7]] H1 H2 H3 H4)
    as (Hd & _).
  exact Hd.
Defined.

Lemma damping_without_sponge_witness :
  damping ex_small [[1; 2; 3]] = Raise ValueError.
Proof.
  assert (H1 : has_shape 1 3 [[1; 2; 3]]) by shape.
  destruct (damping_without_sponge ex_small 0 2 [[1; 2; 3]] eq_refl eq_refl)
    as [Hd _].
  exact (Hd H1).
Defined.

Lemma add_tracer_broadcast_witness :
  exists m',
    add_tracer "q" [[7]] (RhsConst [[0]]) 0 true ex_model = (Ok tt, m') /\
    tracer m' "q" = Ok [[7]; [7]].
Proof.
  assert (H1 : has_shape (nx ex_model + 2) (ny ex_model + 2) (_phi ex_model))
    by shape.
  destruct (add_tracer_broadcast ex_model "q" [[7]] (RhsConst [[0]]) 0 true H1)
    as [_ Hc].
  exact (Hc 7).
Defined.

Lemma step_commits_witness :
  exists ms inc,
    snapshot NonLinear.Periodic ex_rest = (Ok tt, ms) /\
    ab_increment3 (dt ex_rest) [zero3 (geom ex_rest)] = Ok inc /\
    tc (snd (NonLinear.step NonLinear.Periodic ex_rest)) = 1%nat.
Proof.
  assert (H1 : shaped ex_rest) by shaped_ex.
  assert (H2 : NonLinear.step NonLinear.Periodic ex_rest
               = (Ok tt, snd (NonLinear.step NonLinear.Periodic ex_rest)))
    by reflexivity.
  destruct (step_commits Linear._dynamics_terms NonLinear.Periodic
              (NonLinear.step NonLinear.Periodic) NonLinear.rhs ex_rest
              (snd (NonLinear.step NonLinear.Periodic ex_rest))
              (periodic_keeps_shapes (CL:=corner_laws_Z))
              (or_introl (conj eq_refl eq_refl)) H1 H2)
    as (ms & hist & dx & inc & ns & Hsnap & Hst & Hrhs & Hinc & _ & _ & _ & _
        & _ & Htc).
  exists ms, inc. split; [exact Hsnap|]. split; [|exact Htc].
  assert (ms = snd (snapshot NonLinear.Periodic ex_rest))
    by (by rewrite Hsnap).
  subst ms. vm_compute in Hst, Hrhs.
  injection Hst as <-. injection Hrhs as <-. exact Hinc.
Defined.

Lemma linear_raise_commits_nothing_witness :
  exists ms m2,
    snapshot NonLinear.Walled ex_fault = (Ok tt, ms) /\
    Linear.step Linear._dynamics_terms NonLinear.Walled ex_fault
    = (Raise (UserError 1), m2) /\
    state m2 = state ms.
Proof.
  exists (snd (snapshot NonLinear.Walled ex_fault)).
  eexists.
  destruct (linear_raise_commits_nothing Linear._dynamics_terms
              NonLinear.Walled ex_fault
              (snd (snapshot NonLinear.Walled ex_fault))
              (with_stepper (snd (snapshot NonLinear.Walled ex_fault))
                 Finished)
              (UserError 1) eq_refl eq_refl) as (Hstep & _ & Hstate & _).
  split; [reflexivity|]. split; [exact Hstep|exact Hstate].
Defined.
